(** * pylast: image cleaning, configuration system, data writer and CLI

    A shallow embedding of these parts of the sources:

    - [ImageCleaner.cpp]   : [TailcutsCleaner::tailcuts_clean], [dilate],
                             [TailcutsCleaner::tailcuts_clean2];
    - [DataWriter.cpp]     : [DataWriter::operator()];
    - [hillas_reco.cpp]    : [main];
    - [RootWriter.cpp]     : [RootWriter::open];
    - [ConfigSystem.hh]    : [config::Configurable];
    - [rpolator.c]         : [interp], [set_1d_cubic_params], [csx],
                             [rpol_cspline].

    Conventions.  An [Eigen::Vector<bool,-1>] is a [list bool], an
    [Eigen::VectorXi] a [list Z] whose entries are C++ [int]s (32 bits,
    wrap-around written out), an [Eigen::VectorXd] a list of pixel values.
    The cleaning code only ever compares pixel values with [>=], so it is
    modelled over an arbitrary value type with an arbitrary comparison; the
    concrete scenarios and the adaptive thresholds use rationals, which is
    what finite doubles are. *)

From Stdlib Require Import ZArith QArith Qminmax Qround Lia Ascii String.
From Stdlib Require Import Field Qfield Lqa.
From stdpp Require Import base option list sets gmap strings sorting.

Local Open Scope Z_scope.
Set Warnings "-clear-no-such-hyp,-register-all".

(* ================================================================== *)
(** * Part I: the model                                                *)
(* ================================================================== *)

(** ** C++ [int] arithmetic *)

Definition int_wrap (z : Z) : Z := (z + 2 ^ 31) mod 2 ^ 32 - 2 ^ 31.
Definition int_add (a b : Z) : Z := int_wrap (a + b).
Definition int_mul (a b : Z) : Z := int_wrap (a * b).

(** ** Camera geometry *)

(** The fields of [CameraGeometry] that the cleaning code and the test
    cameras use.  [neigh_matrix] is the [Eigen::SparseMatrix<int>] given
    by rows. *)
Record CameraGeometry : Type := {
  num_pixels : nat;
  pix_x : list Q;
  pix_y : list Q;
  pix_area : list Q;
  pix_type : list Z;
  neigh_matrix : list (list Z)
}.

(** A camera is well formed when its neighbour matrix is an N x N matrix of
    zeros and ones and N fits a C++ [int]. *)
Definition wf_camera (cam : CameraGeometry) : Prop :=
  Z.of_nat (num_pixels cam) < 2 ^ 31 ∧
  length (neigh_matrix cam) = num_pixels cam ∧
  Forall (λ row, length row = num_pixels cam ∧
                 Forall (λ x, x = 0 ∨ x = 1) row) (neigh_matrix cam).

(** ** Eigen array operations *)

(** [mask.cast<int>()] *)
Definition cast_int (mask : list bool) : list Z :=
  map (λ b : bool, if b then 1 else 0) mask.

(** One entry of [neigh_matrix * v]: the products of a row with the vector
    are accumulated in an [int]. *)
Definition row_times (row v : list Z) : Z :=
  fold_left (λ acc p, int_add acc (int_mul p.1 p.2)) (zip row v) 0.

(** [neigh_matrix * v] *)
Definition mat_vec (m : list (list Z)) (v : list Z) : list Z :=
  map (λ row, row_times row v) m.

(** [a.array() && b.array()] and [a.array() || b.array()] *)
Definition array_and (a b : list bool) : list bool := zip_with andb a b.
Definition array_or (a b : list bool) : list bool := zip_with orb a b.

(** [v.array() >= k] and [v.array() > 0] on integer vectors *)
Definition array_ge_int (v : list Z) (k : Z) : list bool :=
  map (λ n, k <=? n) v.
Definition array_gt0 (v : list Z) : list bool := map (λ n, 0 <? n) v.

(** ** Neighbourhoods as sets *)

(** The pixel indices of the camera. *)
Definition pixels (cam : CameraGeometry) : gset nat :=
  set_seq 0 (num_pixels cam).

(** Entry (i, j) of the adjacency matrix is 1. *)
Definition adjacent (cam : CameraGeometry) (i j : nat) : Prop :=
  neigh_matrix cam !! i ≫= (.!! j) = Some 1.

#[global] Instance adjacent_dec cam i j : Decision (adjacent cam i j).
Proof. unfold adjacent. apply _. Defined.

(** [N(i)]: the neighbour set of pixel [i]. *)
Definition N (cam : CameraGeometry) (i : nat) : gset nat :=
  filter (adjacent cam i) (pixels cam).

(** [neighbors_of(S) = {i : |N(i) ∩ S| > 0}] *)
Definition neighbors_of (cam : CameraGeometry) (S : gset nat) : gset nat :=
  filter (λ i, (0 < size (N cam i ∩ S))%nat) (pixels cam).

Section Cleaning.
Context {pixel : Type}.
(** [geb x t] is the C++ comparison [x >= t] on doubles. *)
Variable geb : pixel → pixel → bool.

(** [image.array() >= thresh] *)
Definition array_ge (image : list pixel) (thresh : pixel) : list bool :=
  map (λ x, geb x thresh) image.

(** [TailcutsCleaner::tailcuts_clean] *)
Definition tailcuts_clean (camera_geometry : CameraGeometry)
    (image : list pixel) (picture_thresh boundary_thresh : pixel)
    (keep_isolated_pixels : bool) (min_number_picture_neighbors : Z)
    : list bool :=
  let pixel_above_picture := array_ge image picture_thresh in
  let pixel_in_picture :=
    if keep_isolated_pixels || (min_number_picture_neighbors =? 0) then
      pixel_above_picture
    else
      let num_neighbors_above_picture :=
        mat_vec (neigh_matrix camera_geometry) (cast_int pixel_above_picture) in
      let have_enough_neighbors :=
        array_ge_int num_neighbors_above_picture min_number_picture_neighbors in
      array_and pixel_above_picture have_enough_neighbors in
  let pixel_above_boundary := array_ge image boundary_thresh in
  let pixel_with_picture_neighbors :=
    array_gt0 (mat_vec (neigh_matrix camera_geometry) (cast_int pixel_in_picture)) in
  if keep_isolated_pixels then
    array_or (array_and pixel_above_boundary pixel_with_picture_neighbors)
             pixel_in_picture
  else
    let pixel_with_boundary_neighbors :=
      array_gt0 (mat_vec (neigh_matrix camera_geometry)
                         (cast_int pixel_above_boundary)) in
    array_or (array_and pixel_above_boundary pixel_with_picture_neighbors)
             (array_and pixel_in_picture pixel_with_boundary_neighbors).

(** *** The algorithm of the specification, as set operations *)

(** [image[i] >= thresh] *)
Definition at_least (image : list pixel) (thresh : pixel) (i : nat) : Prop :=
  (λ x, geb x thresh) <$> image !! i = Some true.

#[global] Instance at_least_dec image thresh i :
  Decision (at_least image thresh i).
Proof. unfold at_least. apply _. Defined.

(** [{i : image[i] >= thresh}] *)
Definition above (cam : CameraGeometry) (image : list pixel)
    (thresh : pixel) : gset nat :=
  filter (at_least image thresh) (pixels cam).

(** Steps 1 and 2: the picture pixels [P']. *)
Definition spec_picture (cam : CameraGeometry) (image : list pixel)
    (picture_thresh : pixel) (keep_isolated_pixels : bool)
    (min_number_picture_neighbors : Z) : gset nat :=
  let P := above cam image picture_thresh in
  if keep_isolated_pixels || (min_number_picture_neighbors =? 0) then P
  else filter (λ i, min_number_picture_neighbors
                      ≤ Z.of_nat (size (N cam i ∩ P))) P.

(** Steps 3 and 4: the result. *)
Definition spec_tailcuts (cam : CameraGeometry) (image : list pixel)
    (picture_thresh boundary_thresh : pixel)
    (keep_isolated_pixels : bool) (min_number_picture_neighbors : Z)
    : gset nat :=
  let P' := spec_picture cam image picture_thresh keep_isolated_pixels
                         min_number_picture_neighbors in
  let B := above cam image boundary_thresh in
  if keep_isolated_pixels then (B ∩ neighbors_of cam P') ∪ P'
  else (B ∩ neighbors_of cam P') ∪ (P' ∩ neighbors_of cam B).
End Cleaning.

(** The set of pixels that a boolean mask selects. *)
Definition mask_set (mask : list bool) : gset nat :=
  filter (λ i, mask !! i = Some true) (set_seq 0 (length mask)).

(** [dilate] *)
Definition dilate (camera_geometry : CameraGeometry) (mask : list bool)
    : list bool :=
  let neigh_true_count :=
    mat_vec (neigh_matrix camera_geometry) (cast_int mask) in
  let has_true_neighbor := array_gt0 neigh_true_count in
  array_or mask has_true_neighbor.

(** The positions [j >= k] at which a matrix row has a one and the mask is
    set; [k] is the index of the first entry. *)
Fixpoint hits (k : nat) (row : list Z) (v : list bool) : list nat :=
  match row, v with
  | x :: row', b :: v' =>
      (if decide (x = 1 ∧ b = true) then [k] else []) ++ hits (S k) row' v'
  | _, _ => []
  end.

(** ** Doubles as rationals *)

(** The C++ comparison [x >= t] on finite doubles. *)
Definition Qgeb (x t : Q) : bool := Qle_bool t x.

(** ** The test cameras *)

(** The largest of a list of areas ([0] for an empty list). *)
Definition max_area (areas : list Q) : Q :=
  fold_right (λ a m, if Qle_bool m a then a else m) 0%Q areas.

(** Modelled from the spec: the [CameraGeometry] constructor, which derives
    [neigh_matrix] from the pixel positions, is not among the sources.
    Two pixels are neighbours iff their centre distance is at most
    [1.4 * sqrt(max pix_area)] (hexagonal pixels, [pix_type = 2]) or
    [1.1 * sqrt(pix_area)] (square pixels); self-entries are 0.  The
    comparison is made on the squares, which is exact on rationals. *)
Definition neighbor_entry (x y area : list Q) (type : list Z) (i j : nat) : Z :=
  if decide (i = j) then 0 else
  match x !! i, y !! i, x !! j, y !! j, area !! i, type !! i with
  | Some xi, Some yi, Some xj, Some yj, Some a, Some t =>
      let d2 := ((xi - xj) * (xi - xj) + (yi - yj) * (yi - yj))%Q in
      let r2 := if t =? 2 then ((14 # 10) * (14 # 10) * max_area area)%Q
                else ((11 # 10) * (11 # 10) * a)%Q in
      if Qle_bool d2 r2 then 1 else 0
  | _, _, _, _, _, _ => 0
  end.

Definition make_camera (n : nat) (x y area : list Q) (type : list Z)
    : CameraGeometry :=
  {| num_pixels := n; pix_x := x; pix_y := y; pix_area := area;
     pix_type := type;
     neigh_matrix :=
       map (λ i, map (λ j, neighbor_entry x y area type i j) (seq 0 n))
           (seq 0 n) |}.

(** The 4x4 camera of the scenarios: pixel [4 * j + i] has its centre at
    [(i, j)], area 1 and the given pixel type (the specification speaks of
    square pixels, the repository's test passes [pix_type = 2]). *)
Definition grid_camera (side : nat) (type : Z) : CameraGeometry :=
  make_camera (side * side)
    (flat_map (λ _, map (λ i, inject_Z (Z.of_nat i)) (seq 0 side)) (seq 0 side))
    (flat_map (λ j, map (λ _, inject_Z (Z.of_nat j)) (seq 0 side)) (seq 0 side))
    (replicate (side * side) 1%Q)
    (replicate (side * side) type).

Definition square_camera_4x4 : CameraGeometry := grid_camera 4 1.
Definition test_camera_4x4 : CameraGeometry := grid_camera 4 2.

(** [Eigen::VectorXd::Constant(n, c)] with entry [k] then set to [v]. *)
Definition solo_image (n : nat) (c : Q) (k : nat) (v : Q) : list Q :=
  <[k := v]> (replicate n c).

(** The indices at which a mask is true, in increasing order. *)
Definition true_pixels (mask : list bool) : list nat :=
  filter (λ i, mask !! i = Some true) (seq 0 (length mask)).

(** [mask.cast<int>().sum()] for a mask of fewer than 2^31 entries. *)
Definition mask_sum (mask : list bool) : Z :=
  fold_left Z.add (cast_int mask) 0.

(** C2 as the specification states it: an all-zero image with a single peak
    of 10 at pixel 10, thresholds 8 and 1, no isolated pixels kept, no
    neighbour requirement. *)
Definition isolated_peak_as_stated : Prop :=
  let mask := tailcuts_clean Qgeb square_camera_4x4
                (solo_image 16 0%Q 10 10%Q) 8%Q 1%Q false 0 in
  true_pixels mask = [6; 9; 10; 11; 14]%nat ∧ mask_sum mask = 5.

(** C3 as the specification states it: a pixel of the mask is a picture
    candidate that meets the neighbour number, or a boundary candidate next
    to a picture candidate. *)
Definition tailcuts_invariant_as_stated {pixel : Type}
    (geb : pixel → pixel → bool) (cam : CameraGeometry) (image : list pixel)
    (picture_thresh boundary_thresh : pixel) (keep_isolated_pixels : bool)
    (min_number_picture_neighbors : Z) : Prop :=
  ∀ i, i ∈ mask_set (tailcuts_clean geb cam image picture_thresh
                       boundary_thresh keep_isolated_pixels
                       min_number_picture_neighbors) →
    (at_least geb image picture_thresh i ∧
     min_number_picture_neighbors
       ≤ Z.of_nat (size (N cam i ∩ above geb cam image picture_thresh)))
    ∨ (at_least geb image boundary_thresh i ∧
       ∃ j, adjacent cam i j ∧ at_least geb image picture_thresh j).

(** ** The adaptive cleaner *)

(** The configured members of a [TailcutsCleaner] instance. *)
Record TailcutsCleaner : Type := {
  picture_thresh : Q;
  boundary_thresh : Q;
  keep_isolated_pixels : bool;
  min_number_picture_neighbors : Z
}.

(** The C++ comparison [x < y] on finite doubles. *)
Definition Qltb (x y : Q) : bool := negb (Qle_bool y x).

(** [std::max(a, b)], which is [(a < b) ? b : a]. *)
Definition std_max (a b : Q) : Q := if Qltb a b then b else a.

(** [image.maxCoeff()] on a non-empty vector (0 stands for the failed
    assertion on an empty one, which [tailcuts_clean2] never reaches). *)
Definition maxCoeff (image : list Q) : Q :=
  match image with
  | [] => 0%Q
  | x :: rest => fold_left std_max rest x
  end.

Section Adaptive.
(** [rnd] rounds the exact quotient to a double; with [rnd = id] the
    division is exact. *)
Variable rnd : Q → Q.

Definition maxval (image : list Q) : Q :=
  if (0 <? length image)%nat then maxCoeff image else 0%Q.

Definition picture_auto (image : list Q) : Q :=
  std_max 10%Q (rnd (maxval image / 10)).

Definition boundary_auto (image : list Q) : Q :=
  std_max 5%Q (rnd (maxval image / 20)).

(** [TailcutsCleaner::operator()] *)
Definition clean (self : TailcutsCleaner) (camera_geometry : CameraGeometry)
    (image : list Q) : list bool :=
  tailcuts_clean Qgeb camera_geometry image (picture_thresh self)
    (boundary_thresh self) (keep_isolated_pixels self)
    (min_number_picture_neighbors self).

(** [TailcutsCleaner::tailcuts_clean2] *)
Definition tailcuts_clean2 (self : TailcutsCleaner)
    (camera_geometry : CameraGeometry) (image : list Q) : list bool :=
  tailcuts_clean Qgeb camera_geometry image
    (picture_auto image) (boundary_auto image)
    (keep_isolated_pixels self) (min_number_picture_neighbors self).
End Adaptive.

(** [m] is the largest value of [image], and 0 when the image is empty. *)
Definition max_of (image : list Q) (m : Q) : Prop :=
  match image with
  | [] => m = 0%Q
  | _ => m ∈ image ∧ ∀ x, x ∈ image → (x <= m)%Q
  end.

(** ** Outcomes of C++ code that can throw or go wrong *)

Inductive failure : Type :=
| runtime_error (what : string)      (* [std::runtime_error] *)
| type_error (id : Z)                (* [nlohmann::json::type_error], by id *)
| undefined_behaviour (what : string).

Inductive outcome (A : Type) : Type :=
| Returns (a : A)
| Fails (f : failure).
Arguments Returns {A} a.
Arguments Fails {A} f.

(** ** The event model and the data writer *)

(** The simulation layer: the shower truth and the per-telescope cameras
    ([tel_id] to true photo-electron image). *)
Record SimulatedEvent : Type := {
  shower_energy : Q;
  sim_tels : gmap Z (list Z)
}.

(** Every other layer, by its per-telescope records. *)
Record TelLayer : Type := {
  tels : gmap Z (list Q)
}.

(** [ArrayEvent]: the [std::optional] layers are options. *)
Record ArrayEvent : Type := {
  event_id : Z;
  run_id : Z;
  simulation : option SimulatedEvent;
  r0 : option TelLayer;
  r1 : option TelLayer;
  dl0 : option TelLayer;
  dl1 : option TelLayer;
  dl2 : option TelLayer;
  monitor : option TelLayer;
  pointing : option TelLayer
}.

(** The calls that [DataWriter::operator()] makes on its [FileWriter]. *)
Inductive writer_call : Type :=
| unique_write_method
| write_simulation_shower
| write_simulated_camera (write_image : bool)
| write_r0
| write_r1
| write_dl0
| write_dl1 (write_image : bool)
| write_dl2
| write_monitor
| write_pointing.

#[global] Instance writer_call_eq_dec : EqDecision writer_call.
Proof. solve_decision. Defined.

(** The members of [DataWriter] that [operator()] reads.  The backend
    behind [file_writer] is represented by the calls it has received;
    [None] is the null pointer. *)
Record DataWriter : Type := {
  write_simulation_shower_enabled : bool;
  write_simulated_camera_enabled : bool;
  write_simulated_camera_image_enabled : bool;
  write_r0_enabled : bool;
  write_r1_enabled : bool;
  write_dl0_enabled : bool;
  write_dl1_enabled : bool;
  write_dl1_image_enabled : bool;
  write_dl2_enabled : bool;
  write_monitor_enabled : bool;
  write_pointing_enabled : bool;
  file_writer : option (list writer_call)
}.

(** Statements that call the backend and may go wrong: a state and error
    monad over the calls received so far. *)
Definition writing (A : Type) : Type :=
  list writer_call → outcome (A * list writer_call).

Definition wret {A} (a : A) : writing A := λ calls, Returns (a, calls).

Definition wbind {A B} (m : writing A) (k : A → writing B) : writing B :=
  λ calls, match m calls with
           | Returns (a, calls') => k a calls'
           | Fails f => Fails f
           end.

#[global] Instance writing_ret : MRet writing := @wret.
#[global] Instance writing_bind : MBind writing :=
  λ A B k m, wbind m k.

(** [file_writer->method(event, ...)] *)
Definition invoke (c : writer_call) : writing unit :=
  λ calls, Returns (tt, calls ++ [c]).

(** [opt->member]: dereferencing an empty [std::optional] is undefined. *)
Definition deref {A} (name : string) (opt : option A) : writing A :=
  λ calls, match opt with
           | Some a => Returns (a, calls)
           | None => Fails (undefined_behaviour name)
           end.

(** [opt.has_value()] *)
Definition has_value {A} (opt : option A) : bool :=
  match opt with Some _ => true | None => false end.

(** [if (cond) { body }] *)
Definition when (cond : bool) (body : writing unit) : writing unit :=
  if cond then body else wret tt.

(** [flag && rhs]: the right operand is evaluated only if [flag] holds. *)
Definition and_then (flag : bool) (rhs : writing bool) : writing bool :=
  if flag then rhs else wret false.

(** The body of [DataWriter::operator()] after the null check. *)
Definition write_event (self : DataWriter) (event : ArrayEvent)
    : writing unit :=
  invoke unique_write_method;;
  when (write_simulation_shower_enabled self && has_value (simulation event))
    (invoke write_simulation_shower);;
  c ← and_then (write_simulated_camera_enabled self)
        (sim ← deref "event.simulation" (simulation event);
         mret (bool_decide (0 < size (sim_tels sim))%nat));
  when c (invoke (write_simulated_camera
                    (write_simulated_camera_image_enabled self)));;
  when (write_r0_enabled self && has_value (r0 event)) (invoke write_r0);;
  when (write_r1_enabled self && has_value (r1 event)) (invoke write_r1);;
  when (write_dl0_enabled self && has_value (dl0 event)) (invoke write_dl0);;
  when (write_dl1_enabled self && has_value (dl1 event))
    (invoke (write_dl1 (write_dl1_image_enabled self)));;
  when (write_dl2_enabled self && has_value (dl2 event)) (invoke write_dl2);;
  when (write_monitor_enabled self && has_value (monitor event))
    (invoke write_monitor);;
  when (write_pointing_enabled self && has_value (pointing event))
    (invoke write_pointing).

(** [DataWriter::operator()]: the calls the backend has received
    afterwards, [None] when there is no backend. *)
Definition DataWriter_call (self : DataWriter) (event : ArrayEvent)
    : outcome (option (list writer_call)) :=
  match file_writer self with
  | None => Returns None
  | Some calls =>
      match write_event self event calls with
      | Returns (_, calls') => Returns (Some calls')
      | Fails f => Fails f
      end
  end.

(** The flags as [DataWriter::registerParams] defaults them, with an open
    backend that has received no call yet. *)
Definition default_DataWriter : DataWriter :=
  {| write_simulation_shower_enabled := true;
     write_simulated_camera_enabled := true;
     write_simulated_camera_image_enabled := false;
     write_r0_enabled := false;
     write_r1_enabled := false;
     write_dl0_enabled := false;
     write_dl1_enabled := true;
     write_dl1_image_enabled := false;
     write_dl2_enabled := true;
     write_monitor_enabled := false;
     write_pointing_enabled := false;
     file_writer := Some [] |}.

(** An event without a simulation layer (a recorded, not simulated, event)
    that carries [dl1] for telescope 1. *)
Definition observed_event : ArrayEvent :=
  {| event_id := 1; run_id := 1;
     simulation := None;
     r0 := None; r1 := None; dl0 := None;
     dl1 := Some {| tels := {[ 1 := [10%Q; 0%Q] ]} |};
     dl2 := None; monitor := None; pointing := None |}.

(** What C4 asks of a run of [operator()]: it completes, and the backend
    method of each layer has been called iff the layer's flag is enabled
    and the layer is present. *)
Definition routes_enabled_present (self : DataWriter) (event : ArrayEvent)
    : Prop :=
  ∃ calls, DataWriter_call self event = Returns (Some calls) ∧
    (write_simulation_shower ∈ calls ↔
       write_simulation_shower_enabled self = true ∧ is_Some (simulation event)) ∧
    ((∃ b, write_simulated_camera b ∈ calls) ↔
       write_simulated_camera_enabled self = true ∧ is_Some (simulation event)) ∧
    (write_r0 ∈ calls ↔ write_r0_enabled self = true ∧ is_Some (r0 event)) ∧
    (write_r1 ∈ calls ↔ write_r1_enabled self = true ∧ is_Some (r1 event)) ∧
    (write_dl0 ∈ calls ↔ write_dl0_enabled self = true ∧ is_Some (dl0 event)) ∧
    ((∃ b, write_dl1 b ∈ calls) ↔
       write_dl1_enabled self = true ∧ is_Some (dl1 event)) ∧
    (write_dl2 ∈ calls ↔ write_dl2_enabled self = true ∧ is_Some (dl2 event)) ∧
    (write_monitor ∈ calls ↔
       write_monitor_enabled self = true ∧ is_Some (monitor event)) ∧
    (write_pointing ∈ calls ↔
       write_pointing_enabled self = true ∧ is_Some (pointing event)).

(** ** The command line program *)

(** The flags of [hillas_reco] after [parser.ParseCLI]. *)
Record Args : Type := {
  input_files : list string;
  output_files : list string;
  config_file : option string;
  max_leakage2 : option string;
  subarray : option string
}.

(** What [parser.ParseCLI(argc, argv)] does. *)
Inductive cli : Type :=
| Help                       (* throws [args::Help] *)
| ParseError                 (* throws [args::ParseError] *)
| ValidationError            (* throws [args::ValidationError] *)
| Parsed (a : Args).

(** How the program ends: [return code] from [main], or [std::terminate]
    on an exception that nothing catches. *)
Inductive status : Type :=
| Exit (code : Z)
| Terminated.

(** What the program reports about the input files. *)
Inductive report : Type :=
| Processing (input output : string)
| Finished (input : string)
| ErrorProcessing (input : string).

(** [isspace] in the C locale *)
Definition is_space (a : ascii) : bool :=
  let n := nat_of_ascii a in
  bool_decide (n = 32 ∨ (9 ≤ n ∧ n ≤ 13))%nat.

Definition digit_value (a : ascii) : option Z :=
  let n := nat_of_ascii a in
  if bool_decide (48 ≤ n ∧ n ≤ 57)%nat then Some (Z.of_nat n - 48) else None.

Fixpoint skip_spaces (s : string) : string :=
  match s with
  | String a s' => if is_space a then skip_spaces s' else s
  | EmptyString => s
  end.

(** The value of the leading decimal digits, [None] if there is none;
    [acc] is the value of the digits already read. *)
Fixpoint leading_digits (s : string) (acc : option Z) : option Z :=
  match s with
  | String a s' =>
      match digit_value a with
      | Some d => leading_digits s' (Some (default 0 acc * 10 + d))
      | None => acc
      end
  | EmptyString => acc
  end.

(** [std::stoi(s)]: [None] when it throws ([std::invalid_argument] without
    a digit to convert, [std::out_of_range] when the value is no [int]). *)
Definition stoi (s : string) : option Z :=
  let s := skip_spaces s in
  let '(negative, s) :=
    match s with
    | String "-"%char s' => (true, s')
    | String "+"%char s' => (false, s')
    | _ => (false, s)
    end in
  match leading_digits s None with
  | Some n =>
      let v := if negative then - n else n in
      if bool_decide (- 2 ^ 31 ≤ v ∧ v < 2 ^ 31) then Some v else None
  | None => None
  end.

(** The tokens that the loop over [subarray_str.find(',')] cuts off, with
    the remainder of the string as last token. *)
Fixpoint split_commas (s : string) : list string :=
  match s with
  | EmptyString => [EmptyString]
  | String a s' =>
      if Ascii.eqb a ","%char then EmptyString :: split_commas s'
      else match split_commas s' with
           | token :: tokens => String a token :: tokens
           | [] => [String a EmptyString]
           end
  end.

(** [tel_ids] of the [-s] list; [None] when a [std::stoi] throws, which
    [main] answers with [return 1]. *)
Definition parse_subarray (s : string) : option (list Z) :=
  mapM stoi (split_commas s).

Section Main.
(** The configuration as a JSON value, whose contents [main] does not
    inspect. *)
Context {json_config : Type}.
Variable default_config : json_config.
(** [std::ifstream f(path)]: the file contents, [None] if [!f.is_open()]. *)
Variable read_file : string → option string.
(** [f >> config]: [None] when the parser throws. *)
Variable parse_json : string → option json_config.
(** [config["shower_processor"]["HillasReconstructor"]["ImageQuery"] = q]:
    [None] when [operator[]] throws. *)
Variable set_image_query : json_config → string → option json_config.
(** The body of the [try] block for one pair of files: [true] when it runs
    to its end, [false] when it throws a [std::exception]. *)
Variable process_file : json_config → list Z → string → string → bool.

Definition leakage_query (max_leakage2 : string) : string :=
  "leakage_intensity_width_2 < " +:+ max_leakage2 +:+ " && hillas_intensity > 100".

(** One iteration of the loop over the input files. *)
Definition process_pair (config : json_config) (tel_ids : list Z)
    (pair : string * string) : list report :=
  let '(input_file, output_file) := pair in
  Processing input_file output_file ::
  if process_file config tel_ids input_file output_file
  then [Finished input_file]
  else [ErrorProcessing input_file].

(** [main]: the reports about input files, and how the program ends. *)
Definition main (command_line : cli) : list report * status :=
  match command_line with
  | Help => ([], Exit 0)
  | ParseError => ([], Exit 1)
  | ValidationError => ([], Exit 1)
  | Parsed a =>
      let inputs := input_files a in
      let outputs := output_files a in
      if bool_decide (inputs = []) then ([], Exit 1)
      else if bool_decide (length inputs ≠ length outputs) then ([], Exit 1)
      else
        let loaded :=
          match config_file a with
          | Some path =>
              match read_file path with
              | None => inl (Exit 1)
              | Some text =>
                  match parse_json text with
                  | None => inl Terminated
                  | Some config => inr config
                  end
              end
          | None => inr default_config
          end in
        match loaded with
        | inl st => ([], st)
        | inr config =>
            let updated :=
              match max_leakage2 a with
              | Some l => set_image_query config (leakage_query l)
              | None => Some config
              end in
            match updated with
            | None => ([], Terminated)
            | Some config =>
                let ids :=
                  match subarray a with
                  | Some s => parse_subarray s
                  | None => Some []
                  end in
                match ids with
                | None => ([], Exit 1)
                | Some tel_ids =>
                    (flat_map (process_pair config tel_ids)
                              (zip inputs outputs), Exit 0)
                end
            end
        end
  end.

(** The three argument errors that C5 lists. *)
Definition listed_setup_error (a : Args) : Prop :=
  input_files a = [] ∨
  length (input_files a) ≠ length (output_files a) ∨
  ∃ path, config_file a = Some path ∧ read_file path = None.

(** C5 as stated: exit code 1 and no file processed on a listed error,
    exit code 0 otherwise. *)
Definition exit_code_as_stated (a : Args) : Prop :=
  (listed_setup_error a → main (Parsed a) = ([], Exit 1)) ∧
  (¬ listed_setup_error a → (main (Parsed a)).2 = Exit 0).
End Main.

Section MainSpec.
Context {json_config : Type}.
Variable default_config : json_config.
Variable read_file : string → option string.
Variable parse_json : string → option json_config.
Variable set_image_query : json_config → string → option json_config.

(** A telescope id of the [-s] list is not an integer. *)
Definition bad_subarray (a : Args) : Prop :=
  ∃ s, subarray a = Some s ∧ parse_subarray s = None.

(** The telescope ids that [-s] selects. *)
Definition selected_tel_ids (a : Args) (tel_ids : list Z) : Prop :=
  match subarray a with
  | Some s => parse_subarray s = Some tel_ids
  | None => tel_ids = []
  end.

(** The configuration is available: the [-c] file, if given, opens and holds
    JSON that parses, and the [-l] update, if any, goes through. *)
Definition config_loads (a : Args) (config : json_config) : Prop :=
  ∃ loaded,
    match config_file a with
    | Some path => ∃ text, read_file path = Some text ∧
                           parse_json text = Some loaded
    | None => loaded = default_config
    end ∧
    match max_leakage2 a with
    | Some l => set_image_query loaded (leakage_query l) = Some config
    | None => config = loaded
    end.
End MainSpec.

(** An environment for running [main]: the configuration is opaque, the
    files named ["missing.json"] cannot be opened, ["broken.simtel"] makes
    the processing of its pair throw. *)
Definition demo_read_file (path : string) : option string :=
  if String.eqb path "missing.json" then None else Some "{}"%string.
Definition demo_process_file (_ : unit) (_ : list Z) (input _ : string)
    : bool :=
  negb (String.eqb input "broken.simtel").
Definition demo_main : cli → list report * status :=
  main tt demo_read_file (λ _, Some tt) (λ c _, Some c) demo_process_file.

(** ** The ROOT writer *)

(** The files on disk, each by the names of the objects stored in it, and
    the paths at which a file can be created or written. *)
Record file_system : Type := {
  files : gmap string (list string);
  writable : string → bool
}.

(** A [TFile] open for writing. *)
Record TFile : Type := { file_path : string }.

Inductive open_option : Type := RECREATE | NEW.

(** [TFile::Open(name, option)] of the ROOT library, by its documented
    options: ["RECREATE"] creates the file and overwrites an existing one;
    ["NEW"] creates the file and does not open it when it already exists.
    A file that cannot be opened gives a null pointer. *)
Definition TFile_Open (fs : file_system) (name : string) (opt : open_option)
    : file_system * option TFile :=
  let created :=
    ({| files := <[name := []]> (files fs); writable := writable fs |},
     Some {| file_path := name |}) in
  if negb (writable fs name) then (fs, None)
  else match opt with
       | RECREATE => created
       | NEW => if files fs !! name is Some _ then (fs, None) else created
       end.

(** The members of [RootWriter] that [open] touches. *)
Record RootWriter : Type := {
  filename : string;
  file : option TFile
}.

(** [RootWriter::open]: the file system and the writer afterwards, and
    whether the call returned or threw.  The assignment to [file] precedes
    the [throw]. *)
Definition RootWriter_open (self : RootWriter) (overwrite : bool)
    (fs : file_system) : file_system * RootWriter * outcome unit :=
  if overwrite then
    let '(fs', f) := TFile_Open fs (filename self) RECREATE in
    (fs', {| filename := filename self; file := f |}, Returns tt)
  else
    let '(fs', f) := TFile_Open fs (filename self) NEW in
    let self' := {| filename := filename self; file := f |} in
    match f with
    | None =>
        (fs', self',
         Fails (runtime_error ("file already exists: " +:+ filename self)))
    | Some _ => (fs', self', Returns tt)
    end.

(** ** JSON values *)

(** [nlohmann::json].  Integers are the 64-bit [number_integer] and
    [number_unsigned] values, floats are rationals, an object is the
    [std::map] from keys to values. *)
Inductive json : Type :=
| JNull
| JBool (b : bool)
| JInt (n : Z)
| JFloat (x : Q)
| JString (s : string)
| JArray (elements : list json)
| JObject (members : gmap string json).

(** [j.is_null()] and [j.is_object()] *)
Definition is_null (j : json) : bool :=
  match j with JNull => true | _ => false end.
Definition is_object (j : json) : bool :=
  match j with JObject _ => true | _ => false end.

(** The member [key] of [j]; [None] when [!j.contains(key)], which is the
    case of every value that is not an object. *)
Definition member (j : json) (key : string) : option json :=
  match j with JObject m => m !! key | _ => None end.

(** The members of an object, in the order in which [items()] iterates:
    that of the keys. *)
Definition key_le (a b : string * json) : Prop :=
  String.leb a.1 b.1 = true.

#[global] Instance key_le_dec a b : Decision (key_le a b).
Proof. unfold key_le. apply _. Defined.

Definition items (m : gmap string json) : list (string * json) :=
  merge_sort key_le (map_to_list m).

(** The value under a sequence of keys. *)
Fixpoint get_path (j : json) (parts : list string) : option json :=
  match parts with
  | [] => Some j
  | key :: rest => member j key ≫= λ child, get_path child rest
  end.

(** [target.merge_patch(patch)] (RFC 7386) *)
Fixpoint merge_patch (target patch : json) {struct patch} : json :=
  match patch with
  | JObject p =>
      let start := match target with JObject t => t | _ => ∅ end in
      JObject
        (map_fold
           (λ key value (result : gmap string json),
              match value with
              | JNull => delete key result
              | _ => <[key := merge_patch (default JNull (result !! key))
                                          value]> result
              end)
           start p)
  | _ => patch
  end.

(** ** [std::any] holding the types the configuration system handles *)

Inductive any : Type :=
| any_nullptr
| any_bool (b : bool)
| any_int (n : Z)
| any_double (x : Q)
| any_string (s : string)
| any_json (j : json).

(** [ConfigParam]: the setter is represented by the values it receives. *)
Record ConfigParam : Type := {
  path : string;
  defaultValue : any
}.

(** Evaluation that can throw. *)
#[global] Instance outcome_ret : MRet outcome := @Returns.
#[global] Instance outcome_bind : MBind outcome :=
  λ A B k m, match m with Returns a => k a | Fails f => Fails f end.

(** [static_cast<int>] of a [double]: truncation towards zero, undefined
    when the result is no [int]. *)
Definition truncate (x : Q) : Z :=
  if 0 <=? Qnum x then Qfloor x else Qceiling x.

(** [static_cast<double>] of a 64-bit integer, as [get<double>()] applies
    it to an integer value.  Up to [2 ^ 53] in absolute value every integer
    is a [double]; beyond, the doubles between [2 ^ e] and [2 ^ (e + 1)] are
    the multiples of [2 ^ (e - 52)], and the conversion rounds to the
    nearest of them, a tie going to the even multiple (the rounding of
    IEEE 754 arithmetic in its default mode). *)
Definition double_of_int (n : Z) : Q :=
  let a := Z.abs n in
  if a <? 2 ^ 53 then inject_Z n
  else
    let ulp := 2 ^ (Z.log2 a - 52) in
    let q := a / ulp in
    let r := a mod ulp in
    let q' := if 2 * r <? ulp then q
              else if ulp <? 2 * r then q + 1
              else if Z.even q then q else q + 1 in
    inject_Z (Z.sgn n * (q' * ulp)).

(** [j.get<int>()], [j.get<double>()], [j.get<bool>()],
    [j.get<std::string>()] *)
Definition get_int (j : json) : outcome Z :=
  match j with
  | JInt n => Returns (int_wrap n)
  | JFloat x =>
      let n := truncate x in
      if bool_decide (- 2 ^ 31 ≤ n ∧ n < 2 ^ 31) then Returns n
      else Fails (undefined_behaviour "double to int out of range")
  | JBool b => Returns (if b then 1 else 0)
  | _ => Fails (type_error 302)
  end.

Definition get_double (j : json) : outcome Q :=
  match j with
  | JInt n => Returns (double_of_int n)
  | JFloat x => Returns x
  | _ => Fails (type_error 302)
  end.

Definition get_bool (j : json) : outcome bool :=
  match j with
  | JBool b => Returns b
  | _ => Fails (type_error 302)
  end.

Definition get_string (j : json) : outcome string :=
  match j with
  | JString s => Returns s
  | _ => Fails (type_error 302)
  end.

(** [Configurable::json_to_any] *)
Definition json_to_any (j : json) : any :=
  match j with
  | JNull => any_nullptr
  | JBool b => any_bool b
  | JInt n => any_int (int_wrap n)
  | JFloat x => any_double x
  | JString s => any_string s
  | _ => any_json j
  end.

(** The JSON value that [setJsonValue] assigns for a [std::any]; [None] for
    a type that none of its branches handles. *)
Definition json_of_any (value : any) : option json :=
  match value with
  | any_nullptr => None
  | any_bool b => Some (JBool b)
  | any_int n => Some (JInt n)
  | any_double x => Some (JFloat x)
  | any_string s => Some (JString s)
  | any_json j => Some j
  end.

(** [Configurable::splitPath]: [current] is the component being read. *)
Fixpoint splitPath_from (path : string) (current : string) : list string :=
  match path with
  | EmptyString => if decide (current = EmptyString) then [] else [current]
  | String c rest =>
      if Ascii.eqb c "."%char then
        if decide (current = EmptyString) then splitPath_from rest EmptyString
        else current :: splitPath_from rest EmptyString
      else splitPath_from rest (current +:+ String c EmptyString)
  end.

Definition splitPath (path : string) : list string :=
  splitPath_from path EmptyString.

(** The loop and the final assignment of [setJsonValue], from the node
    [current] on.  [operator[]] on the node turns a null node into an object and
    throws [type_error] 305 on any other value that is not an object. *)
Fixpoint set_at (current : json) (parts : list string) (value : any)
    : outcome json :=
  match parts with
  | [] => Fails (undefined_behaviour "setJsonValue: empty path")
  | [last] =>
      match json_of_any value with
      | None => Returns current
      | Some v =>
          match current with
          | JNull => Returns (JObject {[ last := v ]})
          | JObject m => Returns (JObject (<[last := v]> m))
          | _ => Fails (type_error 305)
          end
      end
  | key :: rest =>
      match current with
      | JNull =>
          child ← set_at (JObject ∅) rest value;
          Returns (JObject {[ key := child ]})
      | JObject m =>
          child ← set_at (default (JObject ∅) (m !! key)) rest value;
          Returns (JObject (<[key := child]> m))
      | _ => Fails (type_error 305)
      end
  end.

(** [Configurable::setJsonValue] *)
Definition setJsonValue (config : json) (path : string) (value : any)
    : outcome json :=
  set_at config (splitPath path) value.

(** The conversion at the end of [getJsonValue], chosen by the type of the
    default value; [None] is its [return false]. *)
Definition get_as (defaultValue : any) (j : json) : outcome (option any) :=
  match defaultValue with
  | any_int _ => n ← get_int j; Returns (Some (any_int n))
  | any_double _ => x ← get_double j; Returns (Some (any_double x))
  | any_bool _ => b ← get_bool j; Returns (Some (any_bool b))
  | any_string _ => s ← get_string j; Returns (Some (any_string s))
  | any_json _ => Returns (Some (any_json j))
  | any_nullptr => Returns None
  end.

(** [Configurable::getJsonValue]: [Some] of the converted value when it
    returns [true]. *)
Definition getJsonValue (config : json) (path : string) (defaultValue : any)
    : outcome (option any) :=
  match splitPath path with
  | [] => Fails (undefined_behaviour "getJsonValue: empty path")
  | parts =>
      match get_path config parts with
      | None => Returns None
      | Some j => get_as defaultValue j
      end
  end.

(** [Configurable::buildDefaultConfig], for the parameters that
    [registerParams] registers. *)
Fixpoint build_from (config : json) (params : list ConfigParam)
    : outcome json :=
  match params with
  | [] => Returns config
  | param :: rest =>
      config' ← setJsonValue config (path param) (defaultValue param);
      build_from config' rest
  end.

Definition buildDefaultConfig (params : list ConfigParam) : outcome json :=
  build_from JNull params.

(** [Configurable::applyConfig]: the values passed to the setters of the
    parameters, in order. *)
Fixpoint applyConfig (params : list ConfigParam) (config : json)
    : outcome (list any) :=
  match params with
  | [] => Returns []
  | param :: rest =>
      found ← getJsonValue config (path param) (defaultValue param);
      values ← applyConfig rest config;
      Returns (default (defaultValue param) found :: values)
  end.

(** The loop of [processUserConfig] over the members of the user's object. *)
Fixpoint process_members (processed : json) (members : list (string * json))
    : outcome json :=
  match members with
  | [] => Returns processed
  | (key, value) :: rest =>
      processed' ← setJsonValue processed key (json_to_any value);
      process_members processed' rest
  end.

(** [Configurable::processUserConfig] *)
Definition processUserConfig (userConfig : json) : outcome json :=
  match userConfig with
  | JObject m => process_members JNull (items m)
  | _ => Returns userConfig
  end.

(** [Configurable::mergeConfig] *)
Definition mergeConfig (base override : json) : json :=
  merge_patch base override.

(** [Configurable::initialize] for a component that registers [params] and
    was handed [userConfig]: the values passed to the setters and the
    component's [currentConfig]. *)
Definition initialize (params : list ConfigParam) (userConfig : json)
    : outcome (list any * json) :=
  userConfig' ← processUserConfig userConfig;
  defaults ← buildDefaultConfig params;
  let finalConfig :=
    if is_null userConfig' then defaults
    else mergeConfig defaults userConfig' in
  values ← applyConfig params finalConfig;
  Returns (values, finalConfig).

(** *** The components of the repository *)

(** [TailcutsCleaner::registerParams] *)
Definition TailcutsCleaner_params : list ConfigParam :=
  [ {| path := "picture_thresh"; defaultValue := any_double 10 |};
    {| path := "boundary_thresh"; defaultValue := any_double 5 |};
    {| path := "keep_isolated_pixels"; defaultValue := any_bool false |};
    {| path := "min_number_picture_neighbors"; defaultValue := any_int 2 |} ].

(** [DataWriter::registerParams] *)
Definition DataWriter_params : list ConfigParam :=
  [ {| path := "output_type"; defaultValue := any_string "root" |};
    {| path := "eos_url";
       defaultValue := any_string "root://eos01.ihep.ac.cn/" |};
    {| path := "overwrite"; defaultValue := any_bool true |};
    {| path := "write_simulation_shower"; defaultValue := any_bool true |};
    {| path := "write_simulated_camera"; defaultValue := any_bool true |};
    {| path := "write_simulated_camera_image";
       defaultValue := any_bool false |};
    {| path := "write_r0"; defaultValue := any_bool false |};
    {| path := "write_r1"; defaultValue := any_bool false |};
    {| path := "write_dl0"; defaultValue := any_bool false |};
    {| path := "write_dl1"; defaultValue := any_bool true |};
    {| path := "write_dl1_image"; defaultValue := any_bool false |};
    {| path := "write_dl2"; defaultValue := any_bool true |};
    {| path := "write_monitor"; defaultValue := any_bool false |};
    {| path := "write_pointing"; defaultValue := any_bool false |};
    {| path := "write_atmosphere_model"; defaultValue := any_bool false |};
    {| path := "write_subarray"; defaultValue := any_bool true |};
    {| path := "write_simulation_config"; defaultValue := any_bool true |} ].

(** [config["data_writer"]] of [default_config()] in [hillas_reco.cpp] *)
Definition default_data_writer_config : json :=
  JObject (list_to_map
    [ ("output_type", JString "root");
      ("eos_url", JString "root://eos01.ihep.ac.cn/");
      ("overwrite", JBool true);
      ("write_simulation_shower", JBool true);
      ("write_simulated_camera", JBool true);
      ("write_simulated_camera_image", JBool false);
      ("write_r0", JBool false);
      ("write_r1", JBool false);
      ("write_dl0", JBool false);
      ("write_dl1", JBool true);
      ("write_dl1_image", JBool true);
      ("write_dl2", JBool true);
      ("write_monitor", JBool false);
      ("write_pointing", JBool true);
      ("write_simulation_config", JBool false);
      ("write_atmosphere_model", JBool false);
      ("write_subarray", JBool true);
      ("write_metaparam", JBool false) ]%string).

(** [test_person] and [test_Configurable] of [test_configurable.cpp] *)
Definition test_person_params : list ConfigParam :=
  [ {| path := "name"; defaultValue := any_string "default" |};
    {| path := "age"; defaultValue := any_int 0 |} ].

Definition test_Configurable_params : list ConfigParam :=
  [ {| path := "x"; defaultValue := any_double 10 |};
    {| path := "y"; defaultValue := any_int 10 |};
    {| path := "str"; defaultValue := any_string "default" |};
    {| path := "test_embedded_class_name";
       defaultValue := any_string "test_person" |};
    {| path := "test_person";
       defaultValue :=
         any_json (JObject (list_to_map
           [ ("name", JString "Anna"); ("age", JInt 25) ]%string)) |} ].

(** [test_Configurable::setUp]: the embedded [test_person] is constructed
    from the member ["test_person"] of the current configuration. *)
Definition test_Configurable_person (userConfig : json)
    : outcome (list any) :=
  '(values, config) ← initialize test_Configurable_params userConfig;
  match values !! 3%nat with
  | Some (any_string "test_person") =>
      '(person, _) ← initialize test_person_params
                       (default JNull (member config "test_person"));
      Returns person
  | _ => Returns []
  end.

(** *** Option names and what C7 asks *)

(** The first component of an option name. *)
Definition first_key (name : string) : option string :=
  head (splitPath name).

(** No registered parameter lives under the first component of [key]. *)
Definition unrecognized (params : list ConfigParam) (key : string) : Prop :=
  is_Some (first_key key) ∧
  ∀ param, param ∈ params → first_key (path param) ≠ first_key key.

(** C7 as stated: a configuration object with an unrecognized option name
    makes the construction fail. *)
Definition rejects_unrecognized (params : list ConfigParam)
    (userConfig : json) : Prop :=
  ∀ m key, userConfig = JObject m → is_Some (m !! key) →
    unrecognized params key →
    ∃ f, initialize params userConfig = Fails f.

(** *** Registered parameters and what the setters are to receive *)

(** A default value as a registered parameter can have it: of one of the
    five types that [setJsonValue] and [getJsonValue] handle, an [int]
    being an [int]. *)
Definition storable (value : any) : Prop :=
  match value with
  | any_nullptr => False
  | any_int n => - 2 ^ 31 ≤ n < 2 ^ 31
  | _ => True
  end.

(** The parameters of a component are well formed when every path has a
    component, every default is storable, and no path leads through
    another (in particular no path is registered twice). *)
Definition wf_params (params : list ConfigParam) : Prop :=
  Forall (λ param, splitPath (path param) ≠ [] ∧
                   storable (defaultValue param)) params ∧
  ∀ i j p q, params !! i = Some p → params !! j = Some q → i ≠ j →
    ¬ splitPath (path p) `prefix_of` splitPath (path q).

(** The conversion of a value that the user configuration has at the path
    of a parameter to the registered type: numbers convert to [int] and
    [double] (and booleans to [int]), booleans to [bool], strings to
    [std::string]; for a parameter that is itself JSON the value is merged
    into the default.  Anything else is a type error. *)
Definition convert_to (defaultValue : any) (v : json) : outcome any :=
  match defaultValue with
  | any_int _ => n ← get_int v; Returns (any_int n)
  | any_double _ => x ← get_double v; Returns (any_double x)
  | any_bool _ => b ← get_bool v; Returns (any_bool b)
  | any_string _ => s ← get_string v; Returns (any_string s)
  | any_json d => Returns (any_json (merge_patch d v))
  | any_nullptr => Returns any_nullptr
  end.

(** What the setter of a parameter is to receive, read off the expanded
    user configuration: the converted value at the dotted path of the
    parameter when there is one, the registered default when the path is
    absent (or holds null). *)
Definition spec_setting (user : json) (param : ConfigParam) : outcome any :=
  match get_path user (splitPath (path param)) with
  | None | Some JNull => Returns (defaultValue param)
  | Some v => convert_to (defaultValue param) v
  end.

(** Nested objects along a sequence of keys, and the sequence as one dotted
    key. *)
Fixpoint nested (parts : list string) (value : json) : json :=
  match parts with
  | [] => value
  | key :: rest => JObject {[ key := nested rest value ]}
  end.

Definition dotted (parts : list string) : string := String.concat "." parts.

(** A key component: not empty and without a dot. *)
Fixpoint dot_free (s : string) : bool :=
  match s with
  | EmptyString => true
  | String c rest => negb (Ascii.eqb c "."%char) && dot_free rest
  end.

Definition plain_key (s : string) : Prop :=
  s ≠ EmptyString ∧ dot_free s = true.

(** A value that [json_to_any] and [setJsonValue] hand on unchanged: not
    null, and an integer only if it is an [int]. *)
Definition plain_value (v : json) : Prop :=
  match v with
  | JNull => False
  | JInt n => - 2 ^ 31 ≤ n < 2 ^ 31
  | _ => True
  end.

(** *** What C9 asks *)

(** The value at a path when it is of the registered type. *)
Definition typed_value (defaultValue : any) (v : json) : option any :=
  match defaultValue, v with
  | any_int _, JInt n => Some (any_int n)
  | any_double _, JFloat x => Some (any_double x)
  | any_bool _, JBool b => Some (any_bool b)
  | any_string _, JString s => Some (any_string s)
  | any_json _, j => Some (any_json j)
  | _, _ => None
  end.

(** C9 as stated: the construction completes and every setter receives the
    value at the parameter's path in the (expanded) user configuration when
    it is there with the registered type, and the default otherwise. *)
Definition binds_user_value_or_default (params : list ConfigParam)
    (userConfig : json) : Prop :=
  ∃ user values config,
    processUserConfig userConfig = Returns user ∧
    initialize params userConfig = Returns (values, config) ∧
    ∀ i param, params !! i = Some param →
      values !! i
      = Some (default (defaultValue param)
                (get_path user (splitPath (path param))
                   ≫= typed_value (defaultValue param))).

(** A node through which [setJsonValue] can pass: null or an object. *)
Definition passable (j : json) : Prop :=
  j = JNull ∨ is_object j = true.

(** What [buildDefaultConfig] has established after the parameters [done]:
    each default is at its path, and every other node is null or an object
    unless it lies at or below one of the paths. *)
Definition defaults_built (done : list ConfigParam) (config : json) : Prop :=
  (∀ param, param ∈ done →
     get_path config (splitPath (path param))
     = json_of_any (defaultValue param)) ∧
  (∀ r x, get_path config r = Some x →
     passable x ∨
     ∃ param, param ∈ done ∧ splitPath (path param) `prefix_of` r).

(** *** The expansion of the user's object, by what it is to contain *)

(** What a value given at the top level of the user's object is taken as:
    a null is no value, an integer is read as an [int], every other value
    is taken as it is. *)
Definition as_given (v : json) : option json :=
  match v with
  | JNull => None
  | JInt n => Some (JInt (int_wrap n))
  | _ => Some v
  end.

(** A user's object in which every key has a component and no key leads
    through another: the dotted path of no key is a prefix of that of
    another key. *)
Definition unambiguous (m : gmap string json) : Prop :=
  (∀ key, is_Some (m !! key) → splitPath key ≠ []) ∧
  ∀ key1 key2, is_Some (m !! key1) → is_Some (m !! key2) → key1 ≠ key2 →
    ¬ splitPath key1 `prefix_of` splitPath key2.

(** The nested configuration that the user's object [m] with its dotted
    keys stands for: at and below the dotted path of every key is what was
    given under the key, on the way to it are objects, and nothing else is
    there. *)
Definition expands_to (m : gmap string json) (user : json) : Prop :=
  passable user ∧ user ≠ JObject ∅ ∧
  (∀ key v Q, m !! key = Some v →
     get_path user (splitPath key ++ Q) = as_given v ≫= λ g, get_path g Q) ∧
  (∀ key P, is_Some (m !! key) → P ≠ [] →
     P `prefix_of` splitPath key → P ≠ splitPath key →
     ∃ o, get_path user P = Some (JObject o)) ∧
  (∀ P x, P ≠ [] → get_path user P = Some x →
     ∃ key, is_Some (m !! key) ∧
            (splitPath key `prefix_of` P ∨ P `prefix_of` splitPath key)).

(** The same of the members [done] that the loop of [processUserConfig]
    has seen, with what the loop keeps at the top level: plain keys, and
    values that [json_to_any] hands on as they are. *)
Definition members_expanded (done : list (string * json)) (user : json)
    : Prop :=
  passable user ∧ user ≠ JObject ∅ ∧
  (∀ key v Q, (key, v) ∈ done →
     get_path user (splitPath key ++ Q) = as_given v ≫= λ g, get_path g Q) ∧
  (∀ key v P, (key, v) ∈ done → P ≠ [] →
     P `prefix_of` splitPath key → P ≠ splitPath key →
     ∃ o, get_path user P = Some (JObject o)) ∧
  (∀ P x, P ≠ [] → get_path user P = Some x →
     ∃ key v, (key, v) ∈ done ∧
              (splitPath key `prefix_of` P ∨ P `prefix_of` splitPath key)) ∧
  (∀ k x, member user k = Some x → plain_key k ∧ as_given x = Some x).

(** *** Options by their first component *)

(** The options of a configuration object under the first component [c],
    and the others. *)
Definition options_under (c : string) (m : gmap string json)
    : gmap string json :=
  filter (λ e, first_key e.1 = Some c) m.

Definition options_outside (c : string) (m : gmap string json)
    : gmap string json :=
  filter (λ e, first_key e.1 ≠ Some c) m.

(** Two configurations, each null or an object, with the same members
    outside [c]. *)
Definition agree_off (c : string) (s1 s2 : json) : Prop :=
  passable s1 ∧ passable s2 ∧ ∀ k, k ≠ c → member s1 k = member s2 k.

(** The calls that [operator()] is to make for an event whose layers can
    all be inspected: the method of every enabled layer that is present,
    in the order of the source. *)
Definition routed_calls (self : DataWriter) (event : ArrayEvent)
    : list writer_call :=
  let one (cond : bool) (c : writer_call) := if cond then [c] else [] in
  [unique_write_method] ++
  one (write_simulation_shower_enabled self && has_value (simulation event))
      write_simulation_shower ++
  one (write_simulated_camera_enabled self &&
       match simulation event with
       | Some sim => bool_decide (0 < size (sim_tels sim))%nat
       | None => false
       end)
      (write_simulated_camera (write_simulated_camera_image_enabled self)) ++
  one (write_r0_enabled self && has_value (r0 event)) write_r0 ++
  one (write_r1_enabled self && has_value (r1 event)) write_r1 ++
  one (write_dl0_enabled self && has_value (dl0 event)) write_dl0 ++
  one (write_dl1_enabled self && has_value (dl1 event))
      (write_dl1 (write_dl1_image_enabled self)) ++
  one (write_dl2_enabled self && has_value (dl2 event)) write_dl2 ++
  one (write_monitor_enabled self && has_value (monitor event))
      write_monitor ++
  one (write_pointing_enabled self && has_value (pointing event))
      write_pointing.

(** *** Further notions for the configuration system *)

(** A path made of dots only (the empty path among them). *)
Fixpoint all_dots (s : string) : bool :=
  match s with
  | EmptyString => true
  | String c rest => Ascii.eqb c "."%char && all_dots rest
  end.


(** A JSON value on which [operator[]] with a key throws: neither null nor
    an object. *)
Definition is_scalar_or_array (j : json) : bool :=
  match j with JNull | JObject _ => false | _ => true end.

(** *** Construction from a string *)

Section FromString.
(** [json::parse]: the value, or the message of the [parse_error]. *)
Variable parse : string → json + string.

(** [Configurable::from_string]: the [userConfig] it leaves and the strings
    the callback was called with.  [call_back] tells whether a callback
    was given; the callback is taken to return. *)
Definition from_string (config_str : string) (call_back : bool)
    : outcome (json * list string) :=
  match parse config_str with
  | inl j => Returns (j, [])
  | inr what =>
      if call_back then Returns (JNull, [config_str])
      else Fails (runtime_error ("JSON parse error: " +:+ what))
  end.

(** The constructors [ClassType(config_str)] and
    [ClassType(config_str, callback)] of [CONFIG_CONSTRUCTORS] up to
    [setUp]: the values passed to the setters, [currentConfig] and the
    strings handed to the callback. *)
Definition construct_from_string (params : list ConfigParam)
    (config_str : string) (call_back : bool)
    : outcome (list any * json * list string) :=
  '(userConfig, told) ← from_string config_str call_back;
  '(values, config) ← initialize params userConfig;
  Returns (values, config, told).
End FromString.


(** A parser that knows the empty object only, for the examples. *)
Definition demo_parse (s : string) : json + string :=
  if decide (s = "{}") then inl (JObject ∅) else inr "syntax error"%string.


(** *** Further notions for the command line program *)

(** The number of commas in a string. *)
Fixpoint commas (s : string) : nat :=
  match s with
  | EmptyString => 0
  | String a s' => (if Ascii.eqb a ","%char then 1 else 0) + commas s'
  end.

(** [config["shower_processor"]["HillasReconstructor"]["ImageQuery"] = q]
    on [nlohmann::json]: each [operator[]] turns a null node into an object,
    inserts a missing key and throws [type_error] 305 on any other value
    that is not an object, which is the navigation of [setJsonValue];
    [None] when it throws. *)
Definition set_image_query_json (config : json) (query : string)
    : option json :=
  match set_at config ["shower_processor"; "HillasReconstructor";
                       "ImageQuery"]%string (any_string query) with
  | Returns config' => Some config'
  | Fails _ => None
  end.

(** A simulated event with one telescope in every layer that the default
    flags write. *)
Definition simulated_event : ArrayEvent :=
  {| event_id := 7; run_id := 1;
     simulation := Some {| shower_energy := 1; sim_tels := {[ 1 := [3] ]} |};
     r0 := None; r1 := None; dl0 := None;
     dl1 := Some {| tels := {[ 1 := [10%Q; 0%Q] ]} |};
     dl2 := Some {| tels := ∅ |}; monitor := None; pointing := None |}.


(** ** Table lookup and cubic splines ([rpolator.c]) *)

(** An [int] expression: signed overflow is undefined. *)
Definition c_int (z : Z) : outcome Z :=
  if bool_decide (- 2 ^ 31 ≤ z < 2 ^ 31) then Returns z
  else Fails (undefined_behaviour "signed integer overflow").

(** [v[k]] for a table held in an array of [length v] elements. *)
Definition elem {A} (v : list A) (k : Z) : outcome A :=
  if bool_decide (0 ≤ k) then
    match v !! Z.to_nat k with
    | Some a => Returns a
    | None => Fails (undefined_behaviour "read outside the array")
    end
  else Fails (undefined_behaviour "read outside the array").

Module cubic_params.
(** [struct cubic_params] *)
Record t {double : Type} : Type := { a : double; b : double; c : double; d : double }.
Arguments t : clear implicits.
End cubic_params.

Section Rpolator.
(** The type [double] with its comparisons and its arithmetic, of which
    nothing is assumed: [flt a b] is [a < b] and [b > a], [fle a b] is
    [a <= b] and [b >= a], [feq a b] is [a == b]. *)
Context {double : Type}.
Variables flt fle feq : double → double → bool.
Variables fadd fsub fmul fdiv : double → double → double.
(** The constants [0.], [1.] and [0.5]. *)
Variables zero one half : double.
(** [(int) x]: undefined when the truncated value is no [int]. *)
Variable to_int : double → option Z.

(** The [for] loop of [interp], with [i] iterations left; [None] when it
    runs to its end ("Interpolation error."), [ipl] and [rpl] being left
    as they were. *)
Fixpoint interp_loop (i : nat) (x : double) (v : list double)
    (n lm l m : Z) : outcome (option (Z * double)) :=
  match i with
  | O => Returns None
  | S i' =>
      let j := l in
      let j := if bool_decide (j < 1) then 1 else j in
      let j := if bool_decide (j > n - 1) then n - 1 else j in
      lower ← elem v (j + lm - 1);
      inside ← (if fle lower x
                then upper ← elem v (j - lm); Returns (fle x upper)
                else Returns false);
      if inside : bool then
        vj ← elem v j;
        vj1 ← elem v (j - 1);
        Returns (Some (j, if negb (feq vj vj1)
                          then fdiv (fsub x vj1) (fsub vj vj1)
                          else half))
      else
        m1 ← c_int (m + 1);
        let m := m1 `quot` 2 in
        vj1 ← elem v (j - 1);
        l ← (if flt vj1 x then c_int (l + (1 - 2 * lm) * m)
             else c_int (l - (1 - 2 * lm) * m));
        interp_loop i' x v n lm l m
  end.

(** [interp]: [Some (ipl, rpl)] as assigned; [None] when nothing is
    assigned. *)
Definition interp (x : double) (v : list double) (n : Z)
    : outcome (option (Z * double)) :=
  let start (lm : Z) :=
    n1 ← c_int (n + 1);
    interp_loop 30 x v n lm (n1 `quot` 2 - 1) (n1 `quot` 2) in
  v0 ← elem v 0;
  vn ← elem v (n - 1);
  if flt v0 vn then
    if fle x v0 then Returns (Some (1, zero))
    else if fle vn x then Returns (Some (n - 1, one))
    else start 0
  else
    if fle v0 x then Returns (Some (1, zero))
    else if fle x vn then Returns (Some (n - 1, one))
    else start 1.

(** [csx] *)
Definition csx (r : double) (cp : cubic_params.t double) : double :=
  fadd (fmul (fadd (fmul (fadd (fmul (cubic_params.d cp) r)
                                (cubic_params.c cp)) r)
                   (cubic_params.b cp)) r)
       (cubic_params.a cp).

(** [rpol_cspline]; [csp] is [None] for the null pointer, [eq] and [clip]
    tell whether the [int] is non-zero. *)
Definition rpol_cspline (x y : list double)
    (csp : option (list (cubic_params.t double))) (n : Z) (xp : double)
    (eq clip : bool) : outcome double :=
  match csp with
  | Some csp =>
      if bool_decide (n < 4) then Returns zero
      else
        x1 ← elem x 1;
        x0 ← elem x 0;
        if fle x1 x0 then Returns zero
        else if flt xp x0 then
          if clip then Returns zero else elem y 0
        else
          xn ← elem x (n - 1);
          if flt xn xp then
            if clip then Returns zero else elem y (n - 1)
          else
            ipl ← (if eq then
                     let dxi := fdiv one (fsub x1 x0) in
                     match to_int (fmul (fsub xp x0) dxi) with
                     | Some k =>
                         ipl ← c_int (k + 1);
                         Returns (if bool_decide (ipl > n - 1) then n - 1
                                  else ipl)
                     | None =>
                         Fails (undefined_behaviour "double to int out of range")
                     end
                   else
                     found ← interp xp x n;
                     Returns (match found with
                              | Some (ipl, _) => ipl
                              | None => 1
                              end));
            if bool_decide (ipl > n - 1) then elem y (n - 1)
            else if bool_decide (ipl < 1) then elem y 0
            else
              xi ← elem x (ipl - 1);
              cp ← elem csp (ipl - 1);
              Returns (csx (fsub xp xi) cp)
  | None => Returns zero
  end.

(** The comparisons order the values: none of them is a NaN. *)
Definition ordered (values : list double) : Prop :=
  (∀ a b, a ∈ values → b ∈ values → fle a b = true ∨ fle b a = true) ∧
  (∀ a b, a ∈ values → b ∈ values → flt a b = negb (fle b a)) ∧
  (∀ a b c, a ∈ values → b ∈ values → c ∈ values →
     fle a b = true → fle b c = true → fle a c = true).

(** The table does not descend. *)
Definition ascending (v : list double) : Prop :=
  ∀ (i j : nat) a b, v !! i = Some a → v !! j = Some b → (i ≤ j)%nat →
    fle a b = true.

(** [x] lies in the interval that ends at the point [ipl] of the table. *)
Definition brackets (v : list double) (x : double) (ipl : Z) : Prop :=
  1 ≤ ipl ∧
  ∃ a b, v !! Z.to_nat (ipl - 1) = Some a ∧ v !! Z.to_nat ipl = Some b ∧
         fle a x = true ∧ fle x b = true.
End Rpolator.


(** A table of five points with its values and the parameters of four
    straight pieces, for the examples. *)
Definition demo_table : list Q := [0; 1; 2; 4; 8]%Q.
Definition demo_values : list Q := [5; 6; 7; 9; 13]%Q.
Definition demo_params : list (cubic_params.t Q) :=
  map (λ y : Q, {| cubic_params.a := y; cubic_params.b := 1%Q;
                   cubic_params.c := 0%Q; cubic_params.d := 0%Q |})
      [5; 6; 7; 9]%Q.


(** ** Cubic spline parameters ([set_1d_cubic_params]) *)

Module cubic.
Section Arrays.
(** The arrays of [set_1d_cubic_params] as functions of the index, for
    [n] supporting points [x] with values [y]; [three] and [two] are the
    constants [3.] and [2.]. *)
Context {double : Type}.
Variables fadd fsub fmul fdiv : double → double → double.
Variables zero one half two three : double.
Variables (x y : nat → double) (n : nat) (clamped : bool).

Definition deriv_left : double := zero.
Definition deriv_right : double := zero.

(** [a[i] = y[i]] *)
Definition a (i : nat) : double := y i.

(** [h[i] = x[i+1] - x[i]] *)
Definition h (i : nat) : double := fsub (x (i + 1)) (x i).

(** [A[0]] and [A[n-1]] are 0 unless clamped; the loop assigns the
    entries from 1 to [n-2]. *)
Definition A (i : nat) : double :=
  if (i =? 0)%nat then
    if clamped
    then fsub (fdiv (fmul three (fsub (a 1) (a 0))) (h 0))
              (fmul three deriv_left)
    else zero
  else if (i =? n - 1)%nat then
    if clamped
    then fsub (fmul three deriv_right)
              (fdiv (fmul three (fsub (a (n - 1)) (a (n - 2)))) (h (n - 2)))
    else zero
  else
    fsub (fdiv (fmul three (fsub (a (i + 1)) (a i))) (h i))
         (fdiv (fmul three (fsub (a i) (a (i - 1)))) (h (i - 1))).

(** [(l[i], M[i], z[i])] for [i] up to [n-2] *)
Fixpoint lMz (i : nat) : double * double * double :=
  match i with
  | O =>
      if clamped
      then (fmul two (h 0), half, fdiv (A 0) (fmul two (h 0)))
      else (one, zero, zero)
  | S i' =>
      let '(_, M', z') := lMz i' in
      let l := fsub (fmul two (fsub (x (i + 1)) (x (i - 1))))
                    (fmul (h (i - 1)) M') in
      (l, fdiv (h i) l, fdiv (fsub (A i) (fmul (h (i - 1)) z')) l)
  end.

Definition l (i : nat) : double := (lMz i).1.1.
Definition M (i : nat) : double := (lMz i).1.2.
Definition z (i : nat) : double := (lMz i).2.

(** [c[n-1-k]], from [c[n-1]] downwards *)
Fixpoint c_down (k : nat) : double :=
  match k with
  | O =>
      if clamped
      then fdiv (fsub (A (n - 1)) (fmul (h (n - 2)) (z (n - 2))))
                (fmul (h (n - 2)) (fsub two (M (n - 2))))
      else zero
  | S k' => let j := (n - 1 - k)%nat in
            fsub (z j) (fmul (M j) (c_down k'))
  end.

Definition c (j : nat) : double := c_down (n - 1 - j).

Definition b (j : nat) : double :=
  fsub (fdiv (fsub (a (j + 1)) (a j)) (h j))
       (fdiv (fmul (h j) (fadd (c (j + 1)) (fmul two (c j)))) three).

Definition d (j : nat) : double :=
  fdiv (fsub (c (j + 1)) (c j)) (fmul three (h j)).
End Arrays.
End cubic.

Section CubicParams.
Context {double : Type}.
Variable fle : double → double → bool.
Variables fadd fsub fmul fdiv : double → double → double.
Variables zero one half two three : double.

(** The loop over the supporting points, from [i] on for [count] steps:
    [false] at the first [x[i+1] <= x[i]]. *)
Fixpoint strictly_ascending (x : list double) (i : Z) (count : nat)
    : outcome bool :=
  match count with
  | O => Returns true
  | S count' =>
      next ← elem x (i + 1);
      this ← elem x i;
      if fle next this then Returns false
      else strictly_ascending x (i + 1) count'
  end.

(** [set_1d_cubic_params]: [None] for the null pointer; the [n] entries
    that [calloc] provides otherwise, of which the last stays zero. *)
Definition set_1d_cubic_params (x y : list double) (n : Z) (clamped : bool)
    : outcome (option (list (cubic_params.t double))) :=
  if bool_decide (n < 4) then Returns None
  else
    ok ← strictly_ascending x 0 (Z.to_nat (n - 1));
    if ok : bool then
      a ← mapM (elem y) (map Z.of_nat (seq 0 (Z.to_nat n)));
      let X i := default zero (x !! i) in
      let Y i := default zero (a !! i) in
      let N := Z.to_nat n in
      Returns (Some (
        map (λ i, {| cubic_params.a := cubic.a Y i;
                     cubic_params.b :=
                       cubic.b fadd fsub fmul fdiv zero one half two three
                         X Y N clamped i;
                     cubic_params.c :=
                       cubic.c fsub fmul fdiv zero one half two three
                         X Y N clamped i;
                     cubic_params.d :=
                       cubic.d fsub fmul fdiv zero one half two three
                         X Y N clamped i |})
            (seq 0 (N - 1))
        ++ [ {| cubic_params.a := zero; cubic_params.b := zero;
                cubic_params.c := zero; cubic_params.d := zero |} ]))
    else Returns None.
End CubicParams.

(** *** The spline in exact arithmetic *)

(** The first and second derivative of the polynomial of an interval at
    the distance [r] from its left end, in exact arithmetic. *)
Definition slope (p : cubic_params.t Q) (r : Q) : Q :=
  (cubic_params.b p + 2 * cubic_params.c p * r
   + 3 * cubic_params.d p * r * r)%Q.

Definition bend (p : cubic_params.t Q) (r : Q) : Q :=
  (2 * cubic_params.c p + 6 * cubic_params.d p * r)%Q.

(** The supporting points strictly ascend. *)
Definition strictly_rising (xs : list Q) : Prop :=
  ∀ (i : nat) this next,
    xs !! i = Some this → xs !! (i + 1)%nat = Some next → (this < next)%Q.

(* ================================================================== *)
(** * Part II: properties                                              *)
(* ================================================================== *)

(** ** Integer arithmetic *)

Lemma int_wrap_small z : - 2 ^ 31 ≤ z < 2 ^ 31 → int_wrap z = z.
Proof.
  intros Hz. unfold int_wrap. rewrite Z.mod_small; lia.
Qed.

(** ** Matrix-vector products count neighbours *)

Lemma hits_elem j k row v :
  j ∈ hits k row v ↔
  (k ≤ j)%nat ∧ row !! (j - k)%nat = Some 1 ∧ v !! (j - k)%nat = Some true.
Proof.
  revert k v. induction row as [|x row IH]; intros k [|b v]; simpl.
  - rewrite elem_of_nil. naive_solver.
  - rewrite elem_of_nil. naive_solver.
  - rewrite elem_of_nil. naive_solver.
  - rewrite elem_of_app, IH. split.
    + intros [Hhd | (Hk & Hr & Hv)].
      * case_decide as Hd; [|by apply elem_of_nil in Hhd].
        apply list_elem_of_singleton in Hhd as ->. destruct Hd as [-> ->].
        rewrite Nat.sub_diag. done.
      * replace (j - k)%nat with (S (j - S k)) by lia. split; [lia | done].
    + intros (Hk & Hr & Hv).
      destruct (decide (j = k)) as [-> | Hne].
      * left. rewrite Nat.sub_diag in Hr, Hv. simpl in Hr, Hv.
        rewrite decide_True by naive_solver. by apply list_elem_of_singleton.
      * right. replace (j - k)%nat with (S (j - S k)) in Hr, Hv by lia.
        split; [lia | done].
Qed.

Lemma hits_NoDup k row v : NoDup (hits k row v).
Proof.
  revert k v. induction row as [|x row IH]; intros k [|b v]; simpl;
    try apply NoDup_nil_2.
  case_decide; simpl; [|apply IH].
  apply NoDup_cons_2; [|apply IH].
  rewrite hits_elem. lia.
Qed.

Lemma hits_length_le k row v : (length (hits k row v) ≤ length row)%nat.
Proof.
  revert k v. induction row as [|x row IH]; intros k [|b v]; simpl; try lia.
  specialize (IH (S k) v). case_decide; simpl; lia.
Qed.

Lemma fold_row_hits row v acc k :
  Forall (λ x, x = 0 ∨ x = 1) row →
  0 ≤ acc → acc + Z.of_nat (length row) < 2 ^ 31 →
  fold_left (λ a p, int_add a (int_mul p.1 p.2)) (zip row (cast_int v)) acc
  = acc + Z.of_nat (length (hits k row v)).
Proof.
  revert v acc k. induction row as [|x row IH]; intros [|b v] acc k Hrow Hacc Hlen;
    simpl in *; try lia.
  apply Forall_cons in Hrow as [Hx Hrow].
  assert (Hmul : int_mul x (if b then 1 else 0)
                 = if decide (x = 1 ∧ b = true) then 1 else 0).
  { unfold int_mul. destruct Hx as [-> | ->], b; simpl;
      rewrite ?int_wrap_small by lia;
      repeat case_decide; naive_solver. }
  rewrite Hmul.
  assert (Hadd : int_add acc (if decide (x = 1 ∧ b = true) then 1 else 0)
                 = acc + (if decide (x = 1 ∧ b = true) then 1 else 0)).
  { unfold int_add. apply int_wrap_small. case_decide; lia. }
  rewrite Hadd, (IH v _ (S k)); [| done | case_decide; lia | case_decide; lia].
  case_decide; simpl; rewrite ?length_app; simpl; lia.
Qed.

Lemma row_times_hits row v :
  Forall (λ x, x = 0 ∨ x = 1) row →
  Z.of_nat (length row) < 2 ^ 31 →
  row_times row (cast_int v) = Z.of_nat (length (hits 0 row v)).
Proof.
  intros Hrow Hlen. unfold row_times.
  rewrite (fold_row_hits row v 0 0%nat) by (done || lia). lia.
Qed.

Lemma mask_set_elem mask i : i ∈ mask_set mask ↔ mask !! i = Some true.
Proof.
  unfold mask_set. rewrite elem_of_filter, elem_of_set_seq. split.
  - by intros [? _].
  - intros Hi. split; [done|]. apply lookup_lt_Some in Hi. lia.
Qed.

Lemma N_elem cam i j :
  j ∈ N cam i ↔ (j < num_pixels cam)%nat ∧ adjacent cam i j.
Proof.
  unfold N, pixels. rewrite elem_of_filter, elem_of_set_seq. naive_solver lia.
Qed.

Lemma N_inter_mask_hits cam i row v :
  neigh_matrix cam !! i = Some row →
  length row = num_pixels cam →
  N cam i ∩ mask_set v = list_to_set (hits 0 row v).
Proof.
  intros Hrow Hlen. apply set_eq. intros j.
  rewrite elem_of_intersection, N_elem, mask_set_elem, elem_of_list_to_set,
    hits_elem, Nat.sub_0_r.
  unfold adjacent. rewrite Hrow. simpl. split.
  - intros [[_ ?] ?]. split; [lia | done].
  - intros (_ & Hj & ?). split; [|done]. split; [|done].
    apply lookup_lt_Some in Hj. lia.
Qed.

Lemma wf_camera_row cam i row :
  wf_camera cam → neigh_matrix cam !! i = Some row →
  length row = num_pixels cam ∧ Forall (λ x, x = 0 ∨ x = 1) row.
Proof.
  intros (_ & _ & Hall) Hrow.
  rewrite Forall_lookup in Hall. by apply (Hall i row).
Qed.

(** Entry [i] of [neigh_matrix * mask.cast<int>()] is [|N(i) ∩ mask|]. *)
Lemma mat_vec_count cam v i :
  wf_camera cam → (i < num_pixels cam)%nat →
  mat_vec (neigh_matrix cam) (cast_int v) !! i
  = Some (Z.of_nat (size (N cam i ∩ mask_set v))).
Proof.
  intros Hwf Hi. unfold mat_vec. rewrite list_lookup_fmap.
  destruct (neigh_matrix cam !! i) as [row|] eqn:Hrow.
  - destruct (wf_camera_row cam i row Hwf Hrow) as [Hlen H01].
    simpl. f_equal.
    rewrite (N_inter_mask_hits cam i row v Hrow Hlen).
    rewrite size_list_to_set by apply hits_NoDup.
    apply row_times_hits; [done|]. destruct Hwf as [Hn _]. lia.
  - apply lookup_ge_None in Hrow. destruct Hwf as (_ & HM & _). lia.
Qed.

Lemma mat_vec_length m v : length (mat_vec m v) = length m.
Proof. unfold mat_vec. apply length_map. Qed.

(** ** Masks as sets *)

Lemma mask_set_array_and a b :
  mask_set (array_and a b) = mask_set a ∩ mask_set b.
Proof.
  apply set_eq. intros i.
  rewrite elem_of_intersection, !mask_set_elem. unfold array_and.
  rewrite lookup_zip_with.
  destruct (a !! i) as [[]|], (b !! i) as [[]|]; simpl; naive_solver.
Qed.

Lemma mask_set_array_or a b :
  length a = length b →
  mask_set (array_or a b) = mask_set a ∪ mask_set b.
Proof.
  intros Hlen. apply set_eq. intros i.
  rewrite elem_of_union, !mask_set_elem. unfold array_or.
  rewrite lookup_zip_with.
  destruct (a !! i) as [x|] eqn:Ha, (b !! i) as [y|] eqn:Hb; simpl.
  - destruct x, y; naive_solver.
  - apply lookup_lt_Some in Ha. apply lookup_ge_None in Hb. lia.
  - apply lookup_ge_None in Ha. apply lookup_lt_Some in Hb. lia.
  - naive_solver.
Qed.

Lemma array_and_length a b :
  length a = length b → length (array_and a b) = length a.
Proof. intros H. unfold array_and. rewrite length_zip_with. lia. Qed.

Lemma array_or_length a b :
  length a = length b → length (array_or a b) = length a.
Proof. intros H. unfold array_or. rewrite length_zip_with. lia. Qed.

Lemma array_gt0_length v : length (array_gt0 v) = length v.
Proof. apply length_map. Qed.

Lemma array_ge_int_length v k : length (array_ge_int v k) = length v.
Proof. apply length_map. Qed.

Lemma cast_int_length v : length (cast_int v) = length v.
Proof. apply length_map. Qed.

Lemma neighbors_of_elem cam S i :
  i ∈ neighbors_of cam S ↔
  (i < num_pixels cam)%nat ∧ (0 < size (N cam i ∩ S))%nat.
Proof.
  unfold neighbors_of, pixels.
  rewrite elem_of_filter, elem_of_set_seq. naive_solver lia.
Qed.

(** [(neigh_matrix * mask.cast<int>()).array() > 0] is [neighbors_of(mask)]. *)
Lemma mask_set_has_neighbor cam v :
  wf_camera cam →
  mask_set (array_gt0 (mat_vec (neigh_matrix cam) (cast_int v)))
  = neighbors_of cam (mask_set v).
Proof.
  intros Hwf. apply set_eq. intros i.
  rewrite mask_set_elem, neighbors_of_elem. unfold array_gt0.
  rewrite list_lookup_fmap.
  destruct (decide (i < num_pixels cam)%nat) as [Hi | Hi].
  - rewrite (mat_vec_count cam v i Hwf Hi). simpl.
    split.
    + intros [= H]. apply Z.ltb_lt in H. split; [done | lia].
    + intros [_ H]. f_equal. apply Z.ltb_lt. lia.
  - rewrite (proj2 (lookup_ge_None _ i)).
    + naive_solver.
    + rewrite mat_vec_length. destruct Hwf as (_ & -> & _). lia.
Qed.

(** [(neigh_matrix * mask.cast<int>()).array() >= k] selects the pixels
    with at least [k] neighbours in the mask. *)
Lemma mask_set_enough_neighbors cam v k i :
  wf_camera cam →
  i ∈ mask_set (array_ge_int (mat_vec (neigh_matrix cam) (cast_int v)) k) ↔
  (i < num_pixels cam)%nat ∧ k ≤ Z.of_nat (size (N cam i ∩ mask_set v)).
Proof.
  intros Hwf. rewrite mask_set_elem. unfold array_ge_int.
  rewrite list_lookup_fmap.
  destruct (decide (i < num_pixels cam)%nat) as [Hi | Hi].
  - rewrite (mat_vec_count cam v i Hwf Hi). simpl.
    split.
    + intros [= H]. apply Z.leb_le in H. done.
    + intros [_ H]. f_equal. by apply Z.leb_le.
  - rewrite (proj2 (lookup_ge_None _ i)).
    + naive_solver.
    + rewrite mat_vec_length. destruct Hwf as (_ & -> & _). lia.
Qed.

Lemma positive_size_exists (X : gset nat) :
  (0 < size X)%nat ↔ ∃ x, x ∈ X.
Proof.
  split; [apply size_pos_elem_of|].
  intros [x Hx]. destruct (decide (size X = 0%nat)) as [H0 | H0]; [|lia].
  apply size_empty_inv in H0. set_solver.
Qed.

(** A pixel is in [neighbors_of(S)] iff the matrix makes it adjacent to a
    pixel of [S]. *)
Lemma neighbors_of_adjacent cam S i :
  i ∈ neighbors_of cam S ↔
  (i < num_pixels cam)%nat ∧ ∃ j, adjacent cam i j ∧ j ∈ S ∧ (j < num_pixels cam)%nat.
Proof.
  rewrite neighbors_of_elem, positive_size_exists.
  setoid_rewrite elem_of_intersection. setoid_rewrite N_elem. naive_solver.
Qed.

Section CleaningProperties.
Context {pixel : Type} (geb : pixel → pixel → bool).

Lemma array_ge_length (image : list pixel) t :
  length (array_ge geb image t) = length image.
Proof. apply length_map. Qed.

Lemma above_elem cam (image : list pixel) t i :
  i ∈ above geb cam image t ↔
  (i < num_pixels cam)%nat ∧ at_least geb image t i.
Proof.
  unfold above, pixels. rewrite elem_of_filter, elem_of_set_seq.
  naive_solver lia.
Qed.

(** [image.array() >= thresh] is the set [{i : image[i] >= thresh}]. *)
Lemma mask_set_array_ge cam (image : list pixel) t :
  length image = num_pixels cam →
  mask_set (array_ge geb image t) = above geb cam image t.
Proof.
  intros Hlen. apply set_eq. intros i.
  rewrite mask_set_elem, above_elem. unfold array_ge, at_least.
  rewrite list_lookup_fmap. split; [|naive_solver].
  intros H. split; [|done].
  destruct (image !! i) eqn:Hi; [|done]. apply lookup_lt_Some in Hi. lia.
Qed.

(** The code's [pixel_in_picture] is the specification's [P']. *)
Lemma pixel_in_picture_spec cam (image : list pixel) pt keep minn :
  wf_camera cam → length image = num_pixels cam →
  mask_set
    (if keep || (minn =? 0) then array_ge geb image pt
     else array_and (array_ge geb image pt)
            (array_ge_int (mat_vec (neigh_matrix cam)
                                   (cast_int (array_ge geb image pt))) minn))
  = spec_picture geb cam image pt keep minn.
Proof.
  intros Hwf Hlen. unfold spec_picture.
  destruct (keep || (minn =? 0)); [by apply mask_set_array_ge|].
  apply set_eq. intros i.
  rewrite mask_set_array_and, elem_of_intersection, elem_of_filter.
  rewrite mask_set_enough_neighbors by done.
  rewrite (mask_set_array_ge cam) by done.
  rewrite above_elem. naive_solver.
Qed.

Lemma pixel_in_picture_length cam (image : list pixel) pt keep minn :
  wf_camera cam → length image = num_pixels cam →
  length
    (if keep || (minn =? 0) then array_ge geb image pt
     else array_and (array_ge geb image pt)
            (array_ge_int (mat_vec (neigh_matrix cam)
                                   (cast_int (array_ge geb image pt))) minn))
  = num_pixels cam.
Proof.
  intros (_ & HM & _) Hlen.
  destruct (keep || (minn =? 0)); [by rewrite array_ge_length|].
  rewrite array_and_length; rewrite ?array_ge_int_length, ?mat_vec_length,
    ?array_ge_length; lia.
Qed.

(** The mask of [tailcuts_clean], read as a set. *)
Lemma tailcuts_clean_mask_set cam (image : list pixel)
    picture_thresh boundary_thresh keep_isolated_pixels
    min_number_picture_neighbors :
  wf_camera cam → length image = num_pixels cam →
  length (tailcuts_clean geb cam image picture_thresh boundary_thresh
            keep_isolated_pixels min_number_picture_neighbors)
  = num_pixels cam ∧
  mask_set (tailcuts_clean geb cam image picture_thresh boundary_thresh
              keep_isolated_pixels min_number_picture_neighbors)
  = spec_tailcuts geb cam image picture_thresh boundary_thresh
      keep_isolated_pixels min_number_picture_neighbors.
Proof.
  intros Hwf Hlen.
  pose proof (pixel_in_picture_spec cam image picture_thresh
                keep_isolated_pixels min_number_picture_neighbors Hwf Hlen)
    as HP.
  pose proof (pixel_in_picture_length cam image picture_thresh
                keep_isolated_pixels min_number_picture_neighbors Hwf Hlen)
    as HPlen.
  assert (HM : length (neigh_matrix cam) = num_pixels cam) by apply Hwf.
  unfold tailcuts_clean, spec_tailcuts.
  set (pip := if keep_isolated_pixels || (min_number_picture_neighbors =? 0)
              then _ else _) in *.
  destruct keep_isolated_pixels.
  - split.
    + rewrite array_or_length; rewrite array_and_length;
        rewrite ?array_gt0_length, ?mat_vec_length, ?array_ge_length; lia.
    + rewrite mask_set_array_or, mask_set_array_and, mask_set_has_neighbor,
        (mask_set_array_ge cam), HP; [done ..|].
      rewrite array_and_length;
        rewrite ?array_gt0_length, ?mat_vec_length, ?array_ge_length; lia.
  - split.
    + rewrite array_or_length; rewrite !array_and_length;
        rewrite ?array_gt0_length, ?mat_vec_length, ?array_ge_length; lia.
    + rewrite mask_set_array_or, !mask_set_array_and, !mask_set_has_neighbor,
        !(mask_set_array_ge cam), HP; [done ..|].
      rewrite !array_and_length;
        rewrite ?array_gt0_length, ?mat_vec_length, ?array_ge_length; lia.
Qed.


(** C1.  For every well-formed camera and every image with one value per
    pixel, the mask that [TailcutsCleaner::tailcuts_clean] returns has one
    entry per pixel and selects exactly the set that the four steps of the
    specification describe: [(B ∩ neighbors_of(P')) ∪ P'] when
    [keep_isolated_pixels], [(B ∩ neighbors_of(P')) ∪ (P' ∩ neighbors_of(B))]
    otherwise.  It holds for all thresholds and neighbour numbers, so in
    particular for [picture_thresh >= boundary_thresh >= 0] and
    [min_number_picture_neighbors >= 0]. *)
Theorem tailcuts_clean_set_spec cam (image : list pixel)
    picture_thresh boundary_thresh keep_isolated_pixels
    min_number_picture_neighbors :
  wf_camera cam → length image = num_pixels cam →
  length (tailcuts_clean geb cam image picture_thresh boundary_thresh
            keep_isolated_pixels min_number_picture_neighbors)
  = num_pixels cam ∧
  mask_set (tailcuts_clean geb cam image picture_thresh boundary_thresh
              keep_isolated_pixels min_number_picture_neighbors)
  = spec_tailcuts geb cam image picture_thresh boundary_thresh
      keep_isolated_pixels min_number_picture_neighbors.
Proof. apply tailcuts_clean_mask_set. Qed.

Lemma spec_picture_above cam (image : list pixel) pt keep minn i :
  i ∈ spec_picture geb cam image pt keep minn →
  i ∈ above geb cam image pt ∧
  (keep = false →
   minn ≤ Z.of_nat (size (N cam i ∩ above geb cam image pt))).
Proof.
  unfold spec_picture. destruct keep; simpl.
  - intros Hi. split; [done | discriminate].
  - destruct (minn =? 0) eqn:H0.
    + apply Z.eqb_eq in H0. intros Hi. split; [done | lia].
    + rewrite elem_of_filter. naive_solver.
Qed.

(** C3, amended.  For every well-formed camera, image and parameters, every
    pixel of the mask returned by [tailcuts_clean] either (a) has
    [image[i] >= picture_thresh] and, unless [keep_isolated_pixels] is set,
    at least [min_number_picture_neighbors] neighbours at or above
    [picture_thresh], or (b) has [image[i] >= boundary_thresh] and is
    adjacent, per the neighbour matrix, to a picture pixel (a pixel of [P'],
    which is at or above [picture_thresh]).  The order of the two thresholds
    plays no role. *)
Theorem tailcuts_clean_invariant cam (image : list pixel)
    picture_thresh boundary_thresh keep_isolated_pixels
    min_number_picture_neighbors :
  wf_camera cam → length image = num_pixels cam →
  ∀ i, i ∈ mask_set (tailcuts_clean geb cam image picture_thresh
                       boundary_thresh keep_isolated_pixels
                       min_number_picture_neighbors) →
    (at_least geb image picture_thresh i ∧
     (keep_isolated_pixels = false →
      min_number_picture_neighbors
        ≤ Z.of_nat (size (N cam i ∩ above geb cam image picture_thresh))))
    ∨ (at_least geb image boundary_thresh i ∧
       ∃ j, adjacent cam i j ∧
            j ∈ spec_picture geb cam image picture_thresh
                  keep_isolated_pixels min_number_picture_neighbors ∧
            at_least geb image picture_thresh j).
Proof.
  intros Hwf Hlen i.
  destruct (tailcuts_clean_mask_set cam image picture_thresh boundary_thresh
              keep_isolated_pixels min_number_picture_neighbors Hwf Hlen)
    as [_ ->].
  unfold spec_tailcuts.
  assert (Hbnd : ∀ k, k ∈ above geb cam image boundary_thresh
                        ∩ neighbors_of cam
                            (spec_picture geb cam image picture_thresh
                               keep_isolated_pixels
                               min_number_picture_neighbors) →
            at_least geb image boundary_thresh k ∧
            ∃ j, adjacent cam k j ∧
                 j ∈ spec_picture geb cam image picture_thresh
                       keep_isolated_pixels min_number_picture_neighbors ∧
                 at_least geb image picture_thresh j).
  { intros k. rewrite elem_of_intersection, above_elem, neighbors_of_adjacent.
    intros [[_ Hb] (_ & j & Hadj & Hj & _)]. split; [done|].
    exists j. split; [done|]. split; [done|].
    apply spec_picture_above in Hj as [Hj _].
    by apply above_elem in Hj as [_ Hj]. }
  assert (Hpic : ∀ k, k ∈ spec_picture geb cam image picture_thresh
                        keep_isolated_pixels min_number_picture_neighbors →
            at_least geb image picture_thresh k ∧
            (keep_isolated_pixels = false →
             min_number_picture_neighbors
               ≤ Z.of_nat (size (N cam k
                                   ∩ above geb cam image picture_thresh)))).
  { intros k Hk. apply spec_picture_above in Hk as [Hk Hn].
    by apply above_elem in Hk as [_ Hk]. }
  destruct keep_isolated_pixels; rewrite elem_of_union.
  - intros [Hi | Hi]; [right; by apply Hbnd | left; by apply Hpic].
  - rewrite (elem_of_intersection (spec_picture _ _ _ _ _ _)).
    intros [Hi | [Hi _]]; [right; by apply Hbnd | left; by apply Hpic].
Qed.

End CleaningProperties.

(** ** [dilate] *)

(** C8.  For every well-formed camera and every mask with one entry per
    pixel, [dilate] returns a mask of the same length that selects
    [mask ∪ neighbors_of(mask)]: a pixel is set iff it was set or the
    adjacency matrix gives it a set neighbour; so the result contains the
    input mask. *)
Theorem dilate_union_neighbors cam mask :
  wf_camera cam → length mask = num_pixels cam →
  length (dilate cam mask) = num_pixels cam ∧
  mask_set (dilate cam mask) = mask_set mask ∪ neighbors_of cam (mask_set mask) ∧
  (∀ i, dilate cam mask !! i = Some true ↔
        mask !! i = Some true ∨
        ((i < num_pixels cam)%nat ∧
         ∃ j, adjacent cam i j ∧ mask !! j = Some true)) ∧
  mask_set mask ⊆ mask_set (dilate cam mask).
Proof.
  intros Hwf Hlen.
  assert (HM : length (neigh_matrix cam) = num_pixels cam) by apply Hwf.
  assert (Hset : mask_set (dilate cam mask)
                 = mask_set mask ∪ neighbors_of cam (mask_set mask)).
  { unfold dilate. rewrite mask_set_array_or, mask_set_has_neighbor; [done ..|].
    rewrite array_gt0_length, mat_vec_length. lia. }
  split; [|split; [done|split]].
  - unfold dilate. rewrite array_or_length; [done|].
    rewrite array_gt0_length, mat_vec_length. lia.
  - intros i. rewrite <- !mask_set_elem, Hset, elem_of_union,
      neighbors_of_adjacent.
    setoid_rewrite mask_set_elem. split.
    + intros [? | (? & j & ? & ? & ?)]; [by left | right; eauto].
    + intros [? | (? & j & ? & Hj)]; [by left | right].
      split; [done|]. exists j. split; [done|]. split; [done|].
      apply lookup_lt_Some in Hj. lia.
  - rewrite Hset. set_solver.
Qed.

(** ** The concrete scenarios *)

Lemma wf_square_camera_4x4 : wf_camera square_camera_4x4.
Proof.
  unfold wf_camera. split; [done|]. split; [done|].
  apply (bool_decide_unpack _). vm_compute. exact I.
Defined.

Lemma wf_test_camera_4x4 : wf_camera test_camera_4x4.
Proof.
  unfold wf_camera. split; [done|]. split; [done|].
  apply (bool_decide_unpack _). vm_compute. exact I.
Defined.

Lemma tailcuts_clean_set_spec_witness :
  wf_camera square_camera_4x4 ∧
  length (solo_image 16 5%Q 10 10%Q) = num_pixels square_camera_4x4 ∧
  length (tailcuts_clean Qgeb square_camera_4x4 (solo_image 16 5%Q 10 10%Q)
            8%Q 1%Q false 2) = num_pixels square_camera_4x4 ∧
  mask_set (tailcuts_clean Qgeb square_camera_4x4 (solo_image 16 5%Q 10 10%Q)
              8%Q 1%Q false 2)
  = spec_tailcuts Qgeb square_camera_4x4 (solo_image 16 5%Q 10 10%Q)
      8%Q 1%Q false 2.
Proof.
  split; [exact wf_square_camera_4x4|]. split; [reflexivity|].
  apply (tailcuts_clean_set_spec Qgeb square_camera_4x4
           (solo_image 16 5%Q 10 10%Q) 8%Q 1%Q false 2);
    [exact wf_square_camera_4x4 | reflexivity].
Defined.

Lemma dilate_union_neighbors_witness :
  let mask := tailcuts_clean Qgeb square_camera_4x4
                (solo_image 16 5%Q 10 10%Q) 8%Q 1%Q false 0 in
  wf_camera square_camera_4x4 ∧
  length mask = num_pixels square_camera_4x4 ∧
  mask_set mask ⊆ mask_set (dilate square_camera_4x4 mask).
Proof.
  split; [exact wf_square_camera_4x4|]. split; [reflexivity|].
  apply (dilate_union_neighbors square_camera_4x4);
    [exact wf_square_camera_4x4 | reflexivity].
Defined.

(** On the all-zero image with a single peak the neighbours of the peak are
    below the boundary threshold and the peak has no boundary neighbour:
    the mask is empty. *)
Lemma isolated_peak_zero_background :
  tailcuts_clean Qgeb square_camera_4x4 (solo_image 16 0%Q 10 10%Q)
    8%Q 1%Q false 0 = replicate 16 false.
Proof. vm_compute. reflexivity. Qed.

(** C2, counterexample: on the image of the specification (all zeros,
    [image[10] = 10]) the mask is not [{6, 9, 10, 11, 14}]. *)
Lemma isolated_peak_as_stated_fails : ¬ isolated_peak_as_stated.
Proof.
  unfold isolated_peak_as_stated. rewrite isolated_peak_zero_background.
  intros [H _]. vm_compute in H. discriminate H.
Qed.

(** C2, amended.  On the 4x4 camera (square pixels, or the pixel type of the
    repository's test), for the image that is 5 everywhere except
    [image[10] = 10], as in the test [SOLO_ABOVE_THRESHOLD], [tailcuts_clean]
    with thresholds 8 and 1, [keep_isolated_pixels = false] and no neighbour
    requirement returns exactly the pixels [{6, 9, 10, 11, 14}], five true
    entries; on the all-zero background the mask is empty. *)
Theorem isolated_peak_scenario :
  (let mask := tailcuts_clean Qgeb square_camera_4x4
                 (solo_image 16 5%Q 10 10%Q) 8%Q 1%Q false 0 in
   true_pixels mask = [6; 9; 10; 11; 14]%nat ∧ mask_sum mask = 5) ∧
  (let mask := tailcuts_clean Qgeb test_camera_4x4
                 (solo_image 16 5%Q 10 10%Q) 8%Q 1%Q false 0 in
   true_pixels mask = [6; 9; 10; 11; 14]%nat ∧ mask_sum mask = 5) ∧
  true_pixels (tailcuts_clean Qgeb square_camera_4x4
                 (solo_image 16 0%Q 10 10%Q) 8%Q 1%Q false 0) = [].
Proof.
  split; [|split].
  - vm_compute. split; reflexivity.
  - vm_compute. split; reflexivity.
  - rewrite isolated_peak_zero_background. reflexivity.
Qed.

(** The other checks of [TEST_TAILCUTS_CLEAN] in [test_image_processor.cpp],
    on the camera of the test. *)
Example test_tailcuts_clean :
  (* EMPTY_IMAGE *)
  true_pixels (tailcuts_clean Qgeb test_camera_4x4 (replicate 16 0%Q)
                 1%Q 1%Q false 0) = [] ∧
  (* CONSTANT_IMAGE *)
  mask_sum (tailcuts_clean Qgeb test_camera_4x4 (replicate 16 10%Q)
              1%Q 1%Q false 0) = 16 ∧
  (* KEEP_ISOLATED_PIXELS *)
  true_pixels (tailcuts_clean Qgeb test_camera_4x4
                 (<[0%nat := 10%Q]> (<[9%nat := 5%Q]> (<[6%nat := 5%Q]>
                    (solo_image 16 1%Q 10 10%Q))))
                 8%Q 2%Q true 0) = [0; 6; 9; 10]%nat ∧
  (* NO_KEEP_ISOLATED_PIXELS *)
  true_pixels (tailcuts_clean Qgeb test_camera_4x4
                 (<[0%nat := 10%Q]> (<[9%nat := 10%Q]> (<[6%nat := 10%Q]>
                    (solo_image 16 1%Q 10 10%Q))))
                 8%Q 2%Q false 2) = [6; 9; 10]%nat.
Proof. vm_compute. repeat split. Qed.

(** ** The neighbour requirement and [keep_isolated_pixels] *)

Lemma isolated_peak_kept :
  tailcuts_clean Qgeb square_camera_4x4 (solo_image 16 0%Q 10 10%Q)
    8%Q 1%Q true 2 !! 10%nat = Some true.
Proof. vm_compute. reflexivity. Qed.

(** C3, counterexample: with [keep_isolated_pixels] set and two picture
    neighbours required, the isolated peak at pixel 10 is in the mask, has
    no neighbour at or above the picture threshold, and so meets neither
    alternative of the invariant as stated. *)
Lemma tailcuts_invariant_as_stated_fails :
  Qgeb 8%Q 1%Q = true ∧
  ¬ tailcuts_invariant_as_stated Qgeb square_camera_4x4
      (solo_image 16 0%Q 10 10%Q) 8%Q 1%Q true 2.
Proof.
  split; [reflexivity|]. intros H.
  specialize (H 10%nat (proj2 (mask_set_elem _ _) isolated_peak_kept)).
  pose proof wf_square_camera_4x4 as Hwf.
  assert (Hlen : length (solo_image 16 0%Q 10 10%Q)
                 = num_pixels square_camera_4x4) by reflexivity.
  destruct H as [[_ Hcount] | [_ (j & Hadj & Hj)]].
  - rewrite <- (mask_set_array_ge Qgeb square_camera_4x4) in Hcount by done.
    assert (Hc := mat_vec_count square_camera_4x4
                    (array_ge Qgeb (solo_image 16 0%Q 10 10%Q) 8%Q) 10 Hwf).
    assert (Hv : mat_vec (neigh_matrix square_camera_4x4)
                   (cast_int (array_ge Qgeb (solo_image 16 0%Q 10 10%Q) 8%Q))
                 !! 10%nat = Some 0) by (vm_compute; reflexivity).
    rewrite Hv in Hc. specialize (Hc ltac:(simpl; lia)).
    assert (Hz : 0 = Z.of_nat
                   (size (N square_camera_4x4 10
                            ∩ mask_set (array_ge Qgeb
                                 (solo_image 16 0%Q 10 10%Q) 8%Q))))
      by congruence.
    lia.
  - assert (Hin : 10%nat ∈ neighbors_of square_camera_4x4
                    (above Qgeb square_camera_4x4
                       (solo_image 16 0%Q 10 10%Q) 8%Q)).
    { apply neighbors_of_adjacent. split; [simpl; lia|].
      assert (Hlt : (j < num_pixels square_camera_4x4)%nat).
      { unfold at_least in Hj.
        destruct (solo_image 16 0%Q 10 10%Q !! j) eqn:E; [|done].
        apply lookup_lt_Some in E. exact E. }
      exists j. split; [done|]. split; [|done].
      apply above_elem. done. }
    rewrite <- (mask_set_array_ge Qgeb square_camera_4x4) in Hin by done.
    rewrite <- mask_set_has_neighbor in Hin by done.
    apply mask_set_elem in Hin. vm_compute in Hin. discriminate Hin.
Qed.

Lemma tailcuts_clean_invariant_witness :
  wf_camera square_camera_4x4 ∧
  length (solo_image 16 0%Q 10 10%Q) = num_pixels square_camera_4x4 ∧
  10%nat ∈ mask_set (tailcuts_clean Qgeb square_camera_4x4
                       (solo_image 16 0%Q 10 10%Q) 8%Q 1%Q true 2) ∧
  ((at_least Qgeb (solo_image 16 0%Q 10 10%Q) 8%Q 10 ∧
    (true = false →
     2 ≤ Z.of_nat (size (N square_camera_4x4 10
                           ∩ above Qgeb square_camera_4x4
                               (solo_image 16 0%Q 10 10%Q) 8%Q))))
   ∨ (at_least Qgeb (solo_image 16 0%Q 10 10%Q) 1%Q 10 ∧
      ∃ j, adjacent square_camera_4x4 10 j ∧
           j ∈ spec_picture Qgeb square_camera_4x4
                 (solo_image 16 0%Q 10 10%Q) 8%Q true 2 ∧
           at_least Qgeb (solo_image 16 0%Q 10 10%Q) 8%Q j)).
Proof.
  split; [exact wf_square_camera_4x4|]. split; [reflexivity|].
  assert (Hin : 10%nat ∈ mask_set (tailcuts_clean Qgeb square_camera_4x4
                            (solo_image 16 0%Q 10 10%Q) 8%Q 1%Q true 2)).
  { apply mask_set_elem. vm_compute. reflexivity. }
  split; [exact Hin|].
  apply (tailcuts_clean_invariant Qgeb square_camera_4x4
           (solo_image 16 0%Q 10 10%Q) 8%Q 1%Q true 2
           wf_square_camera_4x4 eq_refl 10%nat Hin).
Defined.

(** ** Adaptive thresholds *)

Local Ltac Qle_const := unfold Qle; simpl; lia.

Lemma Qltb_lt x y : Qltb x y = true ↔ (x < y)%Q.
Proof.
  unfold Qltb. rewrite negb_true_iff, <- not_true_iff_false, Qle_bool_iff.
  split; [apply Qnot_le_lt | apply Qlt_not_le].
Qed.

(** [std::max] is the maximum of the rationals. *)
Lemma std_max_Qmax a b : std_max a b = Qmax a b.
Proof.
  unfold std_max, Qmax, GenericMinMax.gmax.
  destruct (a ?= b)%Q eqn:Hc, (Qltb a b) eqn:H; try done.
  - apply Qltb_lt in H. apply Qeq_alt in Hc. rewrite Hc in H.
    by apply Qlt_irrefl in H.
  - apply Qlt_alt, Qltb_lt in Hc. congruence.
  - apply Qltb_lt in H. apply Qgt_alt in Hc.
    exfalso. apply (Qlt_irrefl a). by apply Qlt_trans with b.
Qed.

Lemma std_max_cases a b :
  (std_max a b = a ∧ (b <= a)%Q) ∨ (std_max a b = b ∧ (a < b)%Q).
Proof.
  unfold std_max. destruct (Qltb a b) eqn:H.
  - right. split; [done | by apply Qltb_lt].
  - left. split; [done|]. apply Qnot_lt_le. rewrite <- Qltb_lt. congruence.
Qed.

Lemma fold_std_max rest x :
  let m := fold_left std_max rest x in
  (m = x ∨ m ∈ rest) ∧ (x <= m)%Q ∧ ∀ y, y ∈ rest → (y <= m)%Q.
Proof.
  revert x. induction rest as [|y rest IH]; intros x; simpl.
  - split; [by left|]. split; [apply Qle_refl|]. intros y Hy.
    by apply elem_of_nil in Hy.
  - destruct (IH (std_max x y)) as (Hin & Hle & Hall).
    destruct (std_max_cases x y) as [[Hm Hxy] | [Hm Hxy]]; rewrite Hm in *.
    + split; [destruct Hin; [by left | right; by apply elem_of_cons; right]|].
      split; [done|]. intros z [-> | Hz]%elem_of_cons; [|by apply Hall].
      by apply Qle_trans with x.
    + split; [right; apply elem_of_cons; destruct Hin; [left | right]; done|].
      split; [apply Qle_trans with y; [by apply Qlt_le_weak | done]|].
      intros z [-> | Hz]%elem_of_cons; [done | by apply Hall].
Qed.

(** [maxval] is the maximum of the image, 0 for an empty image. *)
Lemma maxval_max_of image : max_of image (maxval image).
Proof.
  destruct image as [|x rest]; [reflexivity|].
  unfold max_of, maxval, maxCoeff. simpl.
  destruct (fold_std_max rest x) as (Hin & Hle & Hall).
  split.
  - apply elem_of_cons. destruct Hin; [left | right]; done.
  - intros y [-> | Hy]%elem_of_cons; [done | by apply Hall].
Qed.

Section AdaptiveProperties.
Variable rnd : Q → Q.
Hypothesis rnd_monotone : ∀ x y, (x <= y)%Q → (rnd x <= rnd y)%Q.
Hypothesis rnd_5 : (rnd 5 <= 5)%Q.

Lemma boundary_auto_le_picture_auto image :
  (boundary_auto rnd image <= picture_auto rnd image)%Q.
Proof.
  unfold boundary_auto, picture_auto. set (m := maxval image).
  assert (H10 : (10 <= std_max 10 (rnd (m / 10)))%Q).
  { destruct (std_max_cases 10 (rnd (m / 10))) as [[-> _] | [-> H]];
      [apply Qle_refl | by apply Qlt_le_weak]. }
  assert (Hp : (rnd (m / 10) <= std_max 10 (rnd (m / 10)))%Q).
  { destruct (std_max_cases 10 (rnd (m / 10))) as [[-> H] | [-> _]];
      [done | apply Qle_refl]. }
  destruct (std_max_cases 5 (rnd (m / 20))) as [[-> _] | [-> H5]].
  - apply Qle_trans with 10%Q; [|done]. Qle_const.
  - apply Qle_trans with (rnd (m / 10)); [|done].
    apply rnd_monotone.
    destruct (Qlt_le_dec 0 m) as [Hm | Hm].
    + unfold Qdiv. apply Qmult_le_l; [done|]. Qle_const.
    + exfalso. apply (Qlt_not_le _ _ H5).
      apply Qle_trans with (rnd 5); [|done]. apply rnd_monotone.
      apply Qle_trans with 0%Q; [|Qle_const].
      unfold Qdiv. rewrite <- (Qmult_0_l (/ 20)).
      apply Qmult_le_compat_r; [done | Qle_const].
Qed.

(** C10.  For every camera and image, [tailcuts_clean2] returns exactly
    [tailcuts_clean] with [picture_thresh = max(10, max(image) / 10)] and
    [boundary_thresh = max(5, max(image) / 20)], where [max(image)] is the
    largest pixel value (0 for an empty image), together with the
    instance's [keep_isolated_pixels] and [min_number_picture_neighbors];
    the picture threshold so chosen is at least the boundary threshold.
    The quotients may be rounded by any monotone rounding that leaves 5 in
    place. *)
Theorem tailcuts_clean2_adaptive self cam image :
  ∃ m, max_of image m ∧
    tailcuts_clean2 rnd self cam image
    = tailcuts_clean Qgeb cam image
        (Qmax 10 (rnd (m / 10))) (Qmax 5 (rnd (m / 20)))
        (keep_isolated_pixels self) (min_number_picture_neighbors self) ∧
    (Qmax 5 (rnd (m / 20)) <= Qmax 10 (rnd (m / 10)))%Q.
Proof.
  exists (maxval image). split; [apply maxval_max_of|].
  rewrite <- !std_max_Qmax. split; [reflexivity|].
  apply boundary_auto_le_picture_auto.
Qed.

End AdaptiveProperties.

Lemma tailcuts_clean2_adaptive_witness :
  ∃ m, max_of (solo_image 16 5%Q 10 400%Q) m ∧
    tailcuts_clean2 id
      {| picture_thresh := 10; boundary_thresh := 5;
         keep_isolated_pixels := false; min_number_picture_neighbors := 2 |}
      square_camera_4x4 (solo_image 16 5%Q 10 400%Q)
    = tailcuts_clean Qgeb square_camera_4x4 (solo_image 16 5%Q 10 400%Q)
        (Qmax 10 (id (m / 10)%Q)) (Qmax 5 (id (m / 20)%Q))
        false 2 ∧
    (Qmax 5 (id (m / 20)) <= Qmax 10 (id (m / 10)))%Q.
Proof.
  apply (tailcuts_clean2_adaptive id (λ x y H, H)
           (Qle_refl 5)
           {| picture_thresh := 10; boundary_thresh := 5;
              keep_isolated_pixels := false;
              min_number_picture_neighbors := 2 |}
           square_camera_4x4 (solo_image 16 5%Q 10 400%Q)).
Defined.

(** ** The data writer *)

(** With [write_simulated_camera] enabled, an event without a simulation
    layer makes [operator()] dereference the empty optional. *)
Lemma DataWriter_call_absent_simulation self event calls :
  file_writer self = Some calls →
  write_simulated_camera_enabled self = true →
  simulation event = None →
  DataWriter_call self event
  = Fails (undefined_behaviour "event.simulation").
Proof.
  intros Hfw Hflag Hsim. unfold DataWriter_call, write_event. rewrite Hfw.
  unfold mbind, writing_bind, wbind, invoke, and_then, deref, when.
  rewrite Hflag, Hsim. simpl. rewrite andb_false_r. reflexivity.
Qed.

(** C4, at the failing input: with the default flags, for an event that has
    [dl1] but no simulation layer, [DataWriter::operator()] reads
    [event.simulation->tels] although the layer is absent, and so does not
    route the event as the claim asks. *)
Theorem DataWriter_call_derefs_absent_layer :
  DataWriter_call default_DataWriter observed_event
  = Fails (undefined_behaviour "event.simulation") ∧
  ¬ routes_enabled_present default_DataWriter observed_event.
Proof.
  assert (H : DataWriter_call default_DataWriter observed_event
              = Fails (undefined_behaviour "event.simulation"))
    by (by apply (DataWriter_call_absent_simulation _ _ [])).
  split; [exact H|].
  intros (calls & Hret & _). rewrite H in Hret. discriminate Hret.
Qed.

(** *** The layers that are checked *)

Lemma when_invoke cond c (rest : writing unit) calls :
  (when cond (invoke c) ≫= λ _, rest) calls
  = rest (calls ++ if cond then [c] else []).
Proof.
  unfold mbind, writing_bind, wbind, when, invoke, wret.
  destruct cond; [done|]. by rewrite app_nil_r.
Qed.

Lemma when_invoke_last cond c calls :
  when cond (invoke c) calls
  = Returns (tt, calls ++ if cond then [c] else []).
Proof.
  unfold when, invoke, wret. destruct cond; [done|]. by rewrite app_nil_r.
Qed.

(** Whenever [operator()] does not have to look into an absent simulation
    layer (the layer is present, or [write_simulated_camera] is disabled),
    it calls exactly the methods of the enabled layers that are present. *)
Lemma DataWriter_call_routes self event calls :
  file_writer self = Some calls →
  write_simulated_camera_enabled self = false ∨ is_Some (simulation event) →
  DataWriter_call self event
  = Returns (Some (calls ++ routed_calls self event)).
Proof.
  intros Hfw Hsim. unfold DataWriter_call. rewrite Hfw.
  assert (Hrun : write_event self event calls
                 = Returns (tt, calls ++ routed_calls self event));
    [|by rewrite Hrun].
  unfold write_event, routed_calls.
  change (invoke unique_write_method ≫= ?k)
    with (when true (invoke unique_write_method) ≫= k).
  rewrite !when_invoke.
  assert (Hcam :
    ∀ (k : bool → writing unit) calls',
      (and_then (write_simulated_camera_enabled self)
         (sim ← deref "event.simulation" (simulation event);
          mret (bool_decide (0 < size (sim_tels sim))%nat)) ≫= k) calls'
      = k (write_simulated_camera_enabled self &&
           match simulation event with
           | Some sim => bool_decide (0 < size (sim_tels sim))%nat
           | None => false
           end) calls').
  { intros k calls'. unfold mbind, writing_bind, wbind, and_then, deref.
    destruct Hsim as [-> | [sim ->]]; [done|].
    by destruct (write_simulated_camera_enabled self). }
  rewrite Hcam, !when_invoke, when_invoke_last.
  by rewrite <- !app_assoc.
Qed.

(** ** The command line program *)

Example stoi_examples :
  stoi "12" = Some 12 ∧ stoi " -7" = Some (-7) ∧ stoi "3x" = Some 3 ∧
  stoi "x" = None ∧ stoi "" = None ∧ stoi "99999999999" = None.
Proof. vm_compute. repeat split. Qed.

Example parse_subarray_examples :
  parse_subarray "1,2,3" = Some [1; 2; 3] ∧
  parse_subarray "4" = Some [4] ∧
  parse_subarray "1,,3" = None ∧
  parse_subarray "1,x" = None.
Proof. vm_compute. repeat split. Qed.

(** C5, counterexample: one input, one output, no configuration file and
    [-s 1,x]: none of the three listed errors, yet [main] returns 1. *)
Lemma exit_code_as_stated_fails :
  ¬ exit_code_as_stated tt demo_read_file (λ _, Some tt) (λ c _, Some c)
      demo_process_file
      {| input_files := ["run1.simtel"]; output_files := ["run1.root"];
         config_file := None; max_leakage2 := None;
         subarray := Some "1,x"%string |}.
Proof.
  intros [_ H].
  assert (Hexit : Exit 1 = Exit 0); [|discriminate Hexit].
  apply H. intros [Hin | [Hlen | (path & Hcfg & _)]].
  - discriminate Hin.
  - by apply Hlen.
  - discriminate Hcfg.
Qed.

Section MainProperties.
Context {json_config : Type}.
Variable default_config : json_config.
Variable read_file : string → option string.
Variable parse_json : string → option json_config.
Variable set_image_query : json_config → string → option json_config.
Variable process_file : json_config → list Z → string → string → bool.

Local Abbreviation run := (main default_config read_file parse_json set_image_query
                      process_file).

Lemma main_listed_setup_error a :
  listed_setup_error read_file a → run (Parsed a) = ([], Exit 1).
Proof.
  intros [Hin | [Hlen | (path & Hcfg & Hread)]]; unfold main.
  - by rewrite bool_decide_true.
  - case_bool_decide; [done|]. by rewrite bool_decide_true.
  - repeat (case_bool_decide; [done|]). by rewrite Hcfg, Hread.
Qed.

Lemma main_config_loads a config :
  ¬ listed_setup_error read_file a →
  config_loads default_config read_file parse_json set_image_query a config →
  run (Parsed a)
  = match (match subarray a with
           | Some s => parse_subarray s
           | None => Some []
           end) with
    | None => ([], Exit 1)
    | Some tel_ids =>
        (flat_map (process_pair process_file config tel_ids)
                  (zip (input_files a) (output_files a)), Exit 0)
    end.
Proof.
  intros Hok (loaded & Hload & Hupd). unfold main.
  rewrite bool_decide_false by (intros H; apply Hok; by left).
  rewrite bool_decide_false by (intros H; apply Hok; right; by left).
  destruct (config_file a) as [path|].
  - destruct Hload as (text & -> & ->).
    destruct (max_leakage2 a); [by rewrite Hupd | by subst].
  - subst loaded. destruct (max_leakage2 a); [by rewrite Hupd | by subst].
Qed.

(** Every pair of files is taken up, whatever happened to the pairs before
    it, and a pair whose processing throws is reported. *)
Lemma process_pairs_reports config tel_ids pairs input output :
  (input, output) ∈ pairs →
  let reports := flat_map (process_pair process_file config tel_ids) pairs in
  Processing input output ∈ reports ∧
  (process_file config tel_ids input output = false →
   ErrorProcessing input ∈ reports) ∧
  (process_file config tel_ids input output = true →
   Finished input ∈ reports).
Proof.
  intros Hin reports. subst reports.
  assert (Hsub : ∀ r, r ∈ process_pair process_file config tel_ids
                           (input, output) →
                 r ∈ flat_map (process_pair process_file config tel_ids) pairs).
  { intros r Hr. apply list_elem_of_In, in_flat_map.
    exists (input, output). by rewrite <- !list_elem_of_In. }
  simpl in Hsub. split; [apply Hsub; by left|].
  split; intros Hp; apply Hsub; rewrite Hp; right; by left.
Qed.

(** C5, amended.  [main] returns 1 before taking up any file when the
    command line does not parse, when there is no input file, when the
    numbers of [-i] and [-o] differ, when the [-c] file cannot be opened,
    or, the configuration being available, when the [-s] list holds a
    token that is not an integer.  It returns 0 on [--help], and otherwise
    whenever the configuration is available: then every pair of files is
    taken up in order, a pair whose processing throws a [std::exception] is
    reported, and the exit code is 0 all the same. *)
Theorem main_exit_code :
  run Help = ([], Exit 0) ∧
  run ParseError = ([], Exit 1) ∧
  run ValidationError = ([], Exit 1) ∧
  ∀ a,
    (listed_setup_error read_file a → run (Parsed a) = ([], Exit 1)) ∧
    ∀ config,
      ¬ listed_setup_error read_file a →
      config_loads default_config read_file parse_json set_image_query
        a config →
      (bad_subarray a → run (Parsed a) = ([], Exit 1)) ∧
      ∀ tel_ids, selected_tel_ids a tel_ids →
        run (Parsed a)
        = (flat_map (process_pair process_file config tel_ids)
                    (zip (input_files a) (output_files a)), Exit 0) ∧
        ∀ input output,
          (input, output) ∈ zip (input_files a) (output_files a) →
          Processing input output ∈ (run (Parsed a)).1 ∧
          (process_file config tel_ids input output = false →
           ErrorProcessing input ∈ (run (Parsed a)).1).
Proof.
  split; [done|]. split; [done|]. split; [done|].
  intros a. split; [apply main_listed_setup_error|].
  intros config Hok Hcfg.
  pose proof (main_config_loads a config Hok Hcfg) as Hrun.
  split.
  - intros (s & Hs & Hbad). by rewrite Hrun, Hs, Hbad.
  - intros tel_ids Hids. unfold selected_tel_ids in Hids.
    assert (Hrun' : run (Parsed a)
                    = (flat_map (process_pair process_file config tel_ids)
                         (zip (input_files a) (output_files a)), Exit 0)).
    { rewrite Hrun. destruct (subarray a); [by rewrite Hids | by subst]. }
    split; [exact Hrun'|].
    intros input output Hin. rewrite Hrun'. simpl.
    destruct (process_pairs_reports config tel_ids _ input output Hin)
      as (H1 & H2 & _).
    by split.
Qed.

End MainProperties.

Lemma main_exit_code_witness :
  let a := {| input_files := ["broken.simtel"; "run2.simtel"];
              output_files := ["broken.root"; "run2.root"];
              config_file := Some "config.json"%string;
              max_leakage2 := Some "0.2"%string;
              subarray := Some "1,2,3"%string |} in
  ¬ listed_setup_error demo_read_file a ∧
  config_loads tt demo_read_file (λ _, Some tt) (λ c _, Some c) a tt ∧
  selected_tel_ids a [1; 2; 3] ∧
  demo_main (Parsed a)
  = ([Processing "broken.simtel" "broken.root";
      ErrorProcessing "broken.simtel";
      Processing "run2.simtel" "run2.root";
      Finished "run2.simtel"], Exit 0).
Proof.
  intros a.
  assert (Hok : ¬ listed_setup_error demo_read_file a).
  { intros [Hin | [Hlen | (path & Hcfg & Hread)]].
    - discriminate Hin.
    - by apply Hlen.
    - injection Hcfg as <-. discriminate Hread. }
  assert (Hcfg : config_loads tt demo_read_file (λ _, Some tt)
                   (λ c _, Some c) a tt).
  { exists tt. split; [by exists "{}"%string | done]. }
  assert (Hids : selected_tel_ids a [1; 2; 3]) by (vm_compute; reflexivity).
  split; [exact Hok|]. split; [exact Hcfg|]. split; [exact Hids|].
  destruct (main_exit_code tt demo_read_file (λ _, Some tt) (λ c _, Some c)
              demo_process_file) as (_ & _ & _ & H).
  destruct (H a) as [_ H'].
  destruct (H' tt Hok Hcfg) as [_ H''].
  destruct (H'' [1; 2; 3] Hids) as [-> _].
  reflexivity.
Defined.

(** ** The ROOT writer *)

(** C6.  When the output file already exists, [RootWriter::open(overwrite)]
    with [overwrite = false] throws "file already exists", leaves the
    writer without an open file and the file as it was; with
    [overwrite = true] it does not throw and, the path being writable,
    leaves the writer with an open, emptied file.  So on an existing output
    it throws iff [overwrite] is false. *)
Theorem RootWriter_open_existing self fs contents overwrite :
  files fs !! filename self = Some contents →
  ∃ fs' self' result,
    RootWriter_open self overwrite fs = (fs', self', result) ∧
    (overwrite = false →
       result = Fails (runtime_error
                         ("file already exists: " +:+ filename self)) ∧
       file self' = None ∧ fs' = fs) ∧
    (overwrite = true →
       result = Returns tt ∧
       (writable fs (filename self) = true →
        file self' = Some {| file_path := filename self |} ∧
        files fs' !! filename self = Some [])) ∧
    ((∃ e, result = Fails e) ↔ overwrite = false).
Proof.
  intros Hex. unfold RootWriter_open, TFile_Open.
  destruct overwrite.
  - destruct (writable fs (filename self)) eqn:Hw; simpl.
    + eexists _, _, _. split; [reflexivity|].
      split; [discriminate|]. split.
      * intros _. split; [done|]. intros _. simpl.
        split; [done | apply lookup_insert_eq].
      * split; [intros [e He]; discriminate He | discriminate].
    + eexists _, _, _. split; [reflexivity|].
      split; [discriminate|]. split.
      * intros _. split; [done | discriminate].
      * split; [intros [e He]; discriminate He | discriminate].
  - rewrite Hex.
    destruct (writable fs (filename self)) eqn:Hw; simpl;
      (eexists _, _, _; split; [reflexivity|];
       split; [done|]; split; [discriminate|];
       split; [done | intros _; eauto]).
Qed.

(** The other case of ["NEW"]: without an existing file, [open(false)]
    creates it. *)
Lemma RootWriter_open_fresh self fs :
  files fs !! filename self = None → writable fs (filename self) = true →
  ∃ fs' self',
    RootWriter_open self false fs = (fs', self', Returns tt) ∧
    file self' = Some {| file_path := filename self |} ∧
    files fs' !! filename self = Some [].
Proof.
  intros Hnone Hw. unfold RootWriter_open, TFile_Open.
  rewrite Hw, Hnone. simpl. eexists _, _. split; [reflexivity|].
  split; [done|]. simpl. apply lookup_insert_eq.
Qed.

Lemma RootWriter_open_existing_witness :
  let fs := {| files := {[ "out.root"%string := ["events"%string] ]};
               writable := λ _, true |} in
  let self := {| filename := "out.root"; file := None |} in
  files fs !! filename self = Some ["events"%string] ∧
  (RootWriter_open self false fs).2
  = Fails (runtime_error "file already exists: out.root") ∧
  (RootWriter_open self true fs).2 = Returns tt.
Proof.
  intros fs self.
  assert (Hex : files fs !! filename self = Some ["events"%string])
    by (vm_compute; reflexivity).
  split; [exact Hex|]. split.
  - destruct (RootWriter_open_existing self fs _ false Hex)
      as (fs' & self' & result & -> & Hfalse & _).
    destruct (Hfalse eq_refl) as (-> & _). reflexivity.
  - destruct (RootWriter_open_existing self fs _ true Hex)
      as (fs' & self' & result & -> & _ & Htrue & _).
    destruct (Htrue eq_refl) as (-> & _). reflexivity.
Defined.

(** ** The configuration system *)

(** *** [merge_patch], member by member *)

Lemma merge_patch_fold (start p : gmap string json) key :
  map_fold
    (λ key value (result : gmap string json),
       match value with
       | JNull => delete key result
       | _ => <[key := merge_patch (default JNull (result !! key)) value]>
                result
       end) start p !! key
  = match p !! key with
    | None => start !! key
    | Some JNull => None
    | Some value => Some (merge_patch (default JNull (start !! key)) value)
    end.
Proof.
  revert key.
  apply (map_fold_weak_ind
    (λ (r : gmap string json) (m : gmap string json),
       ∀ key, r !! key = match m !! key with
                         | None => start !! key
                         | Some JNull => None
                         | Some value =>
                             Some (merge_patch
                                     (default JNull (start !! key)) value)
                         end)).
  - intros key. by rewrite lookup_empty.
  - intros i x m r Hi IH key.
    destruct (decide (key = i)) as [-> | Hne].
    + rewrite lookup_insert_eq. specialize (IH i). rewrite Hi in IH.
      destruct x; rewrite ?lookup_delete_eq, ?lookup_insert_eq, ?IH; done.
    + rewrite lookup_insert_ne by done. rewrite <- IH.
      destruct x; rewrite ?lookup_delete_ne, ?lookup_insert_ne; done.
Qed.

Lemma member_merge_patch target p key :
  member (merge_patch target (JObject p)) key
  = match p !! key with
    | None => member target key
    | Some JNull => None
    | Some value =>
        Some (merge_patch (default JNull (member target key)) value)
    end.
Proof.
  cbn [merge_patch member]. rewrite merge_patch_fold.
  destruct target; cbn [member]; rewrite ?lookup_empty; reflexivity.
Qed.

(** A patch that is no object replaces the target. *)
Lemma merge_patch_not_object target patch :
  is_object patch = false → merge_patch target patch = patch.
Proof. by destruct patch. Qed.

Lemma merge_patch_is_object target p :
  is_object (merge_patch target (JObject p)) = true.
Proof. reflexivity. Qed.

(** *** [setJsonValue] *)

Lemma set_at_last current last value :
  set_at current [last] value
  = match json_of_any value with
    | None => Returns current
    | Some v =>
        match current with
        | JNull => Returns (JObject {[ last := v ]})
        | JObject m => Returns (JObject (<[last := v]> m))
        | _ => Fails (type_error 305)
        end
    end.
Proof. reflexivity. Qed.

Lemma set_at_cons current key rest value :
  rest ≠ [] →
  set_at current (key :: rest) value
  = match current with
    | JNull =>
        child ← set_at (JObject ∅) rest value;
        Returns (JObject {[ key := child ]})
    | JObject m =>
        child ← set_at (default (JObject ∅) (m !! key)) rest value;
        Returns (JObject (<[key := child]> m))
    | _ => Fails (type_error 305)
    end.
Proof. intros Hrest. destruct rest; [done | reflexivity]. Qed.

(** Below a fresh object [setJsonValue] cannot throw, and it leaves an
    object. *)
Lemma set_at_fresh parts value :
  parts ≠ [] →
  ∃ m, set_at (JObject ∅) parts value = Returns (JObject m).
Proof.
  induction parts as [|key rest IH]; intros Hne; [done|].
  destruct (decide (rest = [])) as [-> | Hrest].
  - rewrite set_at_last. destruct (json_of_any value); eauto.
  - rewrite set_at_cons by done. rewrite lookup_empty. simpl.
    destruct (IH Hrest) as [m ->]. simpl. eauto.
Qed.

(** [json_to_any] never yields a null that [setJsonValue] would store. *)
Lemma json_of_json_to_any value v :
  json_of_any (json_to_any value) = Some v → v ≠ JNull ∧ value ≠ JNull.
Proof. destruct value; simpl; intros [= <-]; done. Qed.

Lemma json_of_json_to_any_is_Some value :
  value ≠ JNull → is_Some (json_of_any (json_to_any value)).
Proof. destruct value; simpl; eauto. done. Qed.

(** From the empty configuration, [setJsonValue] builds nothing, for a
    null at a one-component name, or an object whose only member is the
    first component. *)
Lemma set_at_null key rest value :
  ∃ processed,
    set_at JNull (key :: rest) (json_to_any value) = Returns processed ∧
    (processed = JNull ∧ value = JNull ∨
     ∃ child, processed = JObject {[ key := child ]} ∧ child ≠ JNull).
Proof.
  destruct (decide (rest = [])) as [-> | Hrest].
  - rewrite set_at_last.
    destruct (json_of_any (json_to_any value)) as [v|] eqn:Hv.
    + apply json_of_json_to_any in Hv as [Hv _]. eauto 8.
    + eexists. split; [done|]. left. split; [done|].
      by destruct value.
  - rewrite set_at_cons by done.
    destruct (set_at_fresh rest (json_to_any value) Hrest) as [m ->].
    simpl. eauto 8.
Qed.

(** *** Single-member configurations *)

Lemma items_singleton key value : items {[ key := value ]} = [(key, value)].
Proof. unfold items. rewrite map_to_list_singleton. reflexivity. Qed.

Lemma processUserConfig_singleton key value :
  processUserConfig (JObject {[ key := value ]})
  = set_at JNull (splitPath key) (json_to_any value).
Proof.
  unfold processUserConfig. rewrite items_singleton. simpl.
  unfold setJsonValue. by destruct (set_at _ _ _).
Qed.

(** *** Reading what [setJsonValue] wrote *)

Lemma get_path_empty_object parts :
  parts ≠ [] → get_path (JObject ∅) parts = None.
Proof. destruct parts; [done|]. intros _. simpl. by rewrite lookup_empty. Qed.

Lemma get_path_null parts : parts ≠ [] → get_path JNull parts = None.
Proof. by destruct parts. Qed.

(** The value is found at the path it was stored at. *)
Lemma set_at_get_same parts : ∀ current value v result,
  json_of_any value = Some v →
  set_at current parts value = Returns result →
  get_path result parts = Some v.
Proof.
  induction parts as [|key rest IH]; intros current value v result Hv Hset;
    [discriminate Hset|].
  destruct (decide (rest = [])) as [-> | Hrest].
  - rewrite set_at_last, Hv in Hset.
    destruct current; try discriminate Hset; injection Hset as <-; simpl.
    + by rewrite lookup_singleton_eq.
    + by rewrite lookup_insert_eq.
  - rewrite set_at_cons in Hset by done.
    destruct current; try discriminate Hset.
    + destruct (set_at (JObject ∅) rest value) as [child|] eqn:Hchild;
        [|discriminate Hset].
      injection Hset as <-. simpl. rewrite lookup_singleton_eq. simpl.
      eapply IH; eauto.
    + destruct (set_at (default (JObject ∅) (members !! key)) rest value)
        as [child|] eqn:Hchild; [|discriminate Hset].
      injection Hset as <-. simpl. rewrite lookup_insert_eq. simpl.
      eapply IH; eauto.
Qed.

(** Paths that neither lead through the stored one nor lie on the way to it
    keep their value. *)
Lemma set_at_get_other q : ∀ current value result p,
  set_at current q value = Returns result →
  ¬ p `prefix_of` q → ¬ q `prefix_of` p →
  get_path result p = get_path current p.
Proof.
  induction q as [|key rest IH]; intros current value result p Hset Hpq Hqp;
    [discriminate Hset|].
  destruct p as [|a p']; [by destruct Hpq; apply prefix_nil|].
  assert (Htail : a = key → ¬ p' `prefix_of` rest ∧ ¬ rest `prefix_of` p').
  { intros ->. split; intros H; [apply Hpq | apply Hqp]; by apply prefix_cons. }
  destruct (decide (rest = [])) as [-> | Hrest].
  - assert (a ≠ key).
    { intros Heq. destruct (Htail Heq) as [_ H]. apply H, prefix_nil. }
    rewrite set_at_last in Hset.
    destruct (json_of_any value); [|by injection Hset as <-].
    destruct current; try discriminate Hset; injection Hset as <-; simpl.
    + by rewrite lookup_singleton_ne.
    + by rewrite lookup_insert_ne.
  - rewrite set_at_cons in Hset by done.
    destruct current; try discriminate Hset.
    + destruct (set_at (JObject ∅) rest value) as [child|] eqn:Hchild;
        [|discriminate Hset].
      injection Hset as <-. simpl.
      destruct (decide (a = key)) as [-> | Hne];
        [|by rewrite lookup_singleton_ne].
      rewrite lookup_singleton_eq. simpl.
      destruct (Htail eq_refl) as [H1 H2].
      rewrite (IH _ _ _ p' Hchild H1 H2).
      apply get_path_empty_object. intros ->. apply H1, prefix_nil.
    + destruct (set_at (default (JObject ∅) (members !! key)) rest value)
        as [child|] eqn:Hchild; [|discriminate Hset].
      injection Hset as <-. simpl.
      destruct (decide (a = key)) as [-> | Hne];
        [|by rewrite lookup_insert_ne].
      rewrite lookup_insert_eq. simpl.
      destruct (Htail eq_refl) as [H1 H2].
      rewrite (IH _ _ _ p' Hchild H1 H2).
      destruct (members !! key); [done|]. simpl.
      apply get_path_empty_object. intros ->. apply H1, prefix_nil.
Qed.

(** On the way to the stored value there are objects. *)
Lemma set_at_get_inner q : ∀ current value result r,
  is_Some (json_of_any value) →
  set_at current q value = Returns result →
  r `prefix_of` q → r ≠ q →
  ∃ m, get_path result r = Some (JObject m).
Proof.
  induction q as [|key rest IH]; intros current value result r [v Hv] Hset Hr Hne;
    [discriminate Hset|].
  assert (Hobj : ∃ m, result = JObject m ∧
            ∀ r', r' `prefix_of` rest → r' ≠ rest →
                  ∃ m', m !! key ≫= (λ child, get_path child r')
                        = Some (JObject m')).
  { destruct (decide (rest = [])) as [-> | Hrest].
    - rewrite set_at_last, Hv in Hset.
      destruct current; try discriminate Hset; injection Hset as <-;
        (eexists; split; [done|]);
        intros r' Hr' Hne'; apply prefix_nil_inv in Hr'; done.
    - rewrite set_at_cons in Hset by done.
      destruct current; try discriminate Hset.
      + destruct (set_at (JObject ∅) rest value) as [child|] eqn:Hchild;
          [|discriminate Hset].
        injection Hset as <-. eexists; split; [done|].
        intros r' Hr' Hne'. rewrite lookup_singleton_eq. simpl.
        eapply IH; eauto.
      + destruct (set_at (default (JObject ∅) (members !! key)) rest value)
          as [child|] eqn:Hchild; [|discriminate Hset].
        injection Hset as <-. eexists; split; [done|].
        intros r' Hr' Hne'. rewrite lookup_insert_eq. simpl.
        eapply IH; eauto. }
  destruct Hobj as (m & -> & Hinner).
  destruct r as [|a r']; [simpl; eauto|].
  pose proof (prefix_cons_inv_1 _ _ _ _ Hr) as ->.
  apply prefix_cons_inv_2 in Hr. simpl.
  apply Hinner; [done|]. by intros ->.
Qed.

(** [setJsonValue] returns when the nodes on the way are null or objects. *)
Lemma set_at_returns q : ∀ current value,
  q ≠ [] →
  (∀ r x, r `prefix_of` q → r ≠ q → get_path current r = Some x →
          passable x) →
  ∃ result, set_at current q value = Returns result.
Proof.
  induction q as [|key rest IH]; intros current value Hq Hpass; [done|].
  assert (Hcur : passable current).
  { apply (Hpass [] current); [apply prefix_nil | done | done]. }
  destruct (decide (rest = [])) as [-> | Hrest].
  - rewrite set_at_last. destruct (json_of_any value); [|eauto].
    destruct Hcur as [-> | Hobj]; [eauto|]. destruct current; try done. eauto.
  - rewrite set_at_cons by done.
    destruct Hcur as [-> | Hobj].
    + destruct (set_at_fresh rest value Hrest) as [m ->]. simpl. eauto.
    + destruct current; try done.
      destruct (IH (default (JObject ∅) (members !! key)) value Hrest)
        as [child ->]; [|simpl; eauto].
      intros r x Hr Hne Hx.
      destruct (members !! key) as [child0|] eqn:Hkey; simpl in Hx.
      * apply (Hpass (key :: r) x); [by apply prefix_cons | congruence|].
        simpl. by rewrite Hkey.
      * destruct r; [injection Hx as <-; by right|].
        rewrite get_path_empty_object in Hx; done.
Qed.

(** *** The default configuration *)

Lemma storable_json_of_any value :
  storable value → is_Some (json_of_any value).
Proof. destruct value; simpl; eauto. done. Qed.

Lemma build_from_defaults todo : ∀ done config,
  wf_params (done ++ todo) →
  defaults_built done config →
  ∃ config', build_from config todo = Returns config' ∧
             defaults_built (done ++ todo) config'.
Proof.
  induction todo as [|param todo IH]; intros done config Hwf Hinv.
  - rewrite app_nil_r. simpl. eauto.
  - destruct Hwf as [Hall Hfree].
    assert (Hparam : splitPath (path param) ≠ [] ∧
                     storable (defaultValue param)).
    { rewrite Forall_app, Forall_cons in Hall. tauto. }
    destruct Hparam as [Hq Hstore].
    destruct (storable_json_of_any _ Hstore) as [v Hv].
    assert (Hdone : ∀ param', param' ∈ done →
              ¬ splitPath (path param') `prefix_of` splitPath (path param) ∧
              ¬ splitPath (path param) `prefix_of` splitPath (path param')).
    { intros param' [i Hi]%list_elem_of_lookup.
      assert (Hi' : (done ++ param :: todo) !! i = Some param')
        by (by apply lookup_app_l_Some).
      assert (Hj : (done ++ param :: todo) !! length done = Some param)
        by apply list_lookup_middle, eq_refl.
      apply lookup_lt_Some in Hi.
      split; [apply (Hfree i (length done)) | apply (Hfree (length done) i)];
        auto; lia. }
    destruct Hinv as [Hat Hnodes].
    destruct (set_at_returns (splitPath (path param)) config
                (defaultValue param) Hq) as [config' Hset].
    { intros r x Hr Hne Hx.
      destruct (Hnodes r x Hx) as [? | (param' & Hin & Hpre)]; [done|].
      destruct (Hdone param' Hin) as [Hno _]. destruct Hno.
      by transitivity r. }
    cbn [build_from]. unfold setJsonValue. rewrite Hset.
    cbn [mbind outcome_bind].
    rewrite (cons_middle param done todo), app_assoc in Hall, Hfree |- *.
    apply IH; [by split|]. split.
    + intros param' [Hin | ->%list_elem_of_singleton]%elem_of_app.
      * destruct (Hdone param' Hin) as [H1 H2].
        rewrite (set_at_get_other _ _ _ _ _ Hset H1 H2). by apply Hat.
      * rewrite Hv. eapply set_at_get_same; eauto.
    + intros r x Hx.
      destruct (decide (splitPath (path param) `prefix_of` r)) as [Hqr | Hqr].
      { right. exists param. split; [|done].
        apply elem_of_app. right. by apply list_elem_of_singleton. }
      destruct (decide (r `prefix_of` splitPath (path param))) as [Hrq | Hrq].
      { left. right.
        destruct (set_at_get_inner _ _ _ _ r (mk_is_Some _ _ Hv) Hset Hrq)
          as [m Hm]; [by intros -> |].
        rewrite Hm in Hx. by injection Hx as <-. }
      rewrite (set_at_get_other _ _ _ _ _ Hset Hrq Hqr) in Hx.
      destruct (Hnodes r x Hx) as [? | (param' & Hin & Hpre)]; [by left|].
      right. exists param'. split; [|done]. apply elem_of_app. by left.
Qed.

(** For well-formed parameters [buildDefaultConfig] returns, and the
    default of every parameter is at its path. *)
Lemma buildDefaultConfig_defaults params :
  wf_params params →
  ∃ defaults,
    buildDefaultConfig params = Returns defaults ∧
    ∀ param, param ∈ params →
      get_path defaults (splitPath (path param))
      = json_of_any (defaultValue param).
Proof.
  intros Hwf.
  destruct (build_from_defaults params [] JNull Hwf) as (defaults & Hb & Hd).
  - split; [intros ? []%elem_of_nil|].
    intros [|??] x Hx; [|discriminate Hx]. injection Hx as <-. left. by left.
  - exists defaults. split; [done|]. apply Hd.
Qed.

(** *** Reading the merged configuration *)

(** Where the target has a value at a path, the merged configuration has
    the patch's value merged into it, nothing when the patch has null, and
    otherwise the target's value or nothing. *)
Lemma get_path_merge_patch parts : ∀ target patch d,
  parts ≠ [] → is_null patch = false →
  get_path target parts = Some d →
  match get_path patch parts with
  | Some v =>
      get_path (merge_patch target patch) parts
      = if is_null v then None else Some (merge_patch d v)
  | None =>
      get_path (merge_patch target patch) parts = None ∨
      get_path (merge_patch target patch) parts = Some d
  end.
Proof.
  induction parts as [|key rest IH]; intros target patch d Hne Hpatch Hd;
    [done|].
  destruct (is_object patch) eqn:Hobj.
  - destruct patch as [| | | | | |p]; try discriminate Hobj.
    cbn [get_path] in Hd |- *.
    destruct (member target key) as [child|] eqn:Hchild;
      [|discriminate Hd].
    cbn [mbind option_bind] in Hd.
    rewrite member_merge_patch, Hchild.
    change (member (JObject p) key) with (p !! key).
    destruct (p !! key) as [v|] eqn:Hv;
      cbn [mbind option_bind default from_option id].
    + destruct (decide (rest = [])) as [-> | Hrest].
      * cbn [get_path] in Hd |- *. injection Hd as ->.
        by destruct v.
      * destruct (is_null v) eqn:Hnull.
        { destruct v; try discriminate Hnull. cbn [mbind option_bind].
          rewrite get_path_null by done. by left. }
        specialize (IH child v d Hrest Hnull Hd).
        assert (Hm : (match v with
                      | JNull => None
                      | _ => Some (merge_patch child v)
                      end) = Some (merge_patch child v))
          by (by destruct v).
        rewrite Hm. cbn [mbind option_bind]. exact IH.
    + right. exact Hd.
  - rewrite merge_patch_not_object by done.
    assert (Hnone : get_path patch (key :: rest) = None)
      by (by destruct patch).
    rewrite Hnone. by left.
Qed.

(** *** What the setters receive *)

(** Integers up to [2 ^ 53] in absolute value, the [int]s among them,
    convert to [double] as they are. *)
Lemma double_of_int_exact n :
  Z.abs n ≤ 2 ^ 53 → double_of_int n = inject_Z n.
Proof.
  intros Hn. unfold double_of_int.
  destruct (Z.abs n <? 2 ^ 53) eqn:Hlt; [done|].
  apply Z.ltb_ge in Hlt.
  assert (Habs : Z.abs n = 2 ^ 53) by lia.
  rewrite Habs.
  assert (n = 2 ^ 53 ∨ n = - 2 ^ 53) as [-> | ->] by lia;
    vm_compute; reflexivity.
Qed.

(** Beyond, the result is a multiple of the spacing of the doubles there,
    at most half a spacing away. *)
Lemma double_of_int_nearest n :
  2 ^ 53 ≤ Z.abs n →
  let ulp := 2 ^ (Z.log2 (Z.abs n) - 52) in
  ∃ k, double_of_int n = inject_Z (k * ulp) ∧
       2 * Z.abs (k * ulp - n) ≤ ulp.
Proof.
  intros Hn ulp. unfold double_of_int.
  assert (Hlt : (Z.abs n <? 2 ^ 53) = false) by (apply Z.ltb_ge; lia).
  rewrite Hlt. fold ulp.
  assert (Hlog : 53 ≤ Z.log2 (Z.abs n)).
  { apply Z.log2_le_pow2; lia. }
  assert (Hulp : 0 < ulp).
  { unfold ulp. apply Z.pow_pos_nonneg; lia. }
  pose proof (Z.div_mod (Z.abs n) ulp ltac:(lia)) as Hdiv.
  pose proof (Z.mod_pos_bound (Z.abs n) ulp Hulp) as Hmod.
  set (q := Z.abs n `div` ulp) in *. set (r := Z.abs n `mod` ulp) in *.
  set (q' := if 2 * r <? ulp then q
             else if ulp <? 2 * r then q + 1
                  else if Z.even q then q else q + 1).
  exists (Z.sgn n * q'). split; [f_equal; lia|].
  assert (Hq' : 2 * Z.abs (q' * ulp - Z.abs n) ≤ ulp).
  { subst q'. destruct (2 * r <? ulp) eqn:H1; [apply Z.ltb_lt in H1; lia|].
    apply Z.ltb_ge in H1.
    destruct (ulp <? 2 * r) eqn:H2; [apply Z.ltb_lt in H2; lia|].
    apply Z.ltb_ge in H2. destruct (Z.even q); lia. }
  destruct (Z.abs_spec n) as [[Hpos Habs] | [Hneg Habs]].
  - rewrite Z.sgn_pos by lia. rewrite Habs in Hq'. lia.
  - rewrite Z.sgn_neg by lia. rewrite Habs in Hq'. lia.
Qed.

(** A stored default reads back as itself. *)
Lemma get_as_default value d :
  storable value → json_of_any value = Some d →
  get_as value d = Returns (Some value).
Proof.
  destruct value; simpl; try done; intros Hs [= <-]; simpl; try done.
  by rewrite int_wrap_small.
Qed.

(** Merging into a default that is no JSON value does not change what a
    conversion to a number, a boolean or a string gives. *)
Lemma get_int_merge_patch target v :
  get_int (merge_patch target v) = get_int v.
Proof. by destruct v. Qed.

Lemma get_double_merge_patch target v :
  get_double (merge_patch target v) = get_double v.
Proof. by destruct v. Qed.

Lemma get_bool_merge_patch target v :
  get_bool (merge_patch target v) = get_bool v.
Proof. by destruct v. Qed.

Lemma get_string_merge_patch target v :
  get_string (merge_patch target v) = get_string v.
Proof. by destruct v. Qed.

Lemma get_as_merge_patch value d v :
  json_of_any value = Some d →
  (found ← get_as value (merge_patch d v);
   Returns (default value found)) = convert_to value v.
Proof.
  destruct value; try discriminate; intros [= <-]; unfold get_as, convert_to.
  - rewrite get_bool_merge_patch. by destruct (get_bool v).
  - rewrite get_int_merge_patch. by destruct (get_int v).
  - rewrite get_double_merge_patch. by destruct (get_double v).
  - rewrite get_string_merge_patch. by destruct (get_string v).
  - reflexivity.
Qed.

Lemma getJsonValue_parts config name defaultValue :
  splitPath name ≠ [] →
  getJsonValue config name defaultValue
  = match get_path config (splitPath name) with
    | None => Returns None
    | Some j => get_as defaultValue j
    end.
Proof. unfold getJsonValue. by destruct (splitPath name). Qed.

(** The setter of a parameter receives what [spec_setting] describes, when
    the default configuration holds the parameter's default. *)
Lemma setting_of_merged defaults user param d :
  splitPath (path param) ≠ [] → storable (defaultValue param) →
  json_of_any (defaultValue param) = Some d →
  get_path defaults (splitPath (path param)) = Some d →
  (found ← getJsonValue
             (if is_null user then defaults else mergeConfig defaults user)
             (path param) (defaultValue param);
   Returns (default (defaultValue param) found))
  = spec_setting user param.
Proof.
  intros Hparts Hstore Hd Hget. unfold spec_setting.
  rewrite getJsonValue_parts by done.
  destruct (is_null user) eqn:Hnull.
  - destruct user; try discriminate Hnull.
    rewrite Hget, (get_as_default _ _ Hstore Hd), get_path_null by done.
    reflexivity.
  - unfold mergeConfig.
    pose proof (get_path_merge_patch _ defaults user d Hparts Hnull Hget)
      as Hmerged.
    destruct (get_path user (splitPath (path param))) as [v|].
    + rewrite Hmerged. destruct (is_null v) eqn:Hv.
      * by destruct v.
      * rewrite <- (get_as_merge_patch _ d v Hd).
        destruct v; try discriminate Hv; reflexivity.
    + destruct Hmerged as [-> | ->]; [reflexivity|].
      by rewrite (get_as_default _ _ Hstore Hd).
Qed.

Lemma applyConfig_mapM params config (f : ConfigParam → outcome any) :
  (∀ param, param ∈ params →
     (found ← getJsonValue config (path param) (defaultValue param);
      Returns (default (defaultValue param) found)) = f param) →
  applyConfig params config = mapM f params.
Proof.
  induction params as [|param params IH]; intros Hf; [done|].
  cbn [applyConfig mapM]. rewrite <- (Hf param) by (by left).
  rewrite IH by (intros p Hp; apply Hf; by right).
  destruct (getJsonValue config (path param) (defaultValue param)); [|done].
  reflexivity.
Qed.

Lemma mapM_Returns {A B} (f : A → outcome B) l k :
  mapM f l = Returns k → Forall2 (λ x y, f x = Returns y) l k.
Proof.
  revert k. induction l as [|x l IH]; intros k; cbn [mapM].
  - intros [= <-]. constructor.
  - destruct (f x) as [y|] eqn:Hy; [|discriminate].
    cbn [mbind outcome_bind].
    destruct (mapM f l) as [k'|]; [|discriminate].
    intros [= <-]. constructor; [done | by apply IH].
Qed.

(** For well-formed parameters, [initialize] hands every setter the value
    that [spec_setting] reads off the expanded user configuration. *)
Lemma initialize_spec params userConfig user :
  wf_params params →
  processUserConfig userConfig = Returns user →
  ∃ defaults,
    buildDefaultConfig params = Returns defaults ∧
    initialize params userConfig
    = (values ← mapM (spec_setting user) params;
       Returns (values, if is_null user then defaults
                        else mergeConfig defaults user)).
Proof.
  intros Hwf Huser.
  destruct (buildDefaultConfig_defaults params Hwf) as (defaults & Hb & Hd).
  exists defaults. split; [done|].
  unfold initialize. rewrite Huser, Hb. cbn [mbind outcome_bind].
  rewrite (applyConfig_mapM params _ (spec_setting user)); [done|].
  intros param Hparam.
  destruct Hwf as [Hall _]. rewrite Forall_forall in Hall.
  destruct (Hall param Hparam) as [Hparts Hstore].
  destruct (storable_json_of_any _ Hstore) as [d Hjson].
  apply (setting_of_merged defaults user param d); try done.
  rewrite <- Hjson. by apply Hd.
Qed.

(** *** Dotted keys *)

Lemma append_nil_r s : s +:+ "" = s.
Proof.
  induction s as [|c s IH]; [done|].
  change (String c s +:+ "") with (String c (s +:+ "")). by rewrite IH.
Qed.

Lemma append_assoc s t u : (s +:+ t) +:+ u = s +:+ t +:+ u.
Proof.
  induction s as [|c s IH]; [done|].
  change (String c s +:+ t) with (String c (s +:+ t)).
  change (String c (s +:+ t) +:+ u) with (String c ((s +:+ t) +:+ u)).
  change (String c s +:+ t +:+ u) with (String c (s +:+ t +:+ u)).
  by rewrite IH.
Qed.

Lemma splitPath_from_dot_free s : ∀ rest current,
  dot_free s = true →
  splitPath_from (s +:+ rest) current = splitPath_from rest (current +:+ s).
Proof.
  induction s as [|c s IH]; intros rest current Hs.
  - by rewrite append_nil_r.
  - simpl in Hs. apply andb_true_iff in Hs as [Hc Hs].
    apply negb_true_iff in Hc.
    change (String c s +:+ rest) with (String c (s +:+ rest)).
    cbn [splitPath_from]. rewrite Hc, IH by done. f_equal.
    rewrite append_assoc. reflexivity.
Qed.

Lemma splitPath_dotted parts :
  Forall plain_key parts → splitPath (dotted parts) = parts.
Proof.
  unfold splitPath, dotted.
  induction parts as [|key rest IH]; intros Hkeys; [done|].
  apply Forall_cons in Hkeys as [[Hne Hfree] Hrest].
  destruct rest as [|key' rest].
  - cbn [String.concat].
    rewrite <- (append_nil_r key) at 1.
    rewrite splitPath_from_dot_free by done. cbn [splitPath_from].
    change ("" +:+ key) with key. by rewrite decide_False.
  - cbn [String.concat].
    change (String.append key (String.append "." ?s))
      with (key +:+ String "." s).
    rewrite splitPath_from_dot_free by done. cbn [splitPath_from].
    change ("" +:+ key) with key.
    change (Ascii.eqb "." ".") with true. cbn iota.
    rewrite decide_False by done. f_equal. by apply IH.
Qed.

Lemma set_at_fresh_nested parts value v :
  parts ≠ [] → json_of_any value = Some v →
  set_at (JObject ∅) parts value = Returns (nested parts v).
Proof.
  intros Hne Hv. induction parts as [|key rest IH]; [done|].
  destruct (decide (rest = [])) as [-> | Hrest].
  - rewrite set_at_last, Hv. cbn [nested]. by rewrite insert_empty.
  - rewrite set_at_cons by done. rewrite lookup_empty. cbn [default from_option].
    rewrite IH by done. cbn [mbind outcome_bind nested].
    by rewrite insert_empty.
Qed.

Lemma set_at_null_nested parts value v :
  parts ≠ [] → json_of_any value = Some v →
  set_at JNull parts value = Returns (nested parts v).
Proof.
  intros Hne Hv. destruct parts as [|key rest]; [done|].
  destruct (decide (rest = [])) as [-> | Hrest].
  - by rewrite set_at_last, Hv.
  - rewrite set_at_cons by done.
    by rewrite (set_at_fresh_nested rest value v).
Qed.

Lemma plain_value_json_to_any v :
  plain_value v → json_of_any (json_to_any v) = Some v.
Proof.
  destruct v; simpl; try done. intros Hn. by rewrite int_wrap_small.
Qed.

(** A flat dotted key and the nested objects it stands for expand to the
    same configuration. *)
Lemma processUserConfig_dotted parts value :
  parts ≠ [] → Forall plain_key parts → plain_value value →
  processUserConfig (JObject {[ dotted parts := value ]})
  = Returns (nested parts value) ∧
  processUserConfig (nested parts value) = Returns (nested parts value).
Proof.
  intros Hne Hkeys Hvalue. split.
  - rewrite processUserConfig_singleton, splitPath_dotted by done.
    apply set_at_null_nested; [done|]. by apply plain_value_json_to_any.
  - destruct parts as [|key rest]; [done|]. cbn [nested].
    apply Forall_cons in Hkeys as [Hkey Hrest].
    assert (Hsplit : splitPath key = [key])
      by (apply (splitPath_dotted [key]); by constructor).
    rewrite processUserConfig_singleton, Hsplit, set_at_last.
    assert (Hinner : json_of_any (json_to_any (nested rest value))
                     = Some (nested rest value)).
    { destruct rest; [by apply plain_value_json_to_any | done]. }
    by rewrite Hinner.
Qed.

(** *** Components of a path *)

Lemma dot_free_app s t : dot_free (s +:+ t) = dot_free s && dot_free t.
Proof.
  induction s as [|c s IH]; [done|].
  change (String c s +:+ t) with (String c (s +:+ t)). simpl.
  by rewrite IH, andb_assoc.
Qed.

Lemma append_not_empty s c : s +:+ String c "" ≠ "".
Proof. by destruct s. Qed.

Lemma splitPath_from_plain path : ∀ current,
  dot_free current = true → Forall plain_key (splitPath_from path current).
Proof.
  induction path as [|c rest IH]; intros current Hfree; cbn [splitPath_from].
  - destruct (decide (current = "")); [apply Forall_nil_2|].
    apply Forall_cons. split; [done | apply Forall_nil_2].
  - destruct (Ascii.eqb c ".") eqn:Hc.
    + destruct (decide (current = "")); [by apply IH|].
      apply Forall_cons. split; [done | by apply IH].
    + apply IH. rewrite dot_free_app, Hfree. simpl. by rewrite Hc.
Qed.

Lemma splitPath_plain_key key : plain_key key → splitPath key = [key].
Proof.
  intros Hkey. change key with (dotted [key]) at 1.
  apply splitPath_dotted. apply Forall_cons. split; [done | apply Forall_nil_2].
Qed.

(** *** The order of [items()] *)

Lemma ascii_compare_trans_le a b c :
  Ascii.compare a b ≠ Gt → Ascii.compare b c ≠ Gt → Ascii.compare a c ≠ Gt.
Proof.
  unfold Ascii.compare. rewrite !N.compare_gt_iff. lia.
Qed.

Lemma string_leb_trans s1 : ∀ s2 s3,
  String.leb s1 s2 = true → String.leb s2 s3 = true →
  String.leb s1 s3 = true.
Proof.
  unfold String.leb.
  induction s1 as [|c1 s1 IH]; intros [|c2 s2] [|c3 s3]; simpl; try done.
  destruct (Ascii.compare c1 c2) eqn:H12; try done;
    destruct (Ascii.compare c2 c3) eqn:H23; try done;
    try (apply Ascii.compare_eq_iff in H12 as ->);
    try (apply Ascii.compare_eq_iff in H23 as ->);
    rewrite ?H12, ?H23; try done.
  - assert (Hc : Ascii.compare c3 c3 = Eq) by apply N.compare_refl.
    rewrite Hc. apply IH.
  - intros _ _.
    assert (Hc : Ascii.compare c1 c3 = Lt).
    { unfold Ascii.compare in *. rewrite N.compare_lt_iff in *. lia. }
    by rewrite Hc.
Qed.

#[global] Instance key_le_trans : Transitive key_le.
Proof. intros a b c. unfold key_le. apply string_leb_trans. Qed.

#[global] Instance key_le_total : Total key_le.
Proof. intros a b. unfold key_le. apply String.leb_total. Qed.

Lemma items_Permutation m : items m ≡ₚ map_to_list m.
Proof. apply merge_sort_Permutation. Qed.

Lemma items_Sorted m : Sorted key_le (items m).
Proof. apply (Sorted_merge_sort key_le). Qed.

Lemma elem_of_items m key value :
  (key, value) ∈ items m ↔ m !! key = Some value.
Proof. rewrite items_Permutation. apply elem_of_map_to_list. Qed.

Lemma NoDup_items_keys m : NoDup (items m).*1.
Proof. rewrite items_Permutation. apply NoDup_fst_map_to_list. Qed.

(** *** [setJsonValue] on a configuration that is null or an object *)

Lemma get_path_member j key : get_path j [key] = member j key.
Proof. simpl. by destruct (member j key). Qed.

Lemma set_at_passable q : ∀ current value result,
  passable current → set_at current q value = Returns result →
  passable result.
Proof.
  intros current value result Hcur Hset.
  destruct q as [|key rest]; [discriminate Hset|].
  destruct (decide (rest = [])) as [-> | Hrest].
  - rewrite set_at_last in Hset.
    destruct (json_of_any value); [|by injection Hset as <-].
    destruct current; try discriminate Hset; injection Hset as <-; by right.
  - rewrite set_at_cons in Hset by done.
    destruct current; try discriminate Hset.
    + destruct (set_at (JObject ∅) rest value); [|discriminate Hset].
      injection Hset as <-. by right.
    + destruct (set_at (default (JObject ∅) (members !! key)) rest value);
        [|discriminate Hset].
      injection Hset as <-. by right.
Qed.

Lemma set_at_member_other current key rest value result k :
  set_at current (key :: rest) value = Returns result → k ≠ key →
  member result k = member current k.
Proof.
  intros Hset Hne. rewrite <- !get_path_member.
  apply (set_at_get_other _ _ _ _ _ Hset).
  - intros Hp. apply prefix_cons_inv_1 in Hp. done.
  - intros Hp. apply prefix_cons_inv_1 in Hp. done.
Qed.

(** [setJsonValue] on a configuration that is null or an object, by the
    member under the first component. *)
Lemma set_at_passable_cons current key rest value :
  passable current → rest ≠ [] →
  set_at current (key :: rest) value
  = (child ← set_at (default (JObject ∅) (member current key)) rest value;
     Returns (JObject (<[key := child]>
                         (match current with JObject m => m | _ => ∅ end)))).
Proof.
  intros Hp Hrest. rewrite set_at_cons by done.
  destruct Hp as [-> | Hp]; [|by destruct current].
  cbn [member default from_option id].
  destruct (set_at (JObject ∅) rest value); [|done].
  cbn [mbind outcome_bind]. by rewrite insert_empty.
Qed.

Lemma set_at_passable_last current last value :
  passable current →
  set_at current [last] value
  = match json_of_any value with
    | None => Returns current
    | Some v =>
        Returns (JObject (<[last := v]>
                            (match current with JObject m => m | _ => ∅ end)))
    end.
Proof.
  intros Hp. rewrite set_at_last. destruct (json_of_any value); [|done].
  destruct Hp as [-> | Hp]; [|by destruct current].
  by rewrite insert_empty.
Qed.

(** What [setJsonValue] does under the first component of the path depends
    on the configuration only through the member that is there. *)
Lemma set_at_same_member current1 current2 key rest value :
  passable current1 → passable current2 →
  member current1 key = member current2 key →
  match set_at current1 (key :: rest) value,
        set_at current2 (key :: rest) value with
  | Returns result1, Returns result2 => member result1 key = member result2 key
  | Fails f1, Fails f2 => f1 = f2
  | _, _ => False
  end.
Proof.
  intros H1 H2 Hsame.
  destruct (decide (rest = [])) as [-> | Hrest].
  - rewrite !set_at_passable_last by done.
    destruct (json_of_any value) as [v|]; [|done].
    cbn [member]. by rewrite !lookup_insert_eq.
  - rewrite !set_at_passable_cons by done. rewrite Hsame.
    destruct (set_at (default (JObject ∅) (member current2 key)) rest value);
      [|done].
    cbn [mbind outcome_bind member]. by rewrite !lookup_insert_eq.
Qed.

(** The members of the final configuration of [initialize]. *)
Lemma member_finalConfig defaults user key :
  passable user →
  member (if is_null user then defaults else mergeConfig defaults user) key
  = match member user key with
    | None => member defaults key
    | Some JNull => None
    | Some value =>
        Some (merge_patch (default JNull (member defaults key)) value)
    end.
Proof.
  intros [-> | Hobj]; [done|]. destruct user; try done.
  unfold mergeConfig. cbn [is_null]. apply member_merge_patch.
Qed.

Lemma getJsonValue_same_member config1 config2 name defaultValue :
  (∀ k, first_key name = Some k → member config1 k = member config2 k) →
  getJsonValue config1 name defaultValue
  = getJsonValue config2 name defaultValue.
Proof.
  unfold first_key, getJsonValue. intros Hsame.
  destruct (splitPath name) as [|k parts]; [done|].
  cbn [get_path]. by rewrite (Hsame k eq_refl).
Qed.

Lemma applyConfig_same_members params config1 config2 :
  (∀ param k, param ∈ params → first_key (path param) = Some k →
     member config1 k = member config2 k) →
  applyConfig params config1 = applyConfig params config2.
Proof.
  induction params as [|param params IH]; intros Hsame; [done|].
  cbn [applyConfig].
  rewrite (getJsonValue_same_member config1 config2)
    by (intros k; apply Hsame; by left).
  rewrite IH; [done|]. intros p k Hp. apply Hsame. by right.
Qed.

(** *** The expansion of dotted keys *)

Lemma json_of_json_to_any_given v :
  json_of_any (json_to_any v) = as_given v.
Proof. by destruct v. Qed.

Lemma int_wrap_range z : - 2 ^ 31 ≤ int_wrap z < 2 ^ 31.
Proof. unfold int_wrap. pose proof (Z.mod_pos_bound (z + 2 ^ 31) (2 ^ 32)). lia. Qed.

Lemma as_given_stable v g : as_given v = Some g → as_given g = Some g.
Proof.
  destruct v; try discriminate; intros [= <-]; try done.
  simpl. by rewrite int_wrap_small by apply int_wrap_range.
Qed.

Lemma get_path_app j p : ∀ q,
  get_path j (p ++ q) = get_path j p ≫= λ x, get_path x q.
Proof.
  revert j. induction p as [|key rest IH]; intros j q; [done|].
  cbn [app get_path]. destruct (member j key) as [child|]; [|done].
  cbn [mbind option_bind]. apply IH.
Qed.

Lemma set_at_is_object q current value result :
  q ≠ [] → is_object current = true →
  set_at current q value = Returns result → is_object result = true.
Proof.
  intros Hq Hobj Hset. destruct q as [|key rest]; [done|].
  destruct current; try done.
  destruct (decide (rest = [])) as [-> | Hrest].
  - rewrite set_at_last in Hset.
    destruct (json_of_any value); by injection Hset as <-.
  - rewrite set_at_cons in Hset by done.
    destruct (set_at (default (JObject ∅) (members !! key)) rest value);
      [|discriminate Hset].
    by injection Hset as <-.
Qed.

(** Where the nodes on the way are objects or missing, there are objects
    on the way afterwards, also when the value is null. *)
Lemma set_at_get_on_the_way q : ∀ current value result r,
  (∀ r' x, r' ≠ [] → r' `prefix_of` q → r' ≠ q →
     get_path current r' = Some x → is_object x = true) →
  set_at current q value = Returns result →
  r ≠ [] → r `prefix_of` q → r ≠ q →
  ∃ o, get_path result r = Some (JObject o).
Proof.
  induction q as [|key rest IH]; intros current value result r Hway Hset
    Hr Hpre Hne; [discriminate Hset|].
  destruct r as [|a r']; [done|].
  pose proof (prefix_cons_inv_1 _ _ _ _ Hpre) as ->.
  apply prefix_cons_inv_2 in Hpre.
  assert (Hrest : rest ≠ []).
  { intros ->. apply prefix_nil_inv in Hpre as ->. done. }
  assert (Hne' : r' ≠ rest) by congruence.
  rewrite set_at_cons in Hset by done.
  assert (Hchild : ∃ start child m0,
            set_at start rest value = Returns child ∧
            result = JObject (<[key := child]> m0) ∧
            is_object start = true ∧
            ∀ r'' x, r'' ≠ [] → r'' `prefix_of` rest → r'' ≠ rest →
              get_path start r'' = Some x → is_object x = true).
  { destruct current; try discriminate Hset.
    - destruct (set_at (JObject ∅) rest value) as [child|] eqn:Hc;
        [|discriminate Hset].
      injection Hset as <-. exists (JObject ∅), child, ∅.
      rewrite insert_empty. repeat split; try done.
      intros r'' x Hr'' _ _ Hx.
      by rewrite get_path_empty_object in Hx.
    - destruct (set_at (default (JObject ∅) (members !! key)) rest value)
        as [child|] eqn:Hc; [|discriminate Hset].
      injection Hset as <-.
      exists (default (JObject ∅) (members !! key)), child, members.
      repeat split; try done.
      + destruct (members !! key) as [x0|] eqn:Hkey; [|done]. simpl.
        apply (Hway [key] x0); [done | | congruence |].
        * apply prefix_cons, prefix_nil.
        * simpl. by rewrite Hkey.
      + intros r'' x Hr'' Hpre'' Hne'' Hx.
        destruct (members !! key) as [x0|] eqn:Hkey; simpl in Hx.
        * apply (Hway (key :: r'') x); [done | by apply prefix_cons
                                       | congruence |].
          simpl. by rewrite Hkey.
        * by rewrite get_path_empty_object in Hx. }
  destruct Hchild as (start & child & m0 & Hc & -> & Hstart & Hway').
  cbn [get_path member]. rewrite lookup_insert_eq. cbn [mbind option_bind].
  destruct (decide (r' = [])) as [-> | Hr'].
  - pose proof (set_at_is_object rest start value child Hrest Hstart Hc).
    destruct child; try done. eauto.
  - by apply (IH start value child r').
Qed.

(** A null leaves nothing at its path where nothing was. *)
Lemma set_at_none_leaf q : ∀ current value result,
  json_of_any value = None →
  set_at current q value = Returns result →
  get_path current q = None → get_path result q = None.
Proof.
  induction q as [|key rest IH]; intros current value result Hv Hset Hnone;
    [discriminate Hset|].
  destruct (decide (rest = [])) as [-> | Hrest].
  - rewrite set_at_last, Hv in Hset. by injection Hset as <-.
  - rewrite set_at_cons in Hset by done.
    destruct current; try discriminate Hset.
    + destruct (set_at (JObject ∅) rest value) as [child|] eqn:Hc;
        [|discriminate Hset].
      injection Hset as <-. cbn [get_path member].
      rewrite lookup_singleton_eq. cbn [mbind option_bind].
      apply (IH _ _ _ Hv Hc). by apply get_path_empty_object.
    + destruct (set_at (default (JObject ∅) (members !! key)) rest value)
        as [child|] eqn:Hc; [|discriminate Hset].
      injection Hset as <-. cbn [get_path member].
      rewrite lookup_insert_eq. cbn [mbind option_bind].
      apply (IH _ _ _ Hv Hc).
      cbn [get_path member] in Hnone.
      destruct (members !! key); [done|].
      by apply get_path_empty_object.
Qed.

Lemma set_at_not_empty_object q current value result :
  current ≠ JObject ∅ → passable current →
  set_at current q value = Returns result → result ≠ JObject ∅.
Proof.
  intros Hne Hp Hset. destruct q as [|key rest]; [discriminate Hset|].
  destruct (decide (rest = [])) as [-> | Hrest].
  - rewrite set_at_passable_last in Hset by done.
    destruct (json_of_any value); injection Hset as <-; [|done].
    intros [= H]. by apply insert_non_empty in H.
  - rewrite set_at_passable_cons in Hset by done.
    destruct (set_at _ rest value); [|discriminate Hset].
    injection Hset as <-. intros [= H]. by apply insert_non_empty in H.
Qed.

Lemma head_splitPath_plain key k rest :
  splitPath key = k :: rest → plain_key k.
Proof.
  intros Hparts.
  pose proof (splitPath_from_plain key "" eq_refl) as Hall.
  fold (splitPath key) in Hall. rewrite Hparts in Hall.
  by apply Forall_cons in Hall as [? _].
Qed.

(** One turn of the loop of [processUserConfig], for a key that leads
    through none of those seen and through which none of them leads. *)
Lemma set_at_members_expanded done user key v :
  members_expanded done user →
  splitPath key ≠ [] →
  (∀ key' v', (key', v') ∈ done →
     ¬ splitPath key' `prefix_of` splitPath key ∧
     ¬ splitPath key `prefix_of` splitPath key') →
  ∃ user',
    set_at user (splitPath key) (json_to_any v) = Returns user' ∧
    members_expanded (done ++ [(key, v)]) user'.
Proof.
  intros (Hp & Hne & Hat & Hway & Honly & Htop) Hq Hfree.
  assert (Hobjects : ∀ r x, r ≠ [] → r `prefix_of` splitPath key →
            r ≠ splitPath key → get_path user r = Some x →
            is_object x = true).
  { intros r x Hr Hpre Hrq Hx.
    destruct (Honly r x Hr Hx) as (key' & v' & Hin & [Hk | Hk]).
    - destruct (Hfree key' v' Hin) as [Hno _]. destruct Hno.
      by transitivity r.
    - destruct (decide (r = splitPath key')) as [-> | Hrk].
      + destruct (Hfree key' v' Hin) as [Hno _]. by destruct Hno.
      + destruct (Hway key' v' r Hin Hr Hk Hrk) as [o Ho].
        rewrite Ho in Hx. by injection Hx as <-. }
  destruct (set_at_returns (splitPath key) user (json_to_any v) Hq)
    as [user' Hset].
  { intros r x Hpre Hrq Hx. destruct (decide (r = [])) as [-> | Hr].
    - by injection Hx as <-.
    - right. by apply (Hobjects r x). }
  exists user'. split; [done|].
  assert (Hframe : ∀ P, ¬ P `prefix_of` splitPath key →
            ¬ splitPath key `prefix_of` P →
            get_path user' P = get_path user P).
  { intros P H1 H2. by apply (set_at_get_other _ _ _ _ _ Hset). }
  assert (Hnew_way : ∀ P, P ≠ [] → P `prefix_of` splitPath key →
            P ≠ splitPath key → ∃ o, get_path user' P = Some (JObject o)).
  { intros P HP Hpre HPq.
    by apply (set_at_get_on_the_way _ _ _ _ P Hobjects Hset). }
  split; [exact (set_at_passable _ _ _ _ Hp Hset)|].
  split; [exact (set_at_not_empty_object _ _ _ _ Hne Hp Hset)|].
  split; [|split; [|split]].
  - (* what was given is at and below the keys *)
    intros key' v' Q [Hin | [= -> ->]%list_elem_of_singleton]%elem_of_app.
    + destruct (Hfree key' v' Hin) as [H1 H2].
      rewrite Hframe; [by apply Hat | |].
      * intros Hpre. apply H1. by apply prefix_app_l in Hpre.
      * intros Hpre.
        destruct (prefix_weak_total (splitPath key) (splitPath key')
                    (splitPath key' ++ Q) Hpre) as [? | ?]; [|done..].
        by apply prefix_app_r.
    + rewrite get_path_app.
      destruct (as_given v) as [g|] eqn:Hg.
      * rewrite <- json_of_json_to_any_given in Hg.
        by rewrite (set_at_get_same _ _ _ _ _ Hg Hset).
      * rewrite <- json_of_json_to_any_given in Hg.
        rewrite (set_at_none_leaf _ _ _ _ Hg Hset); [done|].
        destruct (get_path user (splitPath key)) as [x|] eqn:Hx; [|done].
        destruct (Honly _ x Hq Hx) as (key' & v' & Hin & [Hk | Hk]);
          destruct (Hfree key' v' Hin); done.
  - (* objects on the way *)
    intros key' v' P [Hin | [= -> ->]%list_elem_of_singleton]%elem_of_app
      HP Hpre HPk; [|by apply Hnew_way].
    destruct (Hfree key' v' Hin) as [H1 H2].
    destruct (decide (splitPath key `prefix_of` P)) as [HqP | HqP].
    { destruct H2. by transitivity P. }
    destruct (decide (P `prefix_of` splitPath key)) as [HPq | HPq].
    { apply Hnew_way; [done..|]. intros ->. done. }
    rewrite Hframe by done. by apply (Hway key' v').
  - (* nothing else *)
    intros P x HP Hx.
    destruct (decide (splitPath key `prefix_of` P)) as [HqP | HqP].
    { exists key, v. split; [|by left].
      apply elem_of_app. right. by apply list_elem_of_singleton. }
    destruct (decide (P `prefix_of` splitPath key)) as [HPq | HPq].
    { exists key, v. split; [|by right].
      apply elem_of_app. right. by apply list_elem_of_singleton. }
    rewrite Hframe in Hx by done.
    destruct (Honly P x HP Hx) as (key' & v' & Hin & Hcase).
    exists key', v'. split; [|done]. apply elem_of_app. by left.
  - (* the top level *)
    intros k x Hx.
    destruct (splitPath key) as [|k0 rest] eqn:Hparts; [done|].
    destruct (decide (k = k0)) as [-> | Hk].
    + split; [by eapply head_splitPath_plain|].
      destruct (decide (rest = [])) as [-> | Hrest].
      * rewrite set_at_passable_last, json_of_json_to_any_given in Hset
          by done.
        destruct (as_given v) as [g|] eqn:Hg; injection Hset as <-.
        -- cbn [member] in Hx. rewrite lookup_insert_eq in Hx.
           injection Hx as <-. by eapply as_given_stable.
        -- by apply (Htop k0).
      * destruct (Hnew_way [k0]) as [o Ho]; [done | | congruence |].
        { apply prefix_cons, prefix_nil. }
        rewrite get_path_member, Hx in Ho. by injection Ho as ->.
    + rewrite (set_at_member_other _ _ _ _ _ _ Hset Hk) in Hx.
      by apply Htop.
Qed.

(** The loop of [processUserConfig] over members none of which leads
    through another. *)
Lemma process_members_expanded todo : ∀ done user,
  members_expanded done user →
  Forall (λ e, splitPath e.1 ≠ []) todo →
  (∀ i j e1 e2, (done ++ todo) !! i = Some e1 → (done ++ todo) !! j = Some e2 →
     i ≠ j → ¬ splitPath e1.1 `prefix_of` splitPath e2.1) →
  ∃ user',
    process_members user todo = Returns user' ∧
    members_expanded (done ++ todo) user'.
Proof.
  induction todo as [|[key v] todo IH]; intros done user Hinv Hall Hfree.
  - rewrite app_nil_r. simpl. eauto.
  - apply Forall_cons in Hall as [Hq Hall]. simpl in Hq.
    destruct (set_at_members_expanded done user key v Hinv Hq)
      as (user' & Hset & Hinv').
    { intros key' v' [i Hi]%list_elem_of_lookup.
      assert (Hi' : (done ++ (key, v) :: todo) !! i = Some (key', v'))
        by (by apply lookup_app_l_Some).
      assert (Hj : (done ++ (key, v) :: todo) !! length done
                   = Some (key, v))
        by apply list_lookup_middle, eq_refl.
      apply lookup_lt_Some in Hi.
      split.
      - apply (Hfree i (length done) _ _ Hi' Hj). lia.
      - apply (Hfree (length done) i _ _ Hj Hi'). lia. }
    cbn [process_members]. unfold setJsonValue. rewrite Hset.
    cbn [mbind outcome_bind].
    rewrite (cons_middle (key, v) done todo), app_assoc in Hfree |- *.
    by apply IH.
Qed.

(** A user's object in which no key leads through another is expanded
    into the nested configuration it stands for. *)
Lemma processUserConfig_expands m :
  unambiguous m →
  ∃ user,
    processUserConfig (JObject m) = Returns user ∧
    expands_to m user ∧
    ∀ k x, member user k = Some x → plain_key k ∧ as_given x = Some x.
Proof.
  intros [Hparts Hfree].
  destruct (process_members_expanded (items m) [] JNull)
    as (user & Huser & Hp & Hne & Hat & Hway & Honly & Htop).
  - split; [by left|]. split; [done|].
    split; [intros ??? []%elem_of_nil|].
    split; [intros ??? []%elem_of_nil|].
    split; [|done].
    intros P x HP Hx. by rewrite get_path_null in Hx.
  - apply Forall_forall. intros [key v] Hin%elem_of_items. simpl.
    apply Hparts. by rewrite Hin.
  - intros i j [k1 v1] [k2 v2] Hi Hj Hij. simpl in *.
    pose proof (NoDup_items_keys m) as Hnd.
    assert (H1 : m !! k1 = Some v1)
      by (by apply elem_of_items, list_elem_of_lookup_2 with i).
    assert (H2 : m !! k2 = Some v2)
      by (by apply elem_of_items, list_elem_of_lookup_2 with j).
    apply Hfree; [by rewrite H1 | by rewrite H2 |].
    intros ->. apply Hij.
    apply (NoDup_lookup _ i j k2 Hnd);
      rewrite list_lookup_fmap; [by rewrite Hi | by rewrite Hj].
  - simpl in *. exists user. split; [done|]. split; [|done].
    split; [done|]. split; [done|].
    split; [|split].
    + intros key v Q Hkey. apply Hat. by apply elem_of_items.
    + intros key P [v Hkey] HP Hpre HPk.
      apply (Hway key v); [by apply elem_of_items | done..].
    + intros P x HP Hx.
      destruct (Honly P x HP Hx) as (key & v & Hin%elem_of_items & Hcase).
      exists key. by rewrite Hin.
Qed.

(** *** Nested configurations *)

Lemma foldl_insert_list_to_map (l : list (string * json)) :
  foldl (λ (acc : gmap string json) e, <[e.1 := e.2]> acc) ∅ l
  = list_to_map (reverse l).
Proof.
  induction l as [|e l IH] using rev_ind; [done|].
  rewrite foldl_app, reverse_snoc. cbn [foldl list_to_map foldr].
  by rewrite IH.
Qed.

Lemma process_members_plain l : ∀ o,
  Forall (λ e, plain_key e.1 ∧ as_given e.2 = Some e.2) l →
  process_members (JObject o) l
  = Returns (JObject (foldl (λ (acc : gmap string json) e,
                               <[e.1 := e.2]> acc) o l)).
Proof.
  induction l as [|[k x] l IH]; intros o Hl; [done|].
  apply Forall_cons in Hl as [[Hk Hx] Hl]. simpl in Hk, Hx.
  cbn [process_members foldl]. unfold setJsonValue.
  rewrite splitPath_plain_key, set_at_last by done.
  rewrite json_of_json_to_any_given, Hx. cbn [mbind outcome_bind].
  by apply IH.
Qed.

(** A configuration without dotted keys at the top level is its own
    expansion. *)
Lemma processUserConfig_nested user :
  passable user → user ≠ JObject ∅ →
  (∀ k x, member user k = Some x → plain_key k ∧ as_given x = Some x) →
  processUserConfig user = Returns user.
Proof.
  intros [-> | Hobj] Hne Htop; [done|].
  destruct user as [| | | | | |o]; try done.
  unfold processUserConfig.
  assert (Hall : Forall (λ e, plain_key e.1 ∧ as_given e.2 = Some e.2)
                   (items o)).
  { apply Forall_forall. intros [k x] Hin%elem_of_items. by apply Htop. }
  assert (Hmap : foldl (λ (acc : gmap string json) e, <[e.1 := e.2]> acc)
                   ∅ (items o) = o).
  { rewrite foldl_insert_list_to_map.
    rewrite <- (list_to_map_to_list o) at 2.
    apply list_to_map_proper.
    - rewrite fmap_reverse, reverse_Permutation. apply NoDup_items_keys.
    - by rewrite reverse_Permutation, items_Permutation. }
  destruct (items o) as [|[k x] l] eqn:Hitems.
  { simpl in Hmap. by subst. }
  apply Forall_cons in Hall as [[Hk Hx] Hall]. simpl in Hk, Hx.
  cbn [process_members]. unfold setJsonValue.
  rewrite splitPath_plain_key, set_at_last by done.
  rewrite json_of_json_to_any_given, Hx. cbn [mbind outcome_bind].
  rewrite process_members_plain by done.
  cbn [foldl fst snd] in Hmap. rewrite insert_empty in Hmap.
  by rewrite Hmap.
Qed.

(** A conversion fails with [type_error] 302, or it is the conversion of
    a float that is no [int]. *)
Lemma convert_to_fails defaultValue v f :
  convert_to defaultValue v = Fails f →
  f = type_error 302 ∨
  ∃ n x, defaultValue = any_int n ∧ v = JFloat x ∧
         ¬ (- 2 ^ 31 ≤ truncate x < 2 ^ 31) ∧
         f = undefined_behaviour "double to int out of range".
Proof.
  destruct defaultValue; simpl; try discriminate;
    destruct v; simpl; try discriminate; try (intros [= <-]; by left).
  case_bool_decide as Hr; [discriminate|].
  intros [= <-]. right. eauto 8.
Qed.

Lemma configuration_expanded params m :
  wf_params params → unambiguous m →
  ∃ user defaults,
    processUserConfig (JObject m) = Returns user ∧
    expands_to m user ∧
    processUserConfig user = Returns user ∧
    initialize params user = initialize params (JObject m) ∧
    buildDefaultConfig params = Returns defaults ∧
    initialize params (JObject m)
    = (values ← mapM (spec_setting user) params;
       Returns (values, if is_null user then defaults
                        else mergeConfig defaults user)) ∧
    (∀ param key v Q,
       param ∈ params → m !! key = Some v →
       splitPath (path param) = splitPath key ++ Q →
       spec_setting user param
       = match as_given v ≫= (λ g, get_path g Q) with
         | None | Some JNull => Returns (defaultValue param)
         | Some x => convert_to (defaultValue param) x
         end) ∧
    (∀ param,
       param ∈ params →
       (∀ key, is_Some (m !! key) →
          ¬ splitPath key `prefix_of` splitPath (path param) ∧
          ¬ splitPath (path param) `prefix_of` splitPath key) →
       spec_setting user param = Returns (defaultValue param)).
Proof.
  intros Hwf Hm.
  destruct (processUserConfig_expands m Hm) as (user & Huser & Hexp & Htop).
  destruct (initialize_spec params (JObject m) user Hwf Huser)
    as (defaults & Hb & Hinit).
  pose proof Hexp as (Hp & Hne & Hat & Hway & Honly).
  assert (Hfix : processUserConfig user = Returns user)
    by (by apply processUserConfig_nested).
  exists user, defaults.
  split; [done|]. split; [done|]. split; [done|].
  split; [unfold initialize; by rewrite Hfix, Huser|].
  split; [done|]. split; [done|]. split.
  - intros param key v Q _ Hkey Hpath. unfold spec_setting.
    by rewrite Hpath, (Hat key v Q Hkey).
  - intros param Hparam Hfree. unfold spec_setting.
    destruct (get_path user (splitPath (path param))) as [x|] eqn:Hx;
      [|done].
    destruct Hwf as [Hall _]. rewrite Forall_forall in Hall.
    destruct (Hall param Hparam) as [Hparts _].
    destruct (Honly _ x Hparts Hx) as (key & Hkey & [Hk | Hk]);
      destruct (Hfree key Hkey); done.
Qed.

(** *** The expansion is determined *)

(** Two configurations that [m] stands for have the same value at every
    path; [n] bounds how far the keys of [m] reach beyond the path. *)
Lemma expands_to_get_path m user1 user2 :
  expands_to m user1 → expands_to m user2 →
  ∀ (n : nat) P,
    P ≠ [] →
    (∀ key, is_Some (m !! key) → P `prefix_of` splitPath key →
       (length (splitPath key) < length P + n)%nat) →
    get_path user1 P = get_path user2 P.
Proof.
  intros (_ & _ & Hat1 & Hway1 & Honly1) (_ & _ & Hat2 & Hway2 & Honly2).
  assert (Hbelow : ∀ key P, is_Some (m !! key) →
            splitPath key `prefix_of` P →
            get_path user1 P = get_path user2 P).
  { intros key P [v Hkey] [Q ->]. by rewrite (Hat1 key v), (Hat2 key v). }
  induction n as [|n IH]; intros P HP Hbound.
  - (* no key reaches beyond [P] *)
    destruct (get_path user1 P) as [x1|] eqn:H1.
    + destruct (Honly1 P x1 HP H1) as (key & Hkey & [Hk | Hk]).
      * rewrite <- H1. by apply (Hbelow key).
      * specialize (Hbound key Hkey Hk). apply prefix_length in Hk. lia.
    + destruct (get_path user2 P) as [x2|] eqn:H2; [|done].
      destruct (Honly2 P x2 HP H2) as (key & Hkey & [Hk | Hk]).
      * rewrite <- H1, <- H2. by apply (Hbelow key).
      * specialize (Hbound key Hkey Hk). apply prefix_length in Hk. lia.
  - assert (Hon : ∀ key, is_Some (m !! key) → P `prefix_of` splitPath key →
              get_path user1 P = get_path user2 P).
    { intros key Hkey Hk.
      destruct (decide (P = splitPath key)) as [-> | Hne];
        [by apply (Hbelow key)|].
      destruct (Hway1 key P Hkey HP Hk Hne) as [o1 Ho1].
      destruct (Hway2 key P Hkey HP Hk Hne) as [o2 Ho2].
      rewrite Ho1, Ho2. do 2 f_equal. apply map_eq. intros k.
      assert (Hk1 : get_path user1 (P ++ [k]) = o1 !! k).
      { rewrite get_path_app, Ho1. cbn [mbind option_bind].
        apply get_path_member. }
      assert (Hk2 : get_path user2 (P ++ [k]) = o2 !! k).
      { rewrite get_path_app, Ho2. cbn [mbind option_bind].
        apply get_path_member. }
      rewrite <- Hk1, <- Hk2. apply IH; [by destruct P|].
      intros key' Hkey' Hpre. rewrite length_app. simpl.
      assert (HP' : P `prefix_of` splitPath key').
      { destruct Hpre as [Q ->]. rewrite <- app_assoc. by eexists. }
      specialize (Hbound key' Hkey' HP'). lia. }
    destruct (get_path user1 P) as [x1|] eqn:H1.
    + destruct (Honly1 P x1 HP H1) as (key & Hkey & [Hk | Hk]).
      * rewrite <- H1. by apply (Hbelow key).
      * by apply (Hon key).
    + destruct (get_path user2 P) as [x2|] eqn:H2; [|done].
      destruct (Honly2 P x2 HP H2) as (key & Hkey & [Hk | Hk]).
      * rewrite <- H1, <- H2. by apply (Hbelow key).
      * by apply (Hon key).
Qed.

(** There is one configuration that a user's object stands for. *)
Lemma expands_to_unique m user1 user2 :
  expands_to m user1 → expands_to m user2 → user1 = user2.
Proof.
  intros H1 H2.
  assert (Hmembers : ∀ k, member user1 k = member user2 k).
  { intros k. rewrite <- !get_path_member.
    apply (expands_to_get_path m user1 user2 H1 H2
             (S (max_list ((λ e, length (splitPath e.1))
                             <$> map_to_list m)))); [done|].
    intros key [v Hkey] _.
    assert (Hle : (length (splitPath key)
                   ≤ max_list ((λ e, length (splitPath e.1))
                                 <$> map_to_list m))%nat).
    { apply max_list_elem_of_le, list_elem_of_fmap.
      exists (key, v). split; [done|]. by apply elem_of_map_to_list. }
    simpl. lia. }
  destruct H1 as (Hp1 & Hne1 & _), H2 as (Hp2 & Hne2 & _).
  assert (Hnone : ∀ (o : gmap string json),
            o ≠ ∅ → ∃ k, is_Some (member (JObject o) k)).
  { intros o Ho. destruct (map_choose o Ho) as (k & x & Hk).
    exists k. simpl. by rewrite Hk. }
  destruct Hp1 as [-> | Hobj1], Hp2 as [-> | Hobj2]; [done | | |].
  - destruct user2 as [| | | | | |o2]; try done.
    destruct (Hnone o2) as [k [x Hk]]; [congruence|].
    specialize (Hmembers k). rewrite Hk in Hmembers. done.
  - destruct user1 as [| | | | | |o1]; try done.
    destruct (Hnone o1) as [k [x Hk]]; [congruence|].
    specialize (Hmembers k). rewrite Hk in Hmembers. done.
  - destruct user1 as [| | | | | |o1]; try done.
    destruct user2 as [| | | | | |o2]; try done.
    f_equal. apply map_eq. exact Hmembers.
Qed.

(** C9, amended.  For a component whose registered parameters are well
    formed and a user's object [m] in which every key has a component and
    no key leads through another, the construction binds the parameters as
    follows.  The top-level keys with dots are expanded into the nested
    objects before merging: [processUserConfig] returns the one
    configuration [user] that [m] stands for, which holds at and below the
    dotted path of every key what was given under the key (a top-level
    integer as an [int], a top-level null as nothing), objects on the way
    to it, and nothing else.  That nested configuration is its own
    expansion, so the flat dotted keys and the nested objects construct
    the same component.  Every setter receives the value at the
    parameter's dotted path in [user], converted to the registered type
    (numbers to [int] and [double], booleans to [bool] and [int], strings
    to strings; a parameter that is itself JSON receives the value merged
    into its default), and the registered default when the path is absent
    or holds null: for a parameter at or below a key the value is the one
    given under the key, and a parameter whose path is on no way to or
    from a key receives its default.  A value of another type does not
    leave the default in place: the conversion throws [type_error] 302,
    and for a float that is no [int] it is undefined.  In closed form for
    one key with plain components and a plain value: the flat dotted key
    and the nested objects expand to the same configuration. *)
Theorem configuration_binds_user_values params m :
  wf_params params → unambiguous m →
  ∃ user defaults,
    processUserConfig (JObject m) = Returns user ∧
    expands_to m user ∧
    (∀ user', expands_to m user' → user' = user) ∧
    processUserConfig user = Returns user ∧
    initialize params user = initialize params (JObject m) ∧
    buildDefaultConfig params = Returns defaults ∧
    initialize params (JObject m)
    = (values ← mapM (spec_setting user) params;
       Returns (values, if is_null user then defaults
                        else mergeConfig defaults user)) ∧
    (∀ values config,
       initialize params (JObject m) = Returns (values, config) →
       ∀ i param, params !! i = Some param →
         ∃ x, values !! i = Some x ∧ spec_setting user param = Returns x) ∧
    (∀ param key v Q,
       param ∈ params → m !! key = Some v →
       splitPath (path param) = splitPath key ++ Q →
       spec_setting user param
       = match as_given v ≫= (λ g, get_path g Q) with
         | None | Some JNull => Returns (defaultValue param)
         | Some x => convert_to (defaultValue param) x
         end) ∧
    (∀ param,
       param ∈ params →
       (∀ key, is_Some (m !! key) →
          ¬ splitPath key `prefix_of` splitPath (path param) ∧
          ¬ splitPath (path param) `prefix_of` splitPath key) →
       spec_setting user param = Returns (defaultValue param)) ∧
    (∀ defaultValue v f,
       convert_to defaultValue v = Fails f →
       f = type_error 302 ∨
       ∃ n x, defaultValue = any_int n ∧ v = JFloat x ∧
              ¬ (- 2 ^ 31 ≤ truncate x < 2 ^ 31) ∧
              f = undefined_behaviour "double to int out of range") ∧
    (∀ parts value,
       parts ≠ [] → Forall plain_key parts → plain_value value →
       processUserConfig (JObject {[ dotted parts := value ]})
       = Returns (nested parts value) ∧
       processUserConfig (nested parts value)
       = Returns (nested parts value)).
Proof.
  intros Hwf Hm.
  destruct (configuration_expanded params m Hwf Hm)
    as (user & defaults & Huser & Hexp & Hfix & Hsame & Hb & Hinit
        & Hbelow & Hoff).
  exists user, defaults.
  split; [done|]. split; [done|].
  split; [intros user' Hexp'; by apply (expands_to_unique m)|].
  split; [done|]. split; [done|]. split; [done|]. split; [done|].
  split; [|split; [done|]; split; [done|]; split;
             [apply convert_to_fails | apply processUserConfig_dotted]].
  intros values config Hret i param Hi. rewrite Hinit in Hret.
  destruct (mapM (spec_setting user) params) as [values'|] eqn:Hmap;
    [|discriminate Hret].
  injection Hret as <- _.
  apply mapM_Returns in Hmap.
  destruct (Forall2_lookup_l _ _ _ _ _ Hmap Hi) as (x & Hx & Hspec).
  eauto.
Qed.

Local Ltac lookup_cases H i :=
  repeat (destruct i as [|i]; [|cbn in H; try discriminate H]).

Local Ltac solve_wf_params :=
  split;
  [ repeat (apply Forall_cons; split; [split; [by vm_compute | by vm_compute]|]);
    apply Forall_nil_2
  | let i := fresh "i" in
    let j := fresh "j" in
    let Hi := fresh "Hi" in
    let Hj := fresh "Hj" in
    intros i j ? ? Hi Hj ?;
    lookup_cases Hi i; lookup_cases Hj j; try done;
    injection Hi as <-; injection Hj as <-;
    apply (bool_decide_unpack _); by vm_compute ].

Lemma wf_TailcutsCleaner_params : wf_params TailcutsCleaner_params.
Proof. solve_wf_params. Defined.

Lemma wf_test_Configurable_params : wf_params test_Configurable_params.
Proof. solve_wf_params. Defined.

Lemma wf_test_person_params : wf_params test_person_params.
Proof. solve_wf_params. Qed.

(** The checks of [test_configurable.cpp] and of [TEST_CONFIGURABLE]. *)
Example test_default_configuration :
  test_Configurable_person JNull = Returns [any_string "Anna"; any_int 25] ∧
  (initialize TailcutsCleaner_params JNull ≫= λ r, Returns r.1)
  = Returns [any_double 10; any_double 5; any_bool false; any_int 2].
Proof. split; vm_compute; reflexivity. Qed.

Example test_embedded_configuration :
  test_Configurable_person
    (JObject (list_to_map
       [ ("test_embedded_class_name", JString "test_person");
         ("test_person",
          JObject (list_to_map
            [ ("name", JString "Ricardo"); ("age", JInt 30) ]%string))
       ]%string))
  = Returns [any_string "Ricardo"; any_int 30] ∧
  test_Configurable_person
    (JObject (list_to_map
       [ ("test_embedded_class_name", JString "test_person");
         ("test_person.name", JString "John");
         ("test_person.age", JInt 25) ]%string))
  = Returns [any_string "John"; any_int 25].
Proof. split; vm_compute; reflexivity. Qed.

Example test_user_configuration :
  (initialize TailcutsCleaner_params
     (JObject (list_to_map
        [ ("picture_thresh", JInt 30); ("boundary_thresh", JInt 10);
          ("keep_isolated_pixels", JBool true);
          ("min_number_picture_neighbors", JInt 3) ]%string))
   ≫= λ r, Returns r.1)
  = Returns [any_double 30; any_double 10; any_bool true; any_int 3].
Proof. vm_compute. reflexivity. Qed.

(** C9, counterexample: a string where [TailcutsCleaner] registers an
    [int] does not leave the parameter at its default; the construction
    throws [type_error] 302. *)
Lemma binds_user_value_or_default_fails :
  initialize TailcutsCleaner_params
    (JObject {[ "min_number_picture_neighbors"%string := JString "three" ]})
  = Fails (type_error 302) ∧
  ¬ binds_user_value_or_default TailcutsCleaner_params
      (JObject {[ "min_number_picture_neighbors"%string := JString "three" ]}).
Proof.
  assert (H : initialize TailcutsCleaner_params
                (JObject {[ "min_number_picture_neighbors"%string
                            := JString "three" ]})
              = Fails (type_error 302)) by (vm_compute; reflexivity).
  split; [exact H|].
  intros (user & values & config & _ & Hinit & _).
  rewrite H in Hinit. discriminate Hinit.
Qed.

(** A user's object is checked member by member. *)
Lemma unambiguous_by_members m :
  Forall (λ e1, splitPath e1.1 ≠ [] ∧
                Forall (λ e2, e1.1 = e2.1 ∨
                              ¬ splitPath e1.1 `prefix_of` splitPath e2.1)
                  (map_to_list m))
    (map_to_list m) →
  unambiguous m.
Proof.
  rewrite Forall_forall. intros H. split.
  - intros key [v Hkey]. apply elem_of_map_to_list in Hkey.
    by destruct (H _ Hkey) as [? _].
  - intros k1 k2 [v1 H1] [v2 H2] Hne.
    apply elem_of_map_to_list in H1, H2.
    destruct (H _ H1) as [_ Hall]. rewrite Forall_forall in Hall.
    by destruct (Hall _ H2) as [? | ?].
Qed.

Lemma configuration_binds_user_values_witness :
  let m : gmap string json :=
    list_to_map
      [ ("test_embedded_class_name", JString "test_person");
        ("test_person.name", JString "John");
        ("test_person.age", JInt 25) ]%string in
  wf_params test_Configurable_params ∧ unambiguous m ∧
  ∃ user,
    processUserConfig (JObject m) = Returns user ∧
    expands_to m user ∧
    processUserConfig user = Returns user.
Proof.
  intros m.
  assert (Hm : unambiguous m).
  { apply unambiguous_by_members. apply (bool_decide_unpack _).
    by vm_compute. }
  split; [exact wf_test_Configurable_params|]. split; [exact Hm|].
  destruct (configuration_binds_user_values test_Configurable_params m
              wf_test_Configurable_params Hm)
    as (user & defaults & Huser & Hexp & _ & Hfix & _).
  exists user. split; [exact Huser|]. split; [exact Hexp | exact Hfix].
Defined.

(** *** Options by their first component *)

Lemma StronglySorted_filter {A} (R : relation A) (P : A → Prop)
    `{∀ x, Decision (P x)} l :
  StronglySorted R l → StronglySorted R (filter P l).
Proof.
  induction 1 as [|x l Hl IH Hx]; [constructor|].
  rewrite filter_cons. destruct (decide (P x)); [|done].
  constructor; [done|].
  apply Forall_forall. intros y [_ Hy]%list_elem_of_filter.
  rewrite Forall_forall in Hx. by apply Hx.
Qed.

(** The members of a part of an object are the members of the object that
    belong to it, in their order. *)
Lemma items_filter (P : string * json → Prop) `{∀ x, Decision (P x)} m :
  items (filter P m) = filter P (items m).
Proof.
  apply (Sorted_unique_strong key_le).
  - intros [k1 v1] [k2 v2] H1 H2 Hle1 Hle2.
    unfold key_le in Hle1, Hle2. simpl in Hle1, Hle2.
    assert (k1 = k2) as -> by (by apply String.leb_antisym).
    apply elem_of_items, map_lookup_filter_Some in H1 as [H1 _].
    apply list_elem_of_filter in H2 as [_ H2]. apply elem_of_items in H2.
    congruence.
  - apply items_Sorted.
  - apply StronglySorted_Sorted, StronglySorted_filter.
    apply (Sorted_StronglySorted key_le), items_Sorted.
  - apply NoDup_Permutation.
    + rewrite items_Permutation. apply NoDup_map_to_list.
    + apply NoDup_filter. rewrite items_Permutation. apply NoDup_map_to_list.
    + intros [k v]. rewrite list_elem_of_filter, !elem_of_items.
      rewrite map_lookup_filter_Some. tauto.
Qed.

(** [setJsonValue] throws nothing but [type_error] 305 on a path that has
    a component. *)
Lemma set_at_fails q : ∀ current value f,
  q ≠ [] → set_at current q value = Fails f → f = type_error 305.
Proof.
  induction q as [|key rest IH]; intros current value f Hq Hset; [done|].
  destruct (decide (rest = [])) as [-> | Hrest].
  - rewrite set_at_last in Hset.
    destruct (json_of_any value); [|discriminate Hset].
    destruct current; try discriminate Hset; by injection Hset as <-.
  - rewrite set_at_cons in Hset by done.
    destruct current; try (by injection Hset as <-).
    + destruct (set_at (JObject ∅) rest value) as [|f'] eqn:Hchild;
        [discriminate Hset|].
      injection Hset as <-. by eapply IH.
    + destruct (set_at (default (JObject ∅) (members !! key)) rest value)
        as [|f'] eqn:Hchild; [discriminate Hset|].
      injection Hset as <-. by eapply IH.
Qed.

Lemma process_members_fails c l : ∀ processed f,
  Forall (λ e, first_key e.1 = Some c) l →
  process_members processed l = Fails f → f = type_error 305.
Proof.
  induction l as [|[key value] l IH]; intros processed f Hl Hret;
    [discriminate Hret|].
  apply Forall_cons in Hl as [Hkey Hl]. cbn [process_members] in Hret.
  unfold setJsonValue in Hret.
  destruct (set_at processed (splitPath key) (json_to_any value))
    as [processed'|f'] eqn:Hset.
  - by eapply IH.
  - injection Hret as <-. eapply set_at_fails; [|done].
    unfold first_key in Hkey. simpl in Hkey. by destruct (splitPath key).
Qed.

(** The loop of [processUserConfig] over all options, over the options
    outside [c] and over those under [c]: when the last returns, the first
    two fail alike or end with the same members outside [c], the first
    having under [c] what the last has; when the last throws, so does the
    first. *)
Lemma process_members_split c l : ∀ processed1 processed2 processed3,
  agree_off c processed1 processed2 →
  passable processed3 → member processed1 c = member processed3 c →
  match process_members processed3 (filter (λ e, first_key e.1 = Some c) l)
  with
  | Returns result3 =>
      match process_members processed1 l,
            process_members processed2
              (filter (λ e, first_key e.1 ≠ Some c) l) with
      | Returns result1, Returns result2 =>
          agree_off c result1 result2 ∧ member result1 c = member result3 c
      | Fails f1, Fails f2 => f1 = f2
      | _, _ => False
      end
  | Fails _ => ∃ f, process_members processed1 l = Fails f
  end.
Proof.
  induction l as [|[key value] l IH];
    intros processed1 processed2 processed3 Hagree H3 Hc.
  - done.
  - rewrite !filter_cons. cbn [fst].
    destruct Hagree as (H1 & H2 & Hsame).
    destruct (splitPath key) as [|k rest] eqn:Hparts.
    { (* an option without a component *)
      assert (Hfirst : first_key key = None)
        by (unfold first_key; by rewrite Hparts).
      rewrite decide_False by congruence.
      rewrite decide_True by congruence.
      cbn [process_members]. unfold setJsonValue. rewrite Hparts.
      cbn [set_at mbind outcome_bind].
      destruct (process_members processed3 _); eauto. }
    assert (Hfirst : first_key key = Some k)
      by (unfold first_key; by rewrite Hparts).
    destruct (decide (k = c)) as [-> | Hk].
    + (* an option under [c] *)
      rewrite decide_True by done. rewrite decide_False by tauto.
      cbn [process_members]. unfold setJsonValue. rewrite Hparts.
      pose proof (set_at_same_member processed1 processed3 c rest
                    (json_to_any value) H1 H3 Hc) as Hstep.
      destruct (set_at processed1 (c :: rest) (json_to_any value))
        as [processed1'|f1] eqn:Hset1;
        destruct (set_at processed3 (c :: rest) (json_to_any value))
          as [processed3'|f3] eqn:Hset3; try done;
        cbn [mbind outcome_bind]; [|eauto].
      apply IH; [|exact (set_at_passable _ _ _ _ H3 Hset3) | done].
      split; [exact (set_at_passable _ _ _ _ H1 Hset1)|]. split; [done|].
      intros k Hk. rewrite <- Hsame by done.
      by eapply set_at_member_other.
    + (* an option outside [c] *)
      rewrite decide_False by congruence.
      rewrite decide_True by congruence.
      cbn [process_members]. unfold setJsonValue. rewrite Hparts.
      pose proof (set_at_same_member processed1 processed2 k rest
                    (json_to_any value) H1 H2 (Hsame k Hk)) as Hstep.
      destruct (set_at processed1 (k :: rest) (json_to_any value))
        as [processed1'|f1] eqn:Hset1;
        destruct (set_at processed2 (k :: rest) (json_to_any value))
          as [processed2'|f2] eqn:Hset2; try done;
        cbn [mbind outcome_bind].
      * apply IH; [|done|].
        -- split; [exact (set_at_passable _ _ _ _ H1 Hset1)|].
           split; [exact (set_at_passable _ _ _ _ H2 Hset2)|].
           intros k' Hk'. destruct (decide (k' = k)) as [-> | Hne]; [done|].
           rewrite (set_at_member_other _ _ _ _ _ _ Hset1 Hne).
           rewrite (set_at_member_other _ _ _ _ _ _ Hset2 Hne).
           by apply Hsame.
        -- rewrite <- Hc. eapply set_at_member_other; [done|]. congruence.
      * destruct (process_members processed3 _); eauto.
Qed.

(** [setJsonValue] leaves no null where there was none, and none where it
    stores a value. *)
Lemma set_at_not_null q current value result :
  q ≠ [] → set_at current q value = Returns result →
  current ≠ JNull ∨ is_Some (json_of_any value) → result ≠ JNull.
Proof.
  intros Hq Hset Hcase. destruct q as [|key rest]; [done|].
  destruct (decide (rest = [])) as [-> | Hrest].
  - rewrite set_at_last in Hset.
    destruct (json_of_any value) as [v|].
    + destruct current; try discriminate Hset; by injection Hset as <-.
    + injection Hset as <-. destruct Hcase as [? | [? ?]]; done.
  - rewrite set_at_cons in Hset by done.
    destruct current; try discriminate Hset.
    + destruct (set_at (JObject ∅) rest value); [|discriminate Hset].
      by injection Hset as <-.
    + destruct (set_at (default (JObject ∅) (members !! key)) rest value);
        [|discriminate Hset].
      by injection Hset as <-.
Qed.

(** An option that is not null leaves something under its first component,
    and what is there stays. *)
Lemma set_at_stores current c rest value result :
  passable current →
  set_at current (c :: rest) (json_to_any value) = Returns result →
  (value ≠ JNull ∨ ∃ child, member current c = Some child ∧ child ≠ JNull) →
  ∃ child, member result c = Some child ∧ child ≠ JNull.
Proof.
  intros Hp Hset Hcase.
  destruct (decide (rest = [])) as [-> | Hrest].
  - rewrite set_at_passable_last in Hset by done.
    destruct (json_of_any (json_to_any value)) as [v|] eqn:Hv.
    + injection Hset as <-. apply json_of_json_to_any in Hv as [Hv _].
      exists v. cbn [member]. by rewrite lookup_insert_eq.
    + injection Hset as <-.
      destruct Hcase as [Hne | ?]; [|done].
      destruct (json_of_json_to_any_is_Some value Hne) as [v Hv'].
      congruence.
  - rewrite set_at_passable_cons in Hset by done.
    destruct (set_at (default (JObject ∅) (member current c)) rest
                (json_to_any value)) as [child|] eqn:Hchild;
      [|discriminate Hset].
    injection Hset as <-. exists child. cbn [member].
    rewrite lookup_insert_eq. split; [done|].
    apply (set_at_not_null _ _ _ _ Hrest Hchild).
    destruct Hcase as [Hne | (child0 & -> & Hchild0)].
    + right. by apply json_of_json_to_any_is_Some.
    + by left.
Qed.

(** After the loop of [processUserConfig], an option that is not null has
    left something under its first component. *)
Lemma process_members_stores c l : ∀ processed result,
  passable processed →
  process_members processed l = Returns result →
  ((∃ key value, (key, value) ∈ l ∧ first_key key = Some c ∧ value ≠ JNull) ∨
   ∃ child, member processed c = Some child ∧ child ≠ JNull) →
  ∃ child, member result c = Some child ∧ child ≠ JNull.
Proof.
  induction l as [|[key value] l IH]; intros processed result Hp Hret Hcase.
  - injection Hret as <-.
    destruct Hcase as [(? & ? & []%elem_of_nil & _) | ?]; done.
  - cbn [process_members] in Hret. unfold setJsonValue in Hret.
    destruct (set_at processed (splitPath key) (json_to_any value))
      as [processed'|] eqn:Hset; [|discriminate Hret].
    cbn [mbind outcome_bind] in Hret.
    apply (IH processed' result); [|done|].
    { exact (set_at_passable _ _ _ _ Hp Hset). }
    destruct (splitPath key) as [|k rest] eqn:Hparts; [discriminate Hset|].
    assert (Hfirst : first_key key = Some k)
      by (unfold first_key; by rewrite Hparts).
    destruct (decide (k = c)) as [-> | Hk].
    + destruct Hcase as [(key' & value' & Hin & Hc & Hne) | Hcase].
      * apply elem_of_cons in Hin as [[= -> ->] | Hin]; [|left; eauto].
        right. eapply set_at_stores; eauto.
      * right. eapply set_at_stores; eauto.
    + destruct Hcase as [(key' & value' & Hin & Hc & Hne) | Hcase].
      * apply elem_of_cons in Hin as [[= -> ->] | Hin]; [congruence|].
        left; eauto.
      * right. by rewrite (set_at_member_other _ _ _ _ _ _ Hset).
Qed.

(** The options under a first component that no registered parameter has:
    when they expand on their own, the construction proceeds as without
    them, and they are in the current configuration; when they do not,
    the construction throws. *)
Lemma initialize_options_under params m c :
  (∀ param, param ∈ params → first_key (path param) ≠ Some c) →
  (∀ user, processUserConfig (JObject (options_under c m)) = Returns user →
     (initialize params (JObject m) ≫= λ r, Returns r.1)
     = (initialize params (JObject (options_outside c m))
          ≫= λ r, Returns r.1) ∧
     ∀ values config key value,
       initialize params (JObject m) = Returns (values, config) →
       m !! key = Some value → first_key key = Some c → value ≠ JNull →
       is_Some (member config c)) ∧
  (∀ f, processUserConfig (JObject (options_under c m)) = Fails f →
     f = type_error 305 ∧
     ∃ f', initialize params (JObject m) = Fails f').
Proof.
  intros Hparams.
  assert (Hnull : passable JNull) by (by left).
  pose proof (process_members_split c (items m) JNull JNull JNull
                (conj Hnull (conj Hnull (λ k _, eq_refl))) Hnull eq_refl)
    as Hsplit.
  unfold processUserConfig, options_under, options_outside.
  rewrite !items_filter.
  destruct (process_members JNull
              (filter (λ e, first_key e.1 = Some c) (items m)))
    as [user3|f3] eqn:Hown.
  - split; [|discriminate]. intros _ _.
    unfold initialize, processUserConfig. rewrite items_filter.
    destruct (process_members JNull (items m)) as [user1|f1] eqn:Huser1;
      destruct (process_members JNull
                  (filter (λ e, first_key e.1 ≠ Some c) (items m)))
        as [user2|f2] eqn:Huser2; try done;
      [|subst; split; [done | discriminate]].
    destruct Hsplit as [(H1 & H2 & Hsame) Hc].
    cbn [mbind outcome_bind].
    destruct (buildDefaultConfig params) as [defaults|f];
      [|split; [done | discriminate]].
    cbn [mbind outcome_bind].
    rewrite (applyConfig_same_members params _
               (if is_null user2 then defaults
                else mergeConfig defaults user2)).
    2: { intros param k Hparam Hk. rewrite !member_finalConfig by done.
         rewrite (Hsame k); [done|]. intros ->. by apply (Hparams param). }
    split; [by destruct (applyConfig params _)|].
    intros values config key value Hret Hkey Hfirst Hvalue.
    destruct (applyConfig params _); [|discriminate Hret].
    injection Hret as _ <-.
    destruct (process_members_stores c (items m) JNull user1 Hnull Huser1)
      as (child & Hchild & Hnn).
    { left. exists key, value. by rewrite elem_of_items. }
    rewrite member_finalConfig, Hchild by done. by destruct child.
  - split; [discriminate|]. intros f [= <-]. split.
    + eapply (process_members_fails c); [|exact Hown].
      apply Forall_forall. by intros e [He _]%list_elem_of_filter.
    + destruct Hsplit as [f' Hf']. exists f'.
      unfold initialize, processUserConfig. by rewrite Hf'.
Qed.

(** An option that is alone under its first component always expands. *)
Lemma processUserConfig_single_option m key c :
  is_Some (m !! key) → first_key key = Some c →
  (∀ key', is_Some (m !! key') → first_key key' = Some c → key' = key) →
  ∃ user, processUserConfig (JObject (options_under c m)) = Returns user.
Proof.
  intros [value Hkey] Hfirst Halone.
  assert (Hown : options_under c m = {[ key := value ]}).
  { apply map_eq. intros k. unfold options_under.
    destruct (decide (k = key)) as [-> | Hne].
    - rewrite lookup_singleton_eq. by apply map_lookup_filter_Some.
    - rewrite lookup_singleton_ne by done.
      apply map_lookup_filter_None. right. intros v Hv Hc.
      apply Hne, Halone; [by rewrite Hv | done]. }
  rewrite Hown, processUserConfig_singleton.
  unfold first_key in Hfirst.
  destruct (splitPath key) as [|k rest]; [done|].
  destruct (set_at_null k rest value) as (processed & -> & _). eauto.
Qed.

(** C7, amended.  An option name is not recognized by a component when
    its first dotted component [c] is the first component of no registered
    path.  Constructing the component from a configuration object [m] that
    contains such an option does not fail on that account: the setters
    ignore the option, and it is carried into the current configuration.
    Whatever else [m] holds and whatever parameters are registered: when
    the options of [m] under [c] expand on their own, the setters receive
    exactly the values, or the construction fails with exactly the
    failure, that [m] without these options gives, and an option under [c]
    that is not null leaves a member [c] in the component's current
    configuration; when they do not expand, which is a [type_error] 305 of
    keys that lead through one another, the construction throws.  An
    option that is alone under its first component always expands. *)
Theorem unrecognized_option_ignored params m key c :
  unrecognized params key → first_key key = Some c →
  (∀ user, processUserConfig (JObject (options_under c m)) = Returns user →
     (initialize params (JObject m) ≫= λ r, Returns r.1)
     = (initialize params (JObject (options_outside c m))
          ≫= λ r, Returns r.1) ∧
     ∀ values config key' value,
       initialize params (JObject m) = Returns (values, config) →
       m !! key' = Some value → first_key key' = Some c → value ≠ JNull →
       is_Some (member config c)) ∧
  (∀ f, processUserConfig (JObject (options_under c m)) = Fails f →
     f = type_error 305 ∧
     ∃ f', initialize params (JObject m) = Fails f') ∧
  (is_Some (m !! key) →
   (∀ key', is_Some (m !! key') → first_key key' = Some c → key' = key) →
   ∃ user, processUserConfig (JObject (options_under c m)) = Returns user).
Proof.
  intros [_ Hother] Hfirst. rewrite Hfirst in Hother.
  destruct (initialize_options_under params m c Hother) as [Hret Hfail].
  split; [done|]. split; [done|].
  intros Hkey. by apply processUserConfig_single_option.
Qed.

Lemma write_metaparam_unrecognized :
  unrecognized DataWriter_params "write_metaparam".
Proof.
  split; [by eexists|]. intros param Hparam.
  repeat (apply elem_of_cons in Hparam as [-> | Hparam]; [vm_compute; discriminate|]).
  by apply elem_of_nil in Hparam.
Qed.

(** C7, counterexample: the [data_writer] section of the program's own
    default configuration has the option [write_metaparam], which
    [DataWriter] does not register; the construction succeeds. *)
Lemma rejects_unrecognized_fails :
  ¬ rejects_unrecognized DataWriter_params default_data_writer_config.
Proof.
  intros H.
  destruct (H _ "write_metaparam"%string eq_refl) as [f Hf].
  - vm_compute. eauto.
  - apply write_metaparam_unrecognized.
  - vm_compute in Hf. discriminate Hf.
Qed.

Lemma unrecognized_option_ignored_witness :
  let m : gmap string json :=
    match default_data_writer_config with JObject m => m | _ => ∅ end in
  unrecognized DataWriter_params "write_metaparam" ∧
  first_key "write_metaparam" = Some "write_metaparam"%string ∧
  (initialize DataWriter_params (JObject m) ≫= λ r, Returns r.1)
  = (initialize DataWriter_params
       (JObject (options_outside "write_metaparam" m)) ≫= λ r, Returns r.1).
Proof.
  intros m.
  split; [exact write_metaparam_unrecognized|]. split; [reflexivity|].
  destruct (unrecognized_option_ignored DataWriter_params m
              "write_metaparam"%string "write_metaparam"%string
              write_metaparam_unrecognized eq_refl) as (Hret & _ & Halone).
  destruct Halone as [user Huser].
  - vm_compute. eauto.
  - intros key' [value Hvalue] Hfirst.
    apply elem_of_list_to_map_2 in Hvalue.
    repeat (apply elem_of_cons in Hvalue as [[= -> ->] | Hvalue];
            [first [ reflexivity | by vm_compute in Hfirst ]|]).
    by apply elem_of_nil in Hvalue.
  - exact (proj1 (Hret user Huser)).
Defined.


(* ================================================================== *)
(** * Part III: further properties of the code                         *)
(* ================================================================== *)

(** ** More on the cleaning *)

Lemma neighbors_of_mono cam (S T : gset nat) :
  S ⊆ T → neighbors_of cam S ⊆ neighbors_of cam T.
Proof.
  intros Hsub i. rewrite !neighbors_of_adjacent.
  intros (Hi & j & Hadj & Hj & Hlt). split; [done|]. exists j. set_solver.
Qed.

Lemma neighbors_of_empty cam : neighbors_of cam ∅ = ∅.
Proof.
  apply set_eq. intros i. rewrite neighbors_of_adjacent. set_solver.
Qed.

(** A mask that selects no pixel is all false. *)
Lemma mask_set_empty_replicate mask :
  mask_set mask = ∅ → mask = replicate (length mask) false.
Proof.
  intros Hempty. apply list_eq. intros i.
  destruct (mask !! i) as [b|] eqn:Hi.
  - rewrite lookup_replicate_2 by (by apply lookup_lt_Some in Hi).
    destruct b; [|done].
    apply mask_set_elem in Hi. rewrite Hempty in Hi. set_solver.
  - symmetry. apply lookup_ge_None. rewrite length_replicate.
    by apply lookup_ge_None.
Qed.

Lemma mask_set_replicate_false n : mask_set (replicate n false) = ∅.
Proof.
  apply set_eq. intros i. rewrite mask_set_elem. split; [|set_solver].
  intros [Hb _]%lookup_replicate. discriminate Hb.
Qed.

Section MoreCleaning.
Context {pixel : Type} (geb : pixel → pixel → bool).

Lemma spec_picture_subseteq cam (image : list pixel) pt keep minn :
  spec_picture geb cam image pt keep minn ⊆ above geb cam image pt.
Proof. intros i Hi. by apply spec_picture_above in Hi as [Hi _]. Qed.

(** Without a picture pixel nothing survives. *)
Lemma tailcuts_clean_dark cam (image : list pixel)
    picture_thresh boundary_thresh keep_isolated_pixels
    min_number_picture_neighbors :
  wf_camera cam → length image = num_pixels cam →
  (∀ x, x ∈ image → geb x picture_thresh = false) →
  tailcuts_clean geb cam image picture_thresh boundary_thresh
    keep_isolated_pixels min_number_picture_neighbors
  = replicate (num_pixels cam) false.
Proof.
  intros Hwf Hlen Hdark.
  destruct (tailcuts_clean_mask_set geb cam image picture_thresh
              boundary_thresh keep_isolated_pixels
              min_number_picture_neighbors Hwf Hlen) as [Hl Hset].
  rewrite <- Hl. apply mask_set_empty_replicate. rewrite Hset.
  assert (HP : above geb cam image picture_thresh = ∅).
  { apply set_eq. intros i. rewrite above_elem. split; [|set_solver].
    intros [_ Hi]. unfold at_least in Hi.
    destruct (image !! i) as [x|] eqn:Hx; [|done].
    simpl in Hi. rewrite (Hdark x) in Hi; [done|].
    by apply list_elem_of_lookup_2 in Hx. }
  assert (HP' : spec_picture geb cam image picture_thresh
                  keep_isolated_pixels min_number_picture_neighbors = ∅).
  { pose proof (spec_picture_subseteq cam image picture_thresh
                  keep_isolated_pixels min_number_picture_neighbors).
    set_solver. }
  unfold spec_tailcuts. rewrite HP', neighbors_of_empty.
  destruct keep_isolated_pixels; set_solver.
Qed.

(** With the thresholds in order, a surviving pixel reaches
    [boundary_thresh]. *)
Lemma tailcuts_clean_survivor cam (image : list pixel)
    picture_thresh boundary_thresh keep_isolated_pixels
    min_number_picture_neighbors :
  wf_camera cam → length image = num_pixels cam →
  (∀ x, geb x picture_thresh = true → geb x boundary_thresh = true) →
  ∀ i, tailcuts_clean geb cam image picture_thresh boundary_thresh
         keep_isolated_pixels min_number_picture_neighbors !! i = Some true →
       ∃ x, image !! i = Some x ∧ geb x boundary_thresh = true.
Proof.
  intros Hwf Hlen Hthr i Hi. apply mask_set_elem in Hi.
  destruct (tailcuts_clean_mask_set geb cam image picture_thresh
              boundary_thresh keep_isolated_pixels
              min_number_picture_neighbors Hwf Hlen) as [_ Hset].
  rewrite Hset in Hi. unfold spec_tailcuts in Hi.
  assert (HB : ∀ k, k ∈ above geb cam image boundary_thresh →
                    ∃ x, image !! k = Some x ∧ geb x boundary_thresh = true).
  { intros k [_ Hk]%above_elem. unfold at_least in Hk.
    destruct (image !! k) as [x|]; [|done]. simpl in Hk.
    exists x. split; [done | congruence]. }
  assert (HP : ∀ k, k ∈ spec_picture geb cam image picture_thresh
                          keep_isolated_pixels min_number_picture_neighbors →
                    ∃ x, image !! k = Some x ∧ geb x boundary_thresh = true).
  { intros k [[_ Hk]%above_elem _]%spec_picture_above. unfold at_least in Hk.
    destruct (image !! k) as [x|]; [|done]. simpl in Hk.
    exists x. split; [done|]. apply Hthr. congruence. }
  destruct keep_isolated_pixels; set_solver.
Qed.

(** X1.  A pixel can only survive next to, or as, a picture pixel: when no
    pixel of the image reaches [picture_thresh], [tailcuts_clean] returns
    the all-false mask, whatever the other parameters. *)
Theorem tailcuts_clean_no_picture_pixel cam (image : list pixel)
    picture_thresh boundary_thresh keep_isolated_pixels
    min_number_picture_neighbors :
  wf_camera cam → length image = num_pixels cam →
  (∀ x, x ∈ image → geb x picture_thresh = false) →
  tailcuts_clean geb cam image picture_thresh boundary_thresh
    keep_isolated_pixels min_number_picture_neighbors
  = replicate (num_pixels cam) false.
Proof. apply tailcuts_clean_dark. Qed.

(** X2.  With [keep_isolated_pixels] every pixel at or above
    [picture_thresh] is kept, with or without neighbours. *)
Theorem tailcuts_clean_keeps_picture_pixels cam (image : list pixel)
    picture_thresh boundary_thresh min_number_picture_neighbors i x :
  wf_camera cam → length image = num_pixels cam →
  image !! i = Some x → geb x picture_thresh = true →
  tailcuts_clean geb cam image picture_thresh boundary_thresh true
    min_number_picture_neighbors !! i = Some true.
Proof.
  intros Hwf Hlen Hi Hx. apply mask_set_elem.
  destruct (tailcuts_clean_mask_set geb cam image picture_thresh
              boundary_thresh true min_number_picture_neighbors Hwf Hlen)
    as [_ ->].
  unfold spec_tailcuts, spec_picture. simpl.
  apply elem_of_union. right. apply above_elem. split.
  - apply lookup_lt_Some in Hi. lia.
  - unfold at_least. by rewrite Hi; simpl; rewrite Hx.
Qed.

(** X3.  Setting [keep_isolated_pixels] never removes a pixel: the mask
    without it is contained in the mask with it, all other parameters
    being equal. *)
Theorem tailcuts_clean_keep_isolated_superset cam (image : list pixel)
    picture_thresh boundary_thresh min_number_picture_neighbors :
  wf_camera cam → length image = num_pixels cam →
  mask_set (tailcuts_clean geb cam image picture_thresh boundary_thresh
              false min_number_picture_neighbors)
  ⊆ mask_set (tailcuts_clean geb cam image picture_thresh boundary_thresh
                true min_number_picture_neighbors).
Proof.
  intros Hwf Hlen.
  destruct (tailcuts_clean_mask_set geb cam image picture_thresh
              boundary_thresh false min_number_picture_neighbors Hwf Hlen)
    as [_ ->].
  destruct (tailcuts_clean_mask_set geb cam image picture_thresh
              boundary_thresh true min_number_picture_neighbors Hwf Hlen)
    as [_ ->].
  unfold spec_tailcuts.
  pose proof (spec_picture_subseteq cam image picture_thresh false
                min_number_picture_neighbors) as Hsub.
  pose proof (neighbors_of_mono cam _ _ Hsub) as Hnb.
  assert (Htrue : spec_picture geb cam image picture_thresh true
                    min_number_picture_neighbors
                  = above geb cam image picture_thresh) by done.
  rewrite Htrue. set_solver.
Qed.

(** X4.  When every value that reaches [picture_thresh] also reaches
    [boundary_thresh] (the thresholds are in order), no pixel below
    [boundary_thresh] survives. *)
Theorem tailcuts_clean_above_boundary cam (image : list pixel)
    picture_thresh boundary_thresh keep_isolated_pixels
    min_number_picture_neighbors :
  wf_camera cam → length image = num_pixels cam →
  (∀ x, geb x picture_thresh = true → geb x boundary_thresh = true) →
  ∀ i, tailcuts_clean geb cam image picture_thresh boundary_thresh
         keep_isolated_pixels min_number_picture_neighbors !! i = Some true →
       ∃ x, image !! i = Some x ∧ geb x boundary_thresh = true.
Proof. apply tailcuts_clean_survivor. Qed.

(** X5.  Asking for more picture neighbours can only remove pixels. *)
Theorem tailcuts_clean_min_neighbors_antitone cam (image : list pixel)
    picture_thresh boundary_thresh keep_isolated_pixels min1 min2 :
  wf_camera cam → length image = num_pixels cam →
  min1 ≤ min2 →
  mask_set (tailcuts_clean geb cam image picture_thresh boundary_thresh
              keep_isolated_pixels min2)
  ⊆ mask_set (tailcuts_clean geb cam image picture_thresh boundary_thresh
                keep_isolated_pixels min1).
Proof.
  intros Hwf Hlen Hmin.
  destruct (tailcuts_clean_mask_set geb cam image picture_thresh
              boundary_thresh keep_isolated_pixels min1 Hwf Hlen) as [_ ->].
  destruct (tailcuts_clean_mask_set geb cam image picture_thresh
              boundary_thresh keep_isolated_pixels min2 Hwf Hlen) as [_ ->].
  assert (Hsub : spec_picture geb cam image picture_thresh
                   keep_isolated_pixels min2
                 ⊆ spec_picture geb cam image picture_thresh
                     keep_isolated_pixels min1).
  { intros i Hi. apply spec_picture_above in Hi as [HP Hcount].
    unfold spec_picture. destruct keep_isolated_pixels; [done|]. simpl.
    destruct (min1 =? 0) eqn:H0; [done|].
    apply elem_of_filter. split; [|done].
    specialize (Hcount eq_refl). lia. }
  pose proof (neighbors_of_mono cam _ _ Hsub) as Hnb.
  unfold spec_tailcuts. destruct keep_isolated_pixels; set_solver.
Qed.

End MoreCleaning.

(** X6.  [dilate] is monotone, and it leaves the all-false mask as it
    is. *)
Theorem dilate_monotone cam mask1 mask2 :
  wf_camera cam →
  length mask1 = num_pixels cam → length mask2 = num_pixels cam →
  mask_set mask1 ⊆ mask_set mask2 →
  mask_set (dilate cam mask1) ⊆ mask_set (dilate cam mask2) ∧
  dilate cam (replicate (num_pixels cam) false)
  = replicate (num_pixels cam) false.
Proof.
  intros Hwf Hl1 Hl2 Hsub.
  assert (Hd : ∀ mask, length mask = num_pixels cam →
             length (dilate cam mask) = num_pixels cam ∧
             mask_set (dilate cam mask)
             = mask_set mask ∪ neighbors_of cam (mask_set mask)).
  { intros mask Hl. unfold dilate.
    assert (HM : length (neigh_matrix cam) = num_pixels cam) by apply Hwf.
    split.
    - rewrite array_or_length; [done|].
      rewrite array_gt0_length, mat_vec_length. lia.
    - rewrite mask_set_array_or, mask_set_has_neighbor; [done ..|].
      rewrite array_gt0_length, mat_vec_length. lia. }
  split.
  - rewrite (proj2 (Hd mask1 Hl1)), (proj2 (Hd mask2 Hl2)).
    pose proof (neighbors_of_mono cam _ _ Hsub). set_solver.
  - destruct (Hd (replicate (num_pixels cam) false)
                (length_replicate _ _)) as [Hl Hset].
    rewrite <- Hl at 2. apply mask_set_empty_replicate.
    rewrite Hset, mask_set_replicate_false, neighbors_of_empty. set_solver.
Qed.

Lemma Qgeb_le x t : Qgeb x t = true ↔ (t <= x)%Q.
Proof. unfold Qgeb. apply Qle_bool_iff. Qed.

Lemma Qgeb_trans (lo hi : Q) :
  (lo <= hi)%Q → ∀ x, Qgeb x hi = true → Qgeb x lo = true.
Proof.
  intros Hle x. rewrite !Qgeb_le. intros Hx. by apply Qle_trans with hi.
Qed.

Lemma Qgeb_below x t : (x < t)%Q → Qgeb x t = false.
Proof.
  intros Hlt. destruct (Qgeb x t) eqn:H; [|done].
  apply Qgeb_le in H. exfalso. by apply (Qlt_not_le x t).
Qed.

Lemma std_max_lower a b : (a <= std_max a b)%Q.
Proof.
  destruct (std_max_cases a b) as [[-> _] | [-> H]];
    [apply Qle_refl | by apply Qlt_le_weak].
Qed.

Section MoreAdaptive.
Variable rnd : Q → Q.
Hypothesis rnd_monotone : ∀ x y, (x <= y)%Q → (rnd x <= rnd y)%Q.
Hypothesis rnd_5 : (rnd 5 <= 5)%Q.


End MoreAdaptive.

Lemma tailcuts_clean_no_picture_pixel_witness :
  wf_camera square_camera_4x4 ∧
  length (replicate 16 5%Q) = num_pixels square_camera_4x4 ∧
  tailcuts_clean Qgeb square_camera_4x4 (replicate 16 5%Q) 8%Q 1%Q true 0
  = replicate (num_pixels square_camera_4x4) false.
Proof.
  split; [exact wf_square_camera_4x4|]. split; [reflexivity|].
  apply (tailcuts_clean_no_picture_pixel Qgeb square_camera_4x4
           (replicate 16 5%Q) 8%Q 1%Q true 0);
    [exact wf_square_camera_4x4 | reflexivity |].
  intros x [-> _]%elem_of_replicate. reflexivity.
Defined.

Lemma tailcuts_clean_keeps_picture_pixels_witness :
  wf_camera square_camera_4x4 ∧
  solo_image 16 0%Q 10 10%Q !! 10%nat = Some 10%Q ∧
  tailcuts_clean Qgeb square_camera_4x4 (solo_image 16 0%Q 10 10%Q)
    8%Q 1%Q true 2 !! 10%nat = Some true.
Proof.
  split; [exact wf_square_camera_4x4|]. split; [reflexivity|].
  apply (tailcuts_clean_keeps_picture_pixels Qgeb square_camera_4x4
           (solo_image 16 0%Q 10 10%Q) 8%Q 1%Q 2 10 10%Q);
    [exact wf_square_camera_4x4 | reflexivity | reflexivity | reflexivity].
Defined.

Lemma tailcuts_clean_keep_isolated_superset_witness :
  mask_set (tailcuts_clean Qgeb square_camera_4x4
              (solo_image 16 0%Q 10 10%Q) 8%Q 1%Q false 0)
  ⊆ mask_set (tailcuts_clean Qgeb square_camera_4x4
                (solo_image 16 0%Q 10 10%Q) 8%Q 1%Q true 0).
Proof.
  apply (tailcuts_clean_keep_isolated_superset Qgeb square_camera_4x4
           (solo_image 16 0%Q 10 10%Q) 8%Q 1%Q 0);
    [exact wf_square_camera_4x4 | reflexivity].
Defined.

Lemma tailcuts_clean_above_boundary_witness :
  tailcuts_clean Qgeb square_camera_4x4 (solo_image 16 5%Q 10 10%Q)
    8%Q 1%Q false 0 !! 11%nat = Some true ∧
  ∃ x, solo_image 16 5%Q 10 10%Q !! 11%nat = Some x ∧ Qgeb x 1 = true.
Proof.
  split; [reflexivity|].
  apply (tailcuts_clean_above_boundary Qgeb square_camera_4x4
           (solo_image 16 5%Q 10 10%Q) 8%Q 1%Q false 0);
    [exact wf_square_camera_4x4 | reflexivity | | reflexivity].
  apply Qgeb_trans. unfold Qle. simpl. lia.
Defined.

Lemma tailcuts_clean_min_neighbors_antitone_witness :
  mask_set (tailcuts_clean Qgeb square_camera_4x4
              (solo_image 16 5%Q 10 10%Q) 8%Q 1%Q false 2)
  ⊆ mask_set (tailcuts_clean Qgeb square_camera_4x4
                (solo_image 16 5%Q 10 10%Q) 8%Q 1%Q false 0).
Proof.
  apply (tailcuts_clean_min_neighbors_antitone Qgeb square_camera_4x4
           (solo_image 16 5%Q 10 10%Q) 8%Q 1%Q false 0 2);
    [exact wf_square_camera_4x4 | reflexivity | lia].
Defined.

Lemma dilate_monotone_witness :
  let mask1 := replicate 16 false in
  let mask2 := <[10%nat := true]> (replicate 16 false) in
  mask_set (dilate square_camera_4x4 mask1)
  ⊆ mask_set (dilate square_camera_4x4 mask2) ∧
  dilate square_camera_4x4 (replicate (num_pixels square_camera_4x4) false)
  = replicate (num_pixels square_camera_4x4) false.
Proof.
  apply (dilate_monotone square_camera_4x4 (replicate 16 false)
           (<[10%nat := true]> (replicate 16 false)));
    [exact wf_square_camera_4x4 | reflexivity | reflexivity |].
  rewrite (mask_set_replicate_false 16). apply empty_subseteq.
Defined.


(** ** More on the configuration system *)

Lemma splitPath_from_nil path : ∀ current,
  splitPath_from path current = [] ↔ current = "" ∧ all_dots path = true.
Proof.
  induction path as [|c rest IH]; intros current;
    cbn [splitPath_from all_dots].
  - destruct (decide (current = "")); naive_solver.
  - destruct (Ascii.eqb c ".") eqn:Hc; simpl.
    + destruct (decide (current = "")) as [-> | Hne].
      * rewrite IH. naive_solver.
      * naive_solver.
    + rewrite IH. split; [|naive_solver].
      intros [Hne _]. by apply append_not_empty in Hne.
Qed.

Lemma splitPath_from_join s t : ∀ current,
  splitPath_from (s +:+ String "." t) current
  = splitPath_from s current ++ splitPath t.
Proof.
  induction s as [|c s IH]; intros current.
  - change ("" +:+ String "." t) with (String "." t).
    cbn [splitPath_from]. change (Ascii.eqb "." ".") with true. cbn iota.
    by destruct (decide (current = "")).
  - change (String c s +:+ String "." t) with (String c (s +:+ String "." t)).
    cbn [splitPath_from]. destruct (Ascii.eqb c ".").
    + destruct (decide (current = "")); [apply IH|].
      rewrite IH. reflexivity.
    + apply IH.
Qed.

(** X8.  [splitPath] never yields an empty component or one with a dot in
    it, whatever the string; it yields no component at all exactly for the
    strings made of dots only (the empty string among them), which are the
    paths on which [setJsonValue] and [getJsonValue] index an empty vector;
    and the path of a string joined by a dot is the two paths joined. *)
Theorem splitPath_components path :
  Forall plain_key (splitPath path) ∧
  (splitPath path = [] ↔ all_dots path = true) ∧
  ∀ more, splitPath (path +:+ "." +:+ more)
          = splitPath path ++ splitPath more.
Proof.
  split; [by apply splitPath_from_plain|]. split.
  - unfold splitPath. rewrite splitPath_from_nil. naive_solver.
  - intros more. apply splitPath_from_join.
Qed.

(** X9.  Joining components with dots and splitting again gives the
    components back, and splitting normalises: leading, trailing and
    repeated dots are dropped, so the rejoined path splits as before. *)
Theorem splitPath_dotted_round_trip :
  (∀ parts, Forall plain_key parts → splitPath (dotted parts) = parts) ∧
  (∀ path, splitPath (dotted (splitPath path)) = splitPath path).
Proof.
  split; [apply splitPath_dotted|].
  intros path. apply splitPath_dotted. by apply splitPath_from_plain.
Qed.

Lemma splitPath_dotted_round_trip_witness :
  Forall plain_key ["test_person"; "name"]%string ∧
  splitPath (dotted ["test_person"; "name"]%string)
  = ["test_person"; "name"]%string.
Proof.
  assert (H : Forall plain_key ["test_person"; "name"]%string).
  { repeat (apply Forall_cons; split; [by vm_compute|]). apply Forall_nil_2. }
  split; [exact H|].
  exact (proj1 splitPath_dotted_round_trip
           ["test_person"; "name"]%string H).
Defined.

Lemma setJsonValue_parts config name value result :
  setJsonValue config name value = Returns result → splitPath name ≠ [].
Proof.
  unfold setJsonValue. intros Hset Hnil. rewrite Hnil in Hset. done.
Qed.

(** X10.  What [setJsonValue] stores at a path, [getJsonValue] reads back
    from the same path: converted to the type of the default it is given,
    and as the very value that was stored when the default has its type. *)
Theorem setJsonValue_getJsonValue config name value v result :
  json_of_any value = Some v →
  setJsonValue config name value = Returns result →
  (∀ defaultValue,
     getJsonValue result name defaultValue = get_as defaultValue v) ∧
  (storable value → getJsonValue result name value = Returns (Some value)).
Proof.
  intros Hv Hset.
  pose proof (setJsonValue_parts _ _ _ _ Hset) as Hne.
  assert (Hget : ∀ defaultValue,
            getJsonValue result name defaultValue = get_as defaultValue v).
  { intros defaultValue. rewrite getJsonValue_parts by done.
    unfold setJsonValue in Hset.
    by rewrite (set_at_get_same _ _ _ _ _ Hv Hset). }
  split; [done|].
  intros Hst. rewrite Hget. by apply get_as_default.
Qed.

(** X11.  [setJsonValue] touches nothing beside the path it writes: at
    every path that neither leads through the written one nor lies on the
    way to it, [getJsonValue] gives what it gave before. *)
Theorem setJsonValue_frame config name value result other defaultValue :
  setJsonValue config name value = Returns result →
  ¬ splitPath other `prefix_of` splitPath name →
  ¬ splitPath name `prefix_of` splitPath other →
  getJsonValue result other defaultValue
  = getJsonValue config other defaultValue.
Proof.
  intros Hset Hno1 Hno2.
  assert (Hne : splitPath other ≠ []).
  { intros Hnil. apply Hno1. rewrite Hnil. apply prefix_nil. }
  rewrite !getJsonValue_parts by done.
  unfold setJsonValue in Hset.
  by rewrite (set_at_get_other _ _ _ _ _ Hset Hno1 Hno2).
Qed.

Lemma prefix_cons_inv_eq {A} (x y : A) (l k : list A) :
  x :: l `prefix_of` y :: k → x = y ∧ l `prefix_of` k.
Proof.
  intros [t Ht]. simpl in Ht. injection Ht as -> ->.
  split; [done | by exists t].
Qed.

(** A node in the way makes [set_at] throw. *)
Lemma set_at_blocked q : ∀ current value r x,
  is_Some (json_of_any value) →
  r `prefix_of` q → r ≠ q → get_path current r = Some x → ¬ passable x →
  set_at current q value = Fails (type_error 305).
Proof.
  induction q as [|key rest IH]; intros current value r x Hv Hpre Hneq Hx Hbad.
  - apply prefix_nil_inv in Hpre. done.
  - destruct r as [|key' r].
    + simpl in Hx. injection Hx as ->.
      destruct rest as [|key2 rest].
      * rewrite set_at_last. destruct Hv as [v ->].
        destruct x; try done; exfalso; apply Hbad; [by left | by right].
      * rewrite set_at_cons by done.
        destruct x; try done; exfalso; apply Hbad; [by left | by right].
    + apply prefix_cons_inv_eq in Hpre as [-> Hpre].
      assert (Hneq' : r ≠ rest) by congruence.
      assert (Hrest : rest ≠ []).
      { intros ->. apply prefix_nil_inv in Hpre. done. }
      cbn [get_path] in Hx.
      destruct (member current key) as [child|] eqn:Hchild; [|done].
      simpl in Hx.
      destruct current as [| | | | | |m]; try done.
      change (member (JObject m) key) with (m !! key) in Hchild.
      rewrite set_at_cons by done. rewrite Hchild. simpl.
      by rewrite (IH child value r x Hv Hpre Hneq' Hx Hbad).
Qed.

(** The nodes on the way to a path either all let [set_at] pass, or one of
    them is in the way. *)
Lemma passable_or_blocked q : ∀ config,
  (∀ r x, r `prefix_of` q → r ≠ q →
          get_path config r = Some x → passable x) ∨
  (∃ r x, r `prefix_of` q ∧ r ≠ q ∧
          get_path config r = Some x ∧ ¬ passable x).
Proof.
  induction q as [|key rest IH]; intros config.
  - left. intros r x Hpre Hneq. apply prefix_nil_inv in Hpre. done.
  - destruct config as [| | | | | |m].
    2-6: right; eexists [], _; split; [apply prefix_nil|];
           split; [done|]; split; [reflexivity|];
           by intros [? | ?].
    + left. intros [|k r] x _ _ Hx.
      * injection Hx as <-. by left.
      * done.
    + destruct (m !! key) as [child|] eqn:Hchild.
      * destruct (IH child) as [Hok | (r & x & Hpre & Hneq & Hx & Hbad)].
        -- left. intros [|k r] x Hpre Hneq Hx.
           ++ injection Hx as <-. by right.
           ++ apply prefix_cons_inv_eq in Hpre as [-> Hpre].
              cbn [get_path] in Hx.
              change (member (JObject m) key) with (m !! key) in Hx.
              rewrite Hchild in Hx. simpl in Hx.
              apply (Hok r x); [done | congruence | done].
        -- right. exists (key :: r), x.
           split; [by apply prefix_cons|]. split; [congruence|].
           split; [|done]. cbn [get_path].
           change (member (JObject m) key) with (m !! key).
           by rewrite Hchild.
      * left. intros [|k r] x Hpre Hneq Hx.
        -- injection Hx as <-. by right.
        -- apply prefix_cons_inv_eq in Hpre as [-> Hpre].
           cbn [get_path] in Hx.
           change (member (JObject m) key) with (m !! key) in Hx.
           by rewrite Hchild in Hx.
Qed.

(** X12.  [setJsonValue] with a value it can store either returns or throws
    [type_error] 305, and it throws exactly when a node on the way to the
    path (the configuration itself included) holds something other than
    null or an object. *)
Theorem setJsonValue_throws_iff_blocked config name value :
  splitPath name ≠ [] → is_Some (json_of_any value) →
  ((∃ result, setJsonValue config name value = Returns result) ∨
   setJsonValue config name value = Fails (type_error 305)) ∧
  (setJsonValue config name value = Fails (type_error 305) ↔
   ∃ r x, r `prefix_of` splitPath name ∧ r ≠ splitPath name ∧
          get_path config r = Some x ∧ ¬ passable x).
Proof.
  intros Hne Hv. unfold setJsonValue.
  set (q := splitPath name) in *.
  destruct (passable_or_blocked q config)
    as [Hok | (r & x & Hpre & Hneq & Hx & Hbad)].
  - destruct (set_at_returns q config value Hne Hok) as [result Hres].
    split; [left; by exists result|].
    rewrite Hres. split; [done|].
    intros (r & x & Hpre & Hneq & Hx & Hbad). exfalso.
    apply Hbad. by apply (Hok r x).
  - pose proof (set_at_blocked q config value r x Hv Hpre Hneq Hx Hbad)
      as Hfail.
    split; [by right|]. split; [|done]. intros _. by exists r, x.
Qed.

Lemma mapM_all_returns {A B} (f : A → outcome B) (g : A → B) l :
  (∀ x, x ∈ l → f x = Returns (g x)) → mapM f l = Returns (map g l).
Proof.
  induction l as [|x l IH]; intros Hall; [done|].
  cbn [mapM map]. rewrite Hall by (by left).
  rewrite IH by (intros y Hy; apply Hall; by right). done.
Qed.

Lemma items_empty : items ∅ = [].
Proof. unfold items. by rewrite map_to_list_empty. Qed.

Lemma get_path_not_object j parts :
  is_object j = false → parts ≠ [] → get_path j parts = None.
Proof. intros Hj Hne. destruct parts; [done|]. by destruct j. Qed.

(** Where the expanded user configuration has nothing at the paths of the
    parameters, every setter receives its default. *)
Lemma initialize_all_defaults params userConfig user :
  wf_params params →
  processUserConfig userConfig = Returns user →
  (∀ param, param ∈ params →
     get_path user (splitPath (path param)) = None) →
  ∃ defaults,
    buildDefaultConfig params = Returns defaults ∧
    initialize params userConfig
    = Returns (map defaultValue params,
               if is_null user then defaults else mergeConfig defaults user).
Proof.
  intros Hwf Huser Hnone.
  destruct (initialize_spec params userConfig user Hwf Huser)
    as (defaults & Hdef & Hinit).
  exists defaults. split; [done|]. rewrite Hinit.
  rewrite (mapM_all_returns (spec_setting user) defaultValue); [done|].
  intros param Hparam. unfold spec_setting. by rewrite Hnone.
Qed.

(** X13.  Construction without a user configuration (the default
    constructor), with null or with an empty object: every setter receives
    the registered default, and the current configuration is the default
    configuration, which holds every default at its path. *)
Theorem initialize_without_configuration params userConfig :
  wf_params params →
  userConfig = JNull ∨ userConfig = JObject ∅ →
  ∃ defaults,
    initialize params userConfig
    = Returns (map defaultValue params, defaults) ∧
    buildDefaultConfig params = Returns defaults ∧
    ∀ param, param ∈ params →
      get_path defaults (splitPath (path param))
      = json_of_any (defaultValue param).
Proof.
  intros Hwf Hcases.
  assert (Huser : processUserConfig userConfig = Returns JNull).
  { destruct Hcases as [-> | ->]; [done|].
    unfold processUserConfig. by rewrite items_empty. }
  destruct (initialize_all_defaults params userConfig JNull Hwf Huser)
    as (defaults & Hdef & Hinit).
  { intros param Hparam. apply get_path_null.
    destruct Hwf as [Hall _]. rewrite Forall_forall in Hall.
    by apply Hall. }
  destruct (buildDefaultConfig_defaults params Hwf) as (defaults' & Hdef' & Hat).
  assert (defaults' = defaults) as -> by congruence.
  exists defaults. done.
Qed.

(** X14.  A user configuration that is neither null nor an object (a
    number, a string, an array) is not rejected: every setter receives its
    default, and the current configuration is that value, not the
    defaults. *)
Theorem initialize_not_an_object params userConfig :
  wf_params params →
  is_null userConfig = false → is_object userConfig = false →
  initialize params userConfig
  = Returns (map defaultValue params, userConfig).
Proof.
  intros Hwf Hnull Hobj.
  assert (Huser : processUserConfig userConfig = Returns userConfig).
  { by destruct userConfig. }
  destruct (initialize_all_defaults params userConfig userConfig Hwf Huser)
    as (defaults & Hdef & Hinit).
  { intros param Hparam. apply get_path_not_object; [done|].
    destruct Hwf as [Hall _]. rewrite Forall_forall in Hall.
    by apply Hall. }
  rewrite Hinit, Hnull. unfold mergeConfig.
  by rewrite merge_patch_not_object.
Qed.

Lemma nested_is_object parts value :
  parts ≠ [] → ∃ m, nested parts value = JObject m.
Proof. destruct parts; [done|]. intros _. by eexists. Qed.


Lemma leb_append s t : String.leb s (s +:+ t) = true.
Proof.
  unfold String.leb.
  induction s as [|c s IH].
  - by destruct t.
  - change (String c s +:+ t) with (String c (s +:+ t)). simpl.
    assert (Hc : Ascii.compare c c = Eq).
    { unfold Ascii.compare. apply N.compare_refl. }
    by rewrite Hc.
Qed.

Lemma append_longer s c t : s ≠ s +:+ String c t.
Proof.
  induction s as [|a s IH]; [done|].
  change (String a s +:+ String c t) with (String a (s +:+ String c t)).
  congruence.
Qed.

(** The members of a two-element object come in the order of the keys. *)
Lemma items_pair key1 key2 value1 value2 :
  String.leb key1 key2 = true → key1 ≠ key2 →
  items (<[key1 := value1]> {[ key2 := value2 ]})
  = [(key1, value1); (key2, value2)].
Proof.
  intros Hle Hne. unfold items.
  assert (Hperm : merge_sort key_le
                    (map_to_list (<[key1 := value1]> {[ key2 := value2 ]}))
                  ≡ₚ [(key1, value1); (key2, value2)]).
  { rewrite merge_sort_Permutation.
    rewrite map_to_list_insert by (by rewrite lookup_singleton_ne).
    by rewrite map_to_list_singleton. }
  assert (Htotal : Total key_le).
  { intros a b. unfold key_le. apply String.leb_total. }
  pose proof (Sorted_merge_sort key_le
                (map_to_list (<[key1 := value1]> {[ key2 := value2 ]})))
    as Hsorted.
  symmetry in Hperm.
  apply Permutation.Permutation_length_2_inv in Hperm as [-> | Heq];
    [done|].
  rewrite Heq in Hsorted. exfalso.
  apply Sorted_inv in Hsorted as [_ Hhd].
  apply HdRel_inv in Hhd. unfold key_le in Hhd. simpl in Hhd.
  apply Hne. by apply String.leb_antisym.
Qed.

(** X16.  A user configuration that gives a key a scalar (or an array) and
    also gives a dotted key below it cannot be expanded: the construction
    throws [type_error] 305, whatever parameters are registered. *)
Theorem initialize_conflicting_keys params key parts value inner :
  plain_key key → parts ≠ [] → Forall plain_key parts →
  is_scalar_or_array value = true → inner ≠ JNull →
  initialize params
    (JObject (<[key := value]> {[ dotted (key :: parts) := inner ]}))
  = Fails (type_error 305).
Proof.
  intros Hkey Hne Hkeys Hvalue Hinner.
  assert (Hdotted : dotted (key :: parts)
                    = key +:+ String "." (dotted parts)).
  { unfold dotted. destruct parts; [done|]. reflexivity. }
  unfold initialize.
  assert (Huser : processUserConfig
                    (JObject (<[key := value]>
                                {[ dotted (key :: parts) := inner ]}))
                  = Fails (type_error 305)); [|by rewrite Huser].
  unfold processUserConfig.
  rewrite items_pair.
  2: { rewrite Hdotted. apply leb_append. }
  2: { rewrite Hdotted. apply append_longer. }
  cbn [process_members].
  assert (Hfirst : ∃ stored,
            setJsonValue JNull key (json_to_any value)
            = Returns (JObject {[ key := stored ]}) ∧ ¬ passable stored).
  { unfold setJsonValue. rewrite splitPath_plain_key by done.
    rewrite set_at_last.
    destruct value; try done; simpl; eexists; (split; [reflexivity|]);
      by intros [? | ?]. }
  destruct Hfirst as (stored & -> & Hbad). cbn [mbind outcome_bind].
  assert (Hsecond : setJsonValue (JObject {[ key := stored ]})
                      (dotted (key :: parts)) (json_to_any inner)
                    = Fails (type_error 305)); [|by rewrite Hsecond].
  unfold setJsonValue.
  rewrite splitPath_dotted by (apply Forall_cons; by split).
  apply (set_at_blocked _ _ _ [key] stored).
  - apply json_of_json_to_any_is_Some. done.
  - by exists parts.
  - intros Heq. apply (f_equal length) in Heq. simpl in Heq.
    destruct parts; [done | simpl in Heq; lia].
  - cbn [get_path].
    change (member (JObject {[ key := stored ]}) key)
      with (({[ key := stored ]} : gmap string json) !! key).
    rewrite lookup_singleton, decide_True by done. reflexivity.
  - done.
Qed.

Section FromStringProperties.
Variable parse : string → json + string.


End FromStringProperties.

Lemma setJsonValue_getJsonValue_witness :
  let result := nested ["test_person"; "age"]%string (JInt 25) in
  json_of_any (any_int 25) = Some (JInt 25) ∧
  setJsonValue JNull "test_person.age" (any_int 25) = Returns result ∧
  (∀ defaultValue,
     getJsonValue result "test_person.age" defaultValue
     = get_as defaultValue (JInt 25)) ∧
  (storable (any_int 25) →
   getJsonValue result "test_person.age" (any_int 25)
   = Returns (Some (any_int 25))).
Proof.
  split; [reflexivity|]. split; [reflexivity|].
  apply (setJsonValue_getJsonValue JNull "test_person.age" (any_int 25)
           (JInt 25) (nested ["test_person"; "age"]%string (JInt 25)));
    reflexivity.
Defined.

Lemma setJsonValue_frame_witness :
  let config := nested ["test_person"; "name"]%string (JString "Anna") in
  ∃ result,
    setJsonValue config "test_person.age" (any_int 25) = Returns result ∧
    getJsonValue result "test_person.name" (any_string "default")
    = getJsonValue config "test_person.name" (any_string "default").
Proof.
  eexists. split; [reflexivity|].
  apply (setJsonValue_frame
           (nested ["test_person"; "name"]%string (JString "Anna"))
           "test_person.age" (any_int 25) _ "test_person.name"
           (any_string "default")).
  - reflexivity.
  - apply (bool_decide_unpack _). vm_compute. exact I.
  - apply (bool_decide_unpack _). vm_compute. exact I.
Defined.

Lemma setJsonValue_throws_iff_blocked_witness :
  let config := JObject {[ "x"%string := JInt 1 ]} in
  ((∃ result, setJsonValue config "x.y" (any_int 2) = Returns result) ∨
   setJsonValue config "x.y" (any_int 2) = Fails (type_error 305)) ∧
  (setJsonValue config "x.y" (any_int 2) = Fails (type_error 305) ↔
   ∃ r x, r `prefix_of` splitPath "x.y" ∧ r ≠ splitPath "x.y" ∧
          get_path config r = Some x ∧ ¬ passable x).
Proof.
  apply (setJsonValue_throws_iff_blocked
           (JObject {[ "x"%string := JInt 1 ]}) "x.y" (any_int 2)).
  - vm_compute. discriminate.
  - simpl. by eexists.
Defined.

Lemma initialize_without_configuration_witness :
  wf_params TailcutsCleaner_params ∧
  ∃ defaults,
    initialize TailcutsCleaner_params (JObject ∅)
    = Returns (map defaultValue TailcutsCleaner_params, defaults) ∧
    buildDefaultConfig TailcutsCleaner_params = Returns defaults ∧
    ∀ param, param ∈ TailcutsCleaner_params →
      get_path defaults (splitPath (path param))
      = json_of_any (defaultValue param).
Proof.
  split; [exact wf_TailcutsCleaner_params|].
  apply (initialize_without_configuration TailcutsCleaner_params
           (JObject ∅) wf_TailcutsCleaner_params).
  right. reflexivity.
Defined.

Lemma initialize_not_an_object_witness :
  wf_params TailcutsCleaner_params ∧
  initialize TailcutsCleaner_params (JArray [JInt 30; JInt 10])
  = Returns (map defaultValue TailcutsCleaner_params,
             JArray [JInt 30; JInt 10]).
Proof.
  split; [exact wf_TailcutsCleaner_params|].
  apply (initialize_not_an_object TailcutsCleaner_params
           (JArray [JInt 30; JInt 10]) wf_TailcutsCleaner_params);
    reflexivity.
Defined.


Lemma initialize_conflicting_keys_witness :
  initialize TailcutsCleaner_params
    (JObject (<["cut"%string := JInt 1]> {[ "cut.low"%string := JInt 2 ]}))
  = Fails (type_error 305).
Proof.
  apply (initialize_conflicting_keys TailcutsCleaner_params "cut"
           ["low"]%string (JInt 1) (JInt 2)).
  - by vm_compute.
  - discriminate.
  - apply Forall_cons. split; [by vm_compute | apply Forall_nil_2].
  - reflexivity.
  - discriminate.
Defined.


(** ** More on the data writer *)

Lemma elem_of_one (c x : writer_call) (cond : bool) :
  c ∈ (if cond then [x] else []) ↔ cond = true ∧ c = x.
Proof.
  destruct cond.
  - rewrite list_elem_of_singleton. naive_solver.
  - split; [by intros ?%elem_of_nil | by intros [? _]].
Qed.

Lemma sublist_one (x : writer_call) (cond : bool) :
  (if cond then [x] else []) `sublist_of` [x].
Proof. destruct cond; [done | apply sublist_nil_l]. Qed.

Lemma has_value_is_Some {A} (opt : option A) :
  has_value opt = true ↔ is_Some opt.
Proof.
  destruct opt; simpl; split; done.
Qed.

Lemma routed_calls_tail self event c :
  c ∈ tail (routed_calls self event) ↔
  (write_simulation_shower_enabled self = true ∧
   is_Some (simulation event)) ∧ c = write_simulation_shower ∨
  (write_simulated_camera_enabled self = true ∧
   match simulation event with
   | Some sim => bool_decide (0 < size (sim_tels sim))%nat
   | None => false
   end = true) ∧
  c = write_simulated_camera (write_simulated_camera_image_enabled self) ∨
  (write_r0_enabled self = true ∧ is_Some (r0 event)) ∧ c = write_r0 ∨
  (write_r1_enabled self = true ∧ is_Some (r1 event)) ∧ c = write_r1 ∨
  (write_dl0_enabled self = true ∧ is_Some (dl0 event)) ∧ c = write_dl0 ∨
  (write_dl1_enabled self = true ∧ is_Some (dl1 event)) ∧
  c = write_dl1 (write_dl1_image_enabled self) ∨
  (write_dl2_enabled self = true ∧ is_Some (dl2 event)) ∧ c = write_dl2 ∨
  (write_monitor_enabled self = true ∧ is_Some (monitor event)) ∧
  c = write_monitor ∨
  (write_pointing_enabled self = true ∧ is_Some (pointing event)) ∧
  c = write_pointing.
Proof.
  unfold routed_calls. cbn [app tail].
  rewrite !elem_of_app, !elem_of_one, !andb_true_iff, !has_value_is_Some.
  reflexivity.
Qed.

Local Ltac pick_route :=
  first [ solve [split; [by split | reflexivity]]
        | left; solve [split; [by split | reflexivity]]
        | right; pick_route ].

Local Ltac route :=
  let H := fresh "H" in
  split;
  [ intros H; decompose [or and] H; clear H; try discriminate; done
  | intros [? ?]; pick_route ].

(** X18.  Where [operator()] does not look into an absent simulation layer
    (the layer is present, or [write_simulated_camera] is disabled), it
    returns, keeps what the backend had received, calls
    [unique_write_method] first and then, in the order of the source and
    each at most once, the method of every layer that is enabled and
    present, and of no other; the simulated cameras are written when the
    simulation layer holds at least one telescope, and the image flags are
    handed on as they are set. *)
Theorem DataWriter_call_routing self event calls :
  file_writer self = Some calls →
  write_simulated_camera_enabled self = false ∨ is_Some (simulation event) →
  ∃ new,
    DataWriter_call self event
    = Returns (Some (calls ++ unique_write_method :: new)) ∧
    new `sublist_of`
      [ write_simulation_shower;
        write_simulated_camera (write_simulated_camera_image_enabled self);
        write_r0; write_r1; write_dl0;
        write_dl1 (write_dl1_image_enabled self);
        write_dl2; write_monitor; write_pointing ] ∧
    (write_simulation_shower ∈ new ↔
       write_simulation_shower_enabled self = true ∧
       is_Some (simulation event)) ∧
    ((∃ b, write_simulated_camera b ∈ new) ↔
       write_simulated_camera_enabled self = true ∧
       ∃ sim, simulation event = Some sim ∧ (0 < size (sim_tels sim))%nat) ∧
    (write_r0 ∈ new ↔ write_r0_enabled self = true ∧ is_Some (r0 event)) ∧
    (write_r1 ∈ new ↔ write_r1_enabled self = true ∧ is_Some (r1 event)) ∧
    (write_dl0 ∈ new ↔
       write_dl0_enabled self = true ∧ is_Some (dl0 event)) ∧
    ((∃ b, write_dl1 b ∈ new) ↔
       write_dl1_enabled self = true ∧ is_Some (dl1 event)) ∧
    (write_dl2 ∈ new ↔
       write_dl2_enabled self = true ∧ is_Some (dl2 event)) ∧
    (write_monitor ∈ new ↔
       write_monitor_enabled self = true ∧ is_Some (monitor event)) ∧
    (write_pointing ∈ new ↔
       write_pointing_enabled self = true ∧ is_Some (pointing event)).
Proof.
  intros Hfw Hsim.
  rewrite (DataWriter_call_routes self event calls Hfw Hsim).
  exists (tail (routed_calls self event)). split; [reflexivity|].
  split.
  { unfold routed_calls. cbn [app tail].
    repeat (apply (sublist_app _ [_]); [apply sublist_one|]).
    apply sublist_one. }
  repeat match goal with |- _ ∧ _ => split end.
  all: try setoid_rewrite routed_calls_tail.
  - route.
  - split.
    + intros [b H]. decompose [or and] H; clear H; try discriminate.
      split; [done|].
      destruct (simulation event) as [sim|]; [|done].
      exists sim. split; [done|].
      match goal with
      | H : bool_decide _ = true |- _ => by apply bool_decide_eq_true in H
      end.
    + intros (Hen & sim & Heq & Hn).
      exists (write_simulated_camera_image_enabled self).
      right. left. rewrite Heq. split; [|done].
      split; [done|]. by apply bool_decide_eq_true.
  - route.
  - route.
  - route.
  - split.
    + intros [b H]. decompose [or and] H; clear H; try discriminate. done.
    + intros [Hen Hdl1]. exists (write_dl1_image_enabled self).
      do 5 right. left. done.
  - route.
  - route.
  - route.
Qed.


Lemma DataWriter_call_routing_witness :
  file_writer default_DataWriter = Some [] ∧
  is_Some (simulation simulated_event) ∧
  ∃ new,
    DataWriter_call default_DataWriter simulated_event
    = Returns (Some (unique_write_method :: new)) ∧
    (∃ b, write_dl1 b ∈ new) ∧ write_r0 ∉ new.
Proof.
  split; [reflexivity|]. split; [by eexists|].
  destruct (DataWriter_call_routing default_DataWriter simulated_event []
              eq_refl (or_intror (ex_intro _ _ eq_refl)))
    as (new & Hcall & _ & _ & _ & Hr0 & _ & _ & Hdl1 & _).
  exists new. split; [exact Hcall|]. split.
  - apply Hdl1. split; [reflexivity | by eexists].
  - intros Hin. apply Hr0 in Hin as [Hen _]. discriminate Hen.
Defined.

(** ** More on the command line program *)

Lemma split_commas_not_nil s : split_commas s ≠ [].
Proof.
  destruct s as [|a s]; [done|]. simpl.
  destruct (Ascii.eqb a ","); [done|]. by destruct (split_commas s).
Qed.

Lemma split_commas_join s t :
  split_commas (s +:+ String "," t) = split_commas s ++ split_commas t.
Proof.
  induction s as [|a s IH]; [done|].
  change (String a s +:+ String "," t) with (String a (s +:+ String "," t)).
  cbn [split_commas]. rewrite IH.
  destruct (Ascii.eqb a ","); [done|].
  pose proof (split_commas_not_nil s).
  by destruct (split_commas s).
Qed.

Lemma split_commas_length s : length (split_commas s) = S (commas s).
Proof.
  induction s as [|a s IH]; [done|]. cbn [split_commas commas].
  destruct (Ascii.eqb a ",").
  - simpl. by rewrite IH.
  - pose proof (split_commas_not_nil s).
    destruct (split_commas s); [done|]. simpl in *. lia.
Qed.

Lemma mapM_option_app {A B} (f : A → option B) l k :
  mapM f (l ++ k) = (a ← mapM f l; b ← mapM f k; Some (a ++ b)).
Proof.
  induction l as [|x l IH]; simpl.
  - by destruct (mapM f k).
  - destruct (f x); [|done]. simpl. rewrite IH.
    destruct (mapM f l); [|done]. simpl. by destruct (mapM f k).
Qed.

Lemma stoi_int s v : stoi s = Some v → - 2 ^ 31 ≤ v < 2 ^ 31.
Proof.
  unfold stoi.
  destruct (match skip_spaces s with
            | String "-"%char s' => (true, s')
            | String "+"%char s' => (false, s')
            | _ => (false, skip_spaces s)
            end) as [negative s'].
  destruct (leading_digits s' None) as [n|]; [|done].
  case_bool_decide; [|done]. intros [= <-]. lia.
Qed.

(** X19.  The [-s] list is read token by token: the ids of a list joined by
    a comma are the ids of its two parts, one behind the other, and the
    list is refused as soon as one part is.  A list that ends or begins
    with a comma is refused (the empty token is no integer); an accepted
    list has one id more than it has commas, each an [int]. *)
Theorem parse_subarray_commas s :
  (∀ t, parse_subarray (s +:+ "," +:+ t)
        = (a ← parse_subarray s; b ← parse_subarray t; Some (a ++ b))) ∧
  parse_subarray (s +:+ ",") = None ∧
  parse_subarray ("," +:+ s) = None ∧
  ∀ tel_ids, parse_subarray s = Some tel_ids →
    length tel_ids = S (commas s) ∧
    Forall (λ v, - 2 ^ 31 ≤ v < 2 ^ 31) tel_ids.
Proof.
  assert (Hjoin : ∀ a b, parse_subarray (a +:+ "," +:+ b)
            = (x ← parse_subarray a; y ← parse_subarray b; Some (x ++ y))).
  { intros a b. unfold parse_subarray.
    change ("," +:+ b) with (String "," b).
    by rewrite split_commas_join, mapM_option_app. }
  split; [apply Hjoin|]. split; [|split].
  - change "," with ("," +:+ ""). rewrite Hjoin.
    by destruct (parse_subarray s).
  - change ("," +:+ s) with ("" +:+ "," +:+ s). by rewrite Hjoin.
  - unfold parse_subarray. intros tel_ids Hids. split.
    + apply length_mapM in Hids. by rewrite <- Hids, split_commas_length.
    + apply mapM_Some_1 in Hids.
      induction Hids as [|token v tokens ids Hv _ IH]; [apply Forall_nil_2|].
      apply Forall_cons. split; [by apply (stoi_int token) | done].
Qed.

Lemma parse_subarray_commas_witness :
  parse_subarray "1,2,3" = Some [1; 2; 3] ∧
  length [1; 2; 3] = S (commas "1,2,3") ∧
  Forall (λ v, - 2 ^ 31 ≤ v < 2 ^ 31) [1; 2; 3].
Proof.
  split; [reflexivity|].
  exact (proj2 (proj2 (proj2 (parse_subarray_commas "1,2,3")))
           [1; 2; 3] eq_refl).
Defined.

(** ** More on the ROOT writer *)

(** X20.  [RootWriter::open] touches no file but its own.  When it throws,
    the writer is left without a file and the file system as it was, and
    this happens not only for an existing file: a path that cannot be
    written makes [open(false)] throw "file already exists" as well.
    When [open(false)] returns, the file did not exist before and is now
    open and empty.  [open(true)] never throws, but returns without an
    open file when the path cannot be written. *)
Theorem RootWriter_open_cases self overwrite fs :
  ∃ fs' self' result,
    RootWriter_open self overwrite fs = (fs', self', result) ∧
    filename self' = filename self ∧
    (∀ other, other ≠ filename self →
       files fs' !! other = files fs !! other) ∧
    ((∃ e, result = Fails e) →
       overwrite = false ∧ file self' = None ∧ fs' = fs ∧
       (is_Some (files fs !! filename self) ∨
        writable fs (filename self) = false)) ∧
    (result = Returns tt → overwrite = false →
       files fs !! filename self = None ∧
       file self' = Some {| file_path := filename self |} ∧
       files fs' !! filename self = Some []) ∧
    (overwrite = true →
       result = Returns tt ∧
       (writable fs (filename self) = false → file self' = None ∧ fs' = fs) ∧
       (writable fs (filename self) = true →
        file self' = Some {| file_path := filename self |} ∧
        files fs' !! filename self = Some [])).
Proof.
  unfold RootWriter_open, TFile_Open.
  destruct overwrite, (writable fs (filename self)) eqn:Hw,
    (files fs !! filename self) as [contents|] eqn:Hex;
    simpl; rewrite ?Hex; simpl;
    eexists _, _, _; (split; [reflexivity|]); simpl;
    (split; [reflexivity|]);
    (split; [intros other Hother; by rewrite ?lookup_insert_ne|]);
    (split; [first [ by intros [e [=]]
                   | intros _; repeat split; eauto ]|]);
    (split; [first [ by intros [=] | by intros _ [=]
                   | intros _ _; repeat split; apply lookup_insert_eq ]|]);
    first [ by intros [=]
          | intros _; split; [reflexivity|];
            split; [first [ by intros [=] | by intros _ ]|];
            first [ by intros [=]
                  | intros _; split; [reflexivity | apply lookup_insert_eq] ] ].
Qed.

Lemma RootWriter_open_cases_witness :
  let fs := {| files := ∅; writable := λ _, false |} in
  let self := {| filename := "/readonly/out.root"; file := None |} in
  (RootWriter_open self true fs).2 = Returns tt ∧
  ∃ fs' self',
    RootWriter_open self true fs = (fs', self', Returns tt) ∧
    file self' = None ∧ fs' = fs.
Proof.
  intros fs self. split; [reflexivity|].
  destruct (RootWriter_open_cases self true fs)
    as (fs' & self' & result & Hopen & _ & _ & _ & _ & Htrue).
  destruct (Htrue eq_refl) as (-> & Hno & _).
  destruct (Hno eq_refl) as [Hfile ->].
  exists fs, self'. done.
Defined.

(** ** The [-l] option on JSON *)

Section LeakageUpdate.
Variable default_config : json.
Variable read_file : string → option string.
Variable parse_json : string → option json.
Variable process_file : json → list Z → string → string → bool.

Local Abbreviation run_json :=
  (main default_config read_file parse_json set_image_query_json
     process_file).

Local Abbreviation image_query_path :=
  (["shower_processor"; "HillasReconstructor"; "ImageQuery"]%string).

(** X21.  With [-l], [main] replaces the [ImageQuery] of the
    [HillasReconstructor] by the leakage query and hands everything beside
    that path on as it was loaded, provided the loaded configuration, its
    [shower_processor] and the [HillasReconstructor] in it are each null,
    an object or absent.  When one of them is anything else (the [-c] file
    holds an array, say, or a string for [shower_processor]) the
    assignment throws and [main] ends by the uncaught exception before any
    file is taken up. *)
Theorem main_leakage_update a loaded l :
  ¬ listed_setup_error read_file a →
  match config_file a with
  | Some path => ∃ text, read_file path = Some text ∧
                         parse_json text = Some loaded
  | None => loaded = default_config
  end →
  max_leakage2 a = Some l →
  ((∀ r x, r `prefix_of` image_query_path → r ≠ image_query_path →
           get_path loaded r = Some x → passable x) →
   ∃ config,
     get_path config image_query_path = Some (JString (leakage_query l)) ∧
     (∀ p, ¬ p `prefix_of` image_query_path →
           ¬ image_query_path `prefix_of` p →
           get_path config p = get_path loaded p) ∧
     run_json (Parsed a)
     = match (match subarray a with
              | Some s => parse_subarray s
              | None => Some []
              end) with
       | None => ([], Exit 1)
       | Some tel_ids =>
           (flat_map (process_pair process_file config tel_ids)
                     (zip (input_files a) (output_files a)), Exit 0)
       end) ∧
  ((∃ r x, r `prefix_of` image_query_path ∧ r ≠ image_query_path ∧
           get_path loaded r = Some x ∧ ¬ passable x) →
   run_json (Parsed a) = ([], Terminated)).
Proof.
  intros Hok Hload Hl. split.
  - intros Hpass.
    destruct (set_at_returns image_query_path loaded
                (any_string (leakage_query l)) ltac:(done) Hpass)
      as [config Hset].
    exists config. split; [|split].
    + by apply (set_at_get_same _ _ (any_string (leakage_query l)) _ _
                  eq_refl Hset).
    + intros p Hno1 Hno2. by apply (set_at_get_other _ _ _ _ _ Hset).
    + apply main_config_loads; [done|].
      exists loaded. split; [done|]. rewrite Hl.
      unfold set_image_query_json. by rewrite Hset.
  - intros (r & x & Hpre & Hneq & Hx & Hbad).
    pose proof (set_at_blocked image_query_path loaded
                  (any_string (leakage_query l)) r x
                  ltac:(by eexists) Hpre Hneq Hx Hbad) as Hfail.
    unfold main.
    rewrite bool_decide_false by (intros H; apply Hok; by left).
    rewrite bool_decide_false by (intros H; apply Hok; right; by left).
    assert (Hupd : set_image_query_json loaded (leakage_query l) = None).
    { unfold set_image_query_json. by rewrite Hfail. }
    destruct (config_file a) as [path|].
    + destruct Hload as (text & -> & ->). by rewrite Hl, Hupd.
    + subst loaded. by rewrite Hl, Hupd.
Qed.

End LeakageUpdate.

Lemma main_leakage_update_witness :
  let a := {| input_files := ["run1.simtel"]%string;
              output_files := ["run1.root"]%string;
              config_file := None; max_leakage2 := Some "0.2"%string;
              subarray := None |} in
  let loaded := JObject {[ "shower_processor"%string := JString "none" ]} in
  main loaded demo_read_file (λ _, Some JNull) set_image_query_json
    (λ _ _ _ _, true) (Parsed a)
  = ([], Terminated).
Proof.
  intros a loaded.
  refine (proj2 (main_leakage_update loaded demo_read_file (λ _, Some JNull)
                   (λ _ _ _ _, true) a loaded "0.2" _ eq_refl eq_refl) _).
  - intros [Hin | [Hlen | (path & Hcfg & _)]].
    + discriminate Hin.
    + by apply Hlen.
    + discriminate Hcfg.
  - exists ["shower_processor"%string], (JString "none").
    split; [by eexists|]. split; [discriminate|].
    split; [reflexivity|]. by intros [? | ?].
Defined.

(** ** Table lookup ([rpolator.c]) *)

Lemma c_int_small z :
  - 2 ^ 31 ≤ z < 2 ^ 31 → c_int z = Returns z.
Proof. intros Hz. unfold c_int. by rewrite bool_decide_true. Qed.

Lemma elem_lookup {A} (v : list A) (k : Z) a :
  0 ≤ k → v !! Z.to_nat k = Some a → elem v k = Returns a.
Proof.
  intros Hk Ha. unfold elem. by rewrite bool_decide_true, Ha.
Qed.

Lemma lookup_in_table {A} (v : list A) (n k : Z) :
  Z.of_nat (length v) = n → 0 ≤ k < n → ∃ a, v !! Z.to_nat k = Some a.
Proof.
  intros Hlen Hk. apply lookup_lt_is_Some. lia.
Qed.

Section RpolatorProperties.
Context {double : Type}.
Variables flt fle feq : double → double → bool.
Variables fadd fsub fmul fdiv : double → double → double.
Variables zero one half : double.
Variable to_int : double → option Z.

(** The table and the argument. *)
Variables (v : list double) (n : Z) (x : double).
Hypothesis table_length : Z.of_nat (length v) = n.
Hypothesis table_ordered : ordered flt fle (x :: v).
Hypothesis table_ascending : ascending fle v.

Local Abbreviation V k := (v !! Z.to_nat k).

Lemma x_in : x ∈ x :: v.
Proof. by left. Qed.

Lemma V_in k a : V k = Some a → a ∈ x :: v.
Proof. intros Ha. right. by apply list_elem_of_lookup_2 in Ha. Qed.

Lemma fle_total a b :
  a ∈ x :: v → b ∈ x :: v → fle a b = true ∨ fle b a = true.
Proof. apply table_ordered. Qed.

Lemma fle_trans a b c :
  a ∈ x :: v → b ∈ x :: v → c ∈ x :: v →
  fle a b = true → fle b c = true → fle a c = true.
Proof. apply table_ordered. Qed.

Lemma flt_not_le a b :
  a ∈ x :: v → b ∈ x :: v → flt a b = negb (fle b a).
Proof. apply table_ordered. Qed.

Lemma V_mono i j a b :
  0 ≤ i ≤ j → V i = Some a → V j = Some b → fle a b = true.
Proof.
  intros Hij Ha Hb. apply (table_ascending (Z.to_nat i) (Z.to_nat j)); [done..|lia].
Qed.

(** Between the ends of the table there is an interval that holds [x]. *)
Lemma brackets_exists (k : nat) a b :
  (1 ≤ k)%nat → v !! 0%nat = Some a → v !! k = Some b →
  fle a x = true → fle x b = true →
  ∃ t, 1 ≤ t ≤ Z.of_nat k ∧ brackets fle v x t.
Proof.
  intros Hk Ha. revert b.
  induction k as [|k IH]; intros b Hb Hax Hxb; [lia|].
  destruct (decide (k = 0)%nat) as [-> | Hk0].
  - exists 1. split; [lia|]. split; [lia|].
    exists a, b. done.
  - assert (is_Some (v !! k)) as [c Hc].
    { apply lookup_lt_is_Some. apply lookup_lt_Some in Hb. lia. }
    destruct (fle c x) eqn:Hcx.
    + exists (Z.of_nat (S k)). split; [lia|]. split; [lia|].
      exists c, b.
      replace (Z.to_nat (Z.of_nat (S k) - 1)) with k by lia.
      replace (Z.to_nat (Z.of_nat (S k))) with (S k) by lia. done.
    + destruct (IH ltac:(lia) c Hc Hax) as (t & Ht & Hbr).
      { destruct (fle_total c x) as [H | H]; [| apply x_in| congruence | done].
        right. by apply list_elem_of_lookup_2 in Hc. }
      exists t. split; [lia | done].
Qed.

Hypothesis table_size : 2 ≤ n ≤ 2 ^ 29.

Local Abbreviation loop := (interp_loop flt fle feq fsub fdiv half).

Lemma half_up m (k : nat) :
  1 ≤ m ≤ 2 ^ Z.of_nat k →
  let m' := (m + 1) `quot` 2 in
  1 ≤ m' ∧ m' ≤ m ∧ m ≤ 2 * m' ∧ m' ≤ 2 ^ Z.of_nat (pred k) ∧
  (m = 1 → m' = 1).
Proof.
  intros Hm m'. subst m'. rewrite Z.quot_div_nonneg by lia.
  assert (H2 : 2 * ((m + 1) `div` 2) ≤ m + 1 < 2 * ((m + 1) `div` 2) + 2).
  { pose proof (Z.div_mod (m + 1) 2 ltac:(lia)).
    pose proof (Z.mod_pos_bound (m + 1) 2 ltac:(lia)). lia. }
  repeat split; try lia.
  destruct k as [|k]; simpl in *; [lia|].
  replace (Z.of_nat (S k)) with (Z.succ (Z.of_nat k)) in Hm by lia.
  rewrite Z.pow_succ_r in Hm by lia. 
  pose proof (Z.pow_pos_nonneg 2 (Z.of_nat k) ltac:(lia) ltac:(lia)). lia.
Qed.

Lemma interp_loop_ascending (i : nat) : ∀ (l m r : Z) (k : nat) (t : Z) a0 an,
  V 0 = Some a0 → V (n - 1) = Some an →
  flt a0 x = true → flt x an = true →
  1 ≤ t ≤ n - 1 → brackets fle v x t →
  1 ≤ m ≤ 2 ^ Z.of_nat k → (k ≤ 28)%nat → 0 ≤ r ≤ m → l - r ≤ t ≤ l + r →
  ((if decide (r = 0%Z) then 1 else k + 2) ≤ i)%nat →
  ∃ j rpl, loop i x v n 0 l m = Returns (Some (j, rpl)) ∧
           1 ≤ j ≤ n - 1 ∧ brackets fle v x j.
Proof.
  induction i as [|i IH];
    intros l m r k t a0 an H0 Hn Hlo Hhi Ht Hbr Hm Hk Hr Hl Hfuel.
  { destruct (decide (r = 0)); lia. }
  cbn [interp_loop].
  set (j := if bool_decide ((if bool_decide (l < 1) then 1 else l) > n - 1)
            then n - 1 else if bool_decide (l < 1) then 1 else l).
  assert (Hj : 1 ≤ j ≤ n - 1 ∧ (1 ≤ l ≤ n - 1 → j = l) ∧
               (l < 1 → j = 1) ∧ (l > n - 1 → j = n - 1)).
  { subst j. repeat case_bool_decide; lia. }
  destruct Hj as (Hj & Hjl & Hj1 & Hjn).
  destruct (lookup_in_table v n (j - 1) table_length ltac:(lia)) as [aj1 Haj1].
  destruct (lookup_in_table v n j table_length ltac:(lia)) as [aj Haj].
  replace (j + 0 - 1) with (j - 1) by lia.
  replace (j - 0) with j by lia.
  rewrite (elem_lookup v (j - 1) aj1) by (done || lia).
  rewrite (elem_lookup v j aj) by (done || lia).
  cbn [mbind outcome_bind].
  pose proof (V_in _ _ Haj1) as Hin1. pose proof (V_in _ _ Haj) as Hin.
  destruct Hbr as (_ & ta & tb & Hta & Htb & Htax & Hxtb).
  pose proof (V_in _ _ Hta) as Hina. pose proof (V_in _ _ Htb) as Hinb.
  assert (Hfound : fle aj1 x = true → fle x aj = true →
            ∃ j0 rpl,
              Returns (Some (j, if negb (feq aj aj1)
                                then fdiv (fsub x aj1) (fsub aj aj1)
                                else half))
              = Returns (Some (j0, rpl)) ∧
              1 ≤ j0 ≤ n - 1 ∧ brackets fle v x j0).
  { intros H1 H2. eexists _, _. split; [reflexivity|]. split; [done|].
    split; [lia|]. by exists aj1, aj. }
  pose proof (half_up m k Hm) as (Hm1 & Hm2 & Hm3 & Hm4 & Hm5).
  set (m' := (m + 1) `quot` 2) in *.
  assert (Hpow28 : 2 ^ Z.of_nat k ≤ 2 ^ 28).
  { apply Z.pow_le_mono_r; lia. }
  destruct (fle aj1 x) eqn:Hle1.
  - cbn [mbind outcome_bind].
    destruct (fle x aj) eqn:Hle2; cbn [mbind outcome_bind];
      [apply Hfound; reflexivity|].
    (* [x] is beyond the interval: go right *)
    rewrite c_int_small by lia. cbn [mbind outcome_bind]. fold m'.
    assert (Hgt : flt aj1 x = true).
    { rewrite (flt_not_le aj1 x Hin1 x_in). apply negb_true_iff.
      destruct (fle x aj1) eqn:Hc; [|done].
      rewrite (fle_trans x aj1 aj x_in Hin1 Hin Hc) in Hle2; [done|].
      apply (V_mono (j - 1) j); [lia | done..]. }
    rewrite Hgt.
    assert (Htj : j < t).
    { destruct (decide (t ≤ j)) as [Hle|]; [|lia].
      rewrite (fle_trans x tb aj x_in Hinb Hin Hxtb) in Hle2; [done|].
      apply (V_mono t j); [lia | done..]. }
    assert (Hlj : l ≤ j) by lia.
    assert (Hr0 : r ≠ 0) by lia.
    rewrite decide_False in Hfuel by done.
    rewrite c_int_small by lia. cbn [mbind outcome_bind].
    replace (l + (1 - 2 * 0) * m') with (l + m') by lia.
    apply (IH (l + m') m' (if decide (m = 1) then 0 else m') (pred k) t a0 an);
      try done.
    + split; [lia|]. by exists ta, tb.
    + lia.
    + destruct (decide (m = 1)); lia.
    + destruct (decide (m = 1)); lia.
    + destruct (decide (m = 1)) as [-> | Hne].
      * rewrite decide_True by done. lia.
      * destruct k as [|k]; [simpl in Hm; lia|]. simpl.
        destruct (decide (m' = 0)); lia.
  - cbn [mbind outcome_bind].
    rewrite c_int_small by lia. cbn [mbind outcome_bind]. fold m'.
    assert (Hgt : flt aj1 x = false).
    { rewrite (flt_not_le aj1 x Hin1 x_in). apply negb_false_iff.
      destruct (fle_total x aj1 x_in Hin1) as [H | H]; [done | congruence]. }
    rewrite Hgt.
    assert (Htj : t < j).
    { destruct (decide (j ≤ t)) as [Hle|]; [|lia].
      rewrite (fle_trans aj1 ta x Hin1 Hina x_in) in Hle1; [done | | done].
      apply (V_mono (j - 1) (t - 1)); [lia | done..]. }
    assert (Hlj : j ≤ l) by lia.
    assert (Hr0 : r ≠ 0) by lia.
    rewrite decide_False in Hfuel by done.
    rewrite c_int_small by lia. cbn [mbind outcome_bind].
    replace (l - (1 - 2 * 0) * m') with (l - m') by lia.
    apply (IH (l - m') m' (if decide (m = 1) then 0 else m') (pred k) t a0 an);
      try done.
    + split; [lia|]. by exists ta, tb.
    + lia.
    + destruct (decide (m = 1)); lia.
    + destruct (decide (m = 1)); lia.
    + destruct (decide (m = 1)) as [-> | Hne].
      * rewrite decide_True by done. lia.
      * destruct k as [|k]; [simpl in Hm; lia|]. simpl.
        destruct (decide (m' = 0)); lia.
Qed.

(** The search of [interp] on an ascending table. *)
Lemma interp_finds a0 an :
  V 0 = Some a0 → V (n - 1) = Some an → flt a0 an = true →
  ∃ ipl rpl,
    interp flt fle feq fsub fdiv zero one half x v n
    = Returns (Some (ipl, rpl)) ∧
    1 ≤ ipl ≤ n - 1 ∧
    (fle x a0 = true → ipl = 1 ∧ rpl = zero) ∧
    (fle x a0 = false → fle an x = true → ipl = n - 1 ∧ rpl = one) ∧
    (fle a0 x = true → fle x an = true → brackets fle v x ipl).
Proof.
  intros H0 Hn Hrise. unfold interp.
  rewrite (elem_lookup v 0 a0) by (done || lia).
  rewrite (elem_lookup v (n - 1) an) by (done || lia).
  cbn [mbind outcome_bind]. rewrite Hrise.
  pose proof (V_in _ _ H0) as Hin0. pose proof (V_in _ _ Hn) as Hinn.
  destruct (lookup_in_table v n 1 table_length ltac:(lia)) as [a1 H1].
  destruct (lookup_in_table v n (n - 2) table_length ltac:(lia)) as [a2 H2].
  destruct (fle x a0) eqn:Hx0.
  { eexists _, _. split; [reflexivity|]. split; [lia|].
    split; [done|]. split; [done|]. intros Hle _.
    split; [lia|]. exists a0, a1. repeat split; try done.
    apply (fle_trans x a0 a1 x_in Hin0 (V_in _ _ H1) Hx0).
    apply (V_mono 0 1); [lia | done..]. }
  destruct (fle an x) eqn:Hxn.
  { eexists _, _. split; [reflexivity|]. split; [lia|].
    split; [done|]. split; [done|]. intros _ Hle.
    split; [lia|]. exists a2, an.
    replace (n - 1 - 1) with (n - 2) by lia. repeat split; try done.
    apply (fle_trans a2 an x (V_in _ _ H2) Hinn x_in); [|done].
    apply (V_mono (n - 2) (n - 1)); [lia | done..]. }
  assert (Hlo : flt a0 x = true).
  { rewrite (flt_not_le a0 x Hin0 x_in). by rewrite Hx0. }
  assert (Hhi : flt x an = true).
  { rewrite (flt_not_le x an x_in Hinn). by rewrite Hxn. }
  assert (Hle0 : fle a0 x = true).
  { destruct (fle_total a0 x Hin0 x_in); [done | congruence]. }
  assert (Hlen : fle x an = true).
  { destruct (fle_total x an x_in Hinn); [done | congruence]. }
  destruct (brackets_exists (Z.to_nat (n - 1)) a0 an ltac:(lia) H0 Hn Hle0 Hlen)
    as (t & Ht & Hbr).
  rewrite c_int_small by lia. cbn [mbind outcome_bind].
  assert (Hhalf : 2 * ((n + 1) `quot` 2) ≤ n + 1 < 2 * ((n + 1) `quot` 2) + 2).
  { rewrite Z.quot_div_nonneg by lia.
    pose proof (Z.div_mod (n + 1) 2 ltac:(lia)).
    pose proof (Z.mod_pos_bound (n + 1) 2 ltac:(lia)). lia. }
  destruct (interp_loop_ascending 30 ((n + 1) `quot` 2 - 1)
              ((n + 1) `quot` 2) ((n + 1) `quot` 2) 28 t a0 an)
    as (j & rpl & Hloop & Hj & Hbrj); try done; try lia.
  { destruct (decide ((n + 1) `quot` 2 = 0)); lia. }
  exists j, rpl. split; [done|]. split; [done|].
  split; [done|]. split; [done|]. done.
Qed.

(** X22.  For a table of at least 2 and at most 2^29 points without NaN
    that does not descend and rises from its first to its last point, and
    an argument that is no NaN, [interp] finds an interval within its 30
    steps: it assigns [ipl] with [1 <= ipl <= n-1]; below the table it is
    the first interval with [rpl = 0], above it the last with [rpl = 1],
    and inside the table [v[ipl-1] <= x <= v[ipl]].  No read leaves the
    table and no [int] overflows. *)
Theorem interp_ascending a0 an :
  V 0 = Some a0 → V (n - 1) = Some an → flt a0 an = true →
  ∃ ipl rpl,
    interp flt fle feq fsub fdiv zero one half x v n
    = Returns (Some (ipl, rpl)) ∧
    1 ≤ ipl ≤ n - 1 ∧
    (fle x a0 = true → ipl = 1 ∧ rpl = zero) ∧
    (fle x a0 = false → fle an x = true → ipl = n - 1 ∧ rpl = one) ∧
    (fle a0 x = true → fle x an = true → brackets fle v x ipl).
Proof. apply interp_finds. Qed.

Local Abbreviation spline :=
  (rpol_cspline flt fle feq fadd fsub fmul fdiv zero one half to_int).

(** [rpol_cspline] on an ascending table. *)
Lemma rpol_cspline_cases (y : list double)
    (csp : list (cubic_params.t double)) (clip : bool) a0 a1 an y0 yn :
  4 ≤ n →
  Z.of_nat (length y) = n → n - 1 ≤ Z.of_nat (length csp) →
  V 0 = Some a0 → V 1 = Some a1 → V (n - 1) = Some an →
  y !! 0%nat = Some y0 → y !! Z.to_nat (n - 1) = Some yn →
  fle a1 a0 = false →
  (flt x a0 = true →
   spline v y (Some csp) n x false clip
   = Returns (if clip then zero else y0)) ∧
  (flt x a0 = false → flt an x = true →
   spline v y (Some csp) n x false clip
   = Returns (if clip then zero else yn)) ∧
  (flt x a0 = false → flt an x = false →
   ∃ ipl xi cp,
     brackets fle v x ipl ∧ ipl ≤ n - 1 ∧
     V (ipl - 1) = Some xi ∧ csp !! Z.to_nat (ipl - 1) = Some cp ∧
     spline v y (Some csp) n x false clip
     = Returns (csx fadd fmul (fsub x xi) cp)).
Proof.
  intros Hn4 Hy Hcsp H0 H1 Hn Hy0 Hyn Hrise. unfold rpol_cspline.
  rewrite bool_decide_false by lia.
  rewrite (elem_lookup v 1 a1) by (done || lia).
  rewrite (elem_lookup v 0 a0) by (done || lia).
  cbn [mbind outcome_bind]. rewrite Hrise.
  pose proof (V_in _ _ H0) as Hin0. pose proof (V_in _ _ H1) as Hin1.
  pose proof (V_in _ _ Hn) as Hinn.
  split; [|split].
  - intros ->. destruct clip; [done|]. by apply elem_lookup.
  - intros -> Hgt.
    rewrite (elem_lookup v (n - 1) an) by (done || lia).
    cbn [mbind outcome_bind]. rewrite Hgt.
    destruct clip; [done|]. apply elem_lookup; [lia | done].
  - intros Hlt Hgt. rewrite Hlt.
    rewrite (elem_lookup v (n - 1) an) by (done || lia).
    cbn [mbind outcome_bind]. rewrite Hgt.
    assert (Hrise' : flt a0 an = true).
    { rewrite (flt_not_le a0 an Hin0 Hinn). apply negb_true_iff.
      destruct (fle an a0) eqn:Hc; [|done].
      rewrite (fle_trans a1 an a0 Hin1 Hinn Hin0) in Hrise; [done | | done].
      apply (V_mono 1 (n - 1)); [lia | done..]. }
    destruct (interp_finds a0 an H0 Hn Hrise')
      as (ipl & rpl & Hinterp & Hipl & _ & _ & Hbr).
    rewrite Hinterp. cbn [mbind outcome_bind].
    rewrite bool_decide_false by lia. rewrite bool_decide_false by lia.
    destruct (lookup_in_table v n (ipl - 1) table_length ltac:(lia))
      as [xi Hxi].
    assert (is_Some (csp !! Z.to_nat (ipl - 1))) as [cp Hcp].
    { apply lookup_lt_is_Some. lia. }
    rewrite (elem_lookup v (ipl - 1) xi) by (done || lia).
    rewrite (elem_lookup csp (ipl - 1) cp) by (done || lia).
    cbn [mbind outcome_bind].
    exists ipl, xi, cp.
    split; [|split; [lia | done]].
    apply Hbr.
    + rewrite (flt_not_le x a0 x_in Hin0) in Hlt.
      by apply negb_false_iff in Hlt.
    + rewrite (flt_not_le an x Hinn x_in) in Hgt.
      by apply negb_false_iff in Hgt.
Qed.

(** X23.  [rpol_cspline] on a table of 4 to 2^29 points without NaN that
    does not descend and has [x[0] < x[1]], with the parameters of its
    [n-1] intervals: below the table it returns [y[0]], above it
    [y[n-1]], and 0 in both cases when clipping; inside the table, with
    the binary search, it evaluates the polynomial of an interval that
    holds [xp], at the distance of [xp] from the left end of that
    interval. *)
Theorem rpol_cspline_ascending (y : list double)
    (csp : list (cubic_params.t double)) (clip : bool) a0 a1 an y0 yn :
  4 ≤ n →
  Z.of_nat (length y) = n → n - 1 ≤ Z.of_nat (length csp) →
  V 0 = Some a0 → V 1 = Some a1 → V (n - 1) = Some an →
  y !! 0%nat = Some y0 → y !! Z.to_nat (n - 1) = Some yn →
  fle a1 a0 = false →
  (flt x a0 = true →
   spline v y (Some csp) n x false clip
   = Returns (if clip then zero else y0)) ∧
  (flt x a0 = false → flt an x = true →
   spline v y (Some csp) n x false clip
   = Returns (if clip then zero else yn)) ∧
  (flt x a0 = false → flt an x = false →
   ∃ ipl xi cp,
     brackets fle v x ipl ∧ ipl ≤ n - 1 ∧
     V (ipl - 1) = Some xi ∧ csp !! Z.to_nat (ipl - 1) = Some cp ∧
     spline v y (Some csp) n x false clip
     = Returns (csx fadd fmul (fsub x xi) cp)).
Proof. apply rpol_cspline_cases. Qed.

End RpolatorProperties.

Lemma ordered_Q (values : list Q) : ordered Qltb Qle_bool values.
Proof.
  split; [|split].
  - intros a b _ _. rewrite !Qle_bool_iff.
    destruct (Qlt_le_dec a b) as [H | H]; [left; by apply Qlt_le_weak | by right].
  - intros a b _ _. reflexivity.
  - intros a b c _ _ _. rewrite !Qle_bool_iff. apply Qle_trans.
Qed.

Lemma demo_table_ascending : ascending Qle_bool demo_table.
Proof.
  intros i j a b Hi Hj Hij. unfold demo_table in *.
  repeat (destruct i as [|i]; [|cbn in Hi; try discriminate Hi]);
    repeat (destruct j as [|j]; [|cbn in Hj; try discriminate Hj]);
    try lia; injection Hi as <-; injection Hj as <-; reflexivity.
Defined.

Lemma interp_ascending_witness :
  ∃ ipl rpl,
    interp Qltb Qle_bool Qeq_bool Qminus Qdiv 0%Q 1%Q (1 # 2)%Q
      3%Q demo_table 5
    = Returns (Some (ipl, rpl)) ∧
    1 ≤ ipl ≤ 5 - 1 ∧
    (Qle_bool 3 0 = true → ipl = 1 ∧ rpl = 0%Q) ∧
    (Qle_bool 3 0 = false → Qle_bool 8 3 = true → ipl = 5 - 1 ∧ rpl = 1%Q) ∧
    (Qle_bool 0 3 = true → Qle_bool 3 8 = true →
     brackets Qle_bool demo_table 3%Q ipl).
Proof.
  apply (interp_ascending Qltb Qle_bool Qeq_bool Qminus Qdiv 0%Q 1%Q (1 # 2)%Q
           demo_table 5 3%Q eq_refl (ordered_Q _) demo_table_ascending
           ltac:(lia) 0%Q 8%Q eq_refl eq_refl eq_refl).
Defined.

Lemma rpol_cspline_ascending_witness :
  ∃ ipl xi cp,
    brackets Qle_bool demo_table 3%Q ipl ∧ ipl ≤ 5 - 1 ∧
    demo_table !! Z.to_nat (ipl - 1) = Some xi ∧
    demo_params !! Z.to_nat (ipl - 1) = Some cp ∧
    rpol_cspline Qltb Qle_bool Qeq_bool Qplus Qminus Qmult Qdiv 0%Q 1%Q
      (1 # 2)%Q (λ _, None) demo_table demo_values (Some demo_params) 5 3%Q
      false false
    = Returns (csx Qplus Qmult (3 - xi)%Q cp).
Proof.
  refine (proj2 (proj2
    (rpol_cspline_ascending Qltb Qle_bool Qeq_bool Qplus Qminus Qmult Qdiv
       0%Q 1%Q (1 # 2)%Q (λ _, None) demo_table 5 3%Q eq_refl (ordered_Q _)
       demo_table_ascending ltac:(lia) demo_values demo_params false
       0%Q 1%Q 8%Q 5%Q 13%Q ltac:(lia) eq_refl _ eq_refl eq_refl eq_refl
       eq_refl eq_refl eq_refl)) eq_refl eq_refl).
  vm_compute. discriminate.
Defined.

(** ** Cubic spline parameters *)


Section CubicParamsProperties.
Context {double : Type}.
Variable fle : double → double → bool.
Variables fadd fsub fmul fdiv : double → double → double.
Variables zero one half two three : double.

Lemma strictly_ascending_spec (x : list double) (count : nat) : ∀ i,
  0 ≤ i → i + Z.of_nat count < Z.of_nat (length x) →
  ∃ ok, strictly_ascending fle x i count = Returns ok ∧
        (ok = true →
         ∀ k this next, i ≤ k < i + Z.of_nat count →
           x !! Z.to_nat k = Some this → x !! Z.to_nat (k + 1) = Some next →
           fle next this = false) ∧
        (ok = false →
         ∃ k this next, i ≤ k < i + Z.of_nat count ∧
           x !! Z.to_nat k = Some this ∧ x !! Z.to_nat (k + 1) = Some next ∧
           fle next this = true).
Proof.
  induction count as [|count IH]; intros i Hi Hlen.
  - exists true. split; [done|]. split; [|done]. intros _ k ? ? Hk. lia.
  - cbn [strictly_ascending].
    destruct (lookup_in_table x _ (i + 1) eq_refl ltac:(lia)) as [next Hnext].
    destruct (lookup_in_table x _ i eq_refl ltac:(lia)) as [this Hthis].
    rewrite (elem_lookup x (i + 1) next), (elem_lookup x i this)
      by (done || lia).
    cbn [mbind outcome_bind].
    destruct (fle next this) eqn:Hle.
    + exists false. split; [done|]. split; [done|].
      intros _. exists i, this, next. split; [lia | done].
    + destruct (IH (i + 1) ltac:(lia) ltac:(lia)) as (ok & Hok & Htrue & Hfalse).
      exists ok. split; [done|]. split.
      * intros Hyes k a b Hk Ha Hb.
        destruct (decide (k = i)) as [-> | Hne].
        -- congruence.
        -- apply (Htrue Hyes k a b); [lia | done..].
      * intros Hno. destruct (Hfalse Hno) as (k & a & b & Hk & Hrest).
        exists k, a, b. split; [lia | done].
Qed.

Lemma mapM_elem_all {A} (y : list A) :
  mapM (elem y) (map Z.of_nat (seq 0 (length y))) = Returns y.
Proof.
  assert (H : ∀ (pre : list A),
            mapM (elem (pre ++ y))
                 (map Z.of_nat (seq (length pre) (length y))) = Returns y).
  { induction y as [|a y IH]; intros pre; [done|].
    cbn [length seq map mapM].
    rewrite (elem_lookup (pre ++ a :: y) (Z.of_nat (length pre)) a); [|lia|].
    2: { rewrite Nat2Z.id. by rewrite list_lookup_middle. }
    cbn [mbind outcome_bind].
    specialize (IH (pre ++ [a])). rewrite <- app_assoc in IH. simpl in IH.
    rewrite length_app in IH. simpl in IH.
    replace (length pre + 1)%nat with (S (length pre)) in IH by lia.
    by rewrite IH. }
  apply (H []).
Qed.

Local Abbreviation setup :=
  (set_1d_cubic_params fle fadd fsub fmul fdiv zero one half two three).

(** The result of a successful call. *)
Lemma set_1d_cubic_params_result (x y : list double) (n : Z) clamped :
  Z.of_nat (length x) = n → Z.of_nat (length y) = n → 4 ≤ n →
  (∀ k this next, 0 ≤ k < n - 1 →
     x !! Z.to_nat k = Some this → x !! Z.to_nat (k + 1) = Some next →
     fle next this = false) →
  setup x y n clamped
  = Returns (Some (
      map (λ i, {| cubic_params.a := default zero (y !! i);
                   cubic_params.b :=
                     cubic.b fadd fsub fmul fdiv zero one half two three
                       (λ i, default zero (x !! i))
                       (λ i, default zero (y !! i)) (Z.to_nat n) clamped i;
                   cubic_params.c :=
                     cubic.c fsub fmul fdiv zero one half two three
                       (λ i, default zero (x !! i))
                       (λ i, default zero (y !! i)) (Z.to_nat n) clamped i;
                   cubic_params.d :=
                     cubic.d fsub fmul fdiv zero one half two three
                       (λ i, default zero (x !! i))
                       (λ i, default zero (y !! i)) (Z.to_nat n) clamped i |})
          (seq 0 (Z.to_nat n - 1))
      ++ [ {| cubic_params.a := zero; cubic_params.b := zero;
              cubic_params.c := zero; cubic_params.d := zero |} ])).
Proof.
  intros Hx Hy Hn Hasc. unfold set_1d_cubic_params.
  rewrite bool_decide_false by lia.
  destruct (strictly_ascending_spec x (Z.to_nat (n - 1)) 0 ltac:(lia)
              ltac:(lia)) as (ok & -> & _ & Hfalse).
  cbn [mbind outcome_bind].
  assert (ok = true) as ->.
  { destruct ok; [done|].
    destruct (Hfalse eq_refl) as (k & this & next & Hk & H1 & H2 & Hle).
    rewrite (Hasc k this next) in Hle; [done | lia | done..]. }
  replace (Z.to_nat n) with (length y) by lia.
  rewrite mapM_elem_all. cbn [mbind outcome_bind]. reflexivity.
Qed.

(** X24.  [set_1d_cubic_params] returns the null pointer for fewer than 4
    points and for a table that does not strictly ascend, and for no other
    table of [n] points.  Otherwise it returns [n] entries, in which the
    constant coefficient of interval [i] is the table value [y[i]] and the
    entry behind the last interval is zero. *)
Theorem set_1d_cubic_params_valid (x y : list double) (n : Z) clamped :
  Z.of_nat (length x) = n → Z.of_nat (length y) = n →
  (setup x y n clamped = Returns None ↔
   n < 4 ∨ ∃ k this next, 0 ≤ k < n - 1 ∧
             x !! Z.to_nat k = Some this ∧
             x !! Z.to_nat (k + 1) = Some next ∧ fle next this = true) ∧
  (setup x y n clamped = Returns None ∨
   ∃ cpv, setup x y n clamped = Returns (Some cpv) ∧
     Z.of_nat (length cpv) = n ∧
     (∀ i yi, (i < Z.to_nat n - 1)%nat → y !! i = Some yi →
        cubic_params.a <$> cpv !! i = Some yi) ∧
     cpv !! (Z.to_nat n - 1)%nat
     = Some {| cubic_params.a := zero; cubic_params.b := zero;
               cubic_params.c := zero; cubic_params.d := zero |}).
Proof.
  intros Hx Hy.
  destruct (decide (n < 4)) as [Hn | Hn].
  { assert (Hnone : setup x y n clamped = Returns None).
    { unfold set_1d_cubic_params. by rewrite bool_decide_true. }
    split; [|by left]. split; [by left | done]. }
  destruct (strictly_ascending_spec x (Z.to_nat (n - 1)) 0 ltac:(lia)
              ltac:(lia)) as (ok & Hok & Htrue & Hfalse).
  destruct ok.
  - assert (Hasc : ∀ k this next, 0 ≤ k < n - 1 →
              x !! Z.to_nat k = Some this →
              x !! Z.to_nat (k + 1) = Some next → fle next this = false).
    { intros k this next Hk. apply (Htrue eq_refl). lia. }
    rewrite (set_1d_cubic_params_result x y n clamped Hx Hy ltac:(lia) Hasc).
    split.
    + split; [done|]. intros [? | (k & this & next & Hk & H1 & H2 & Hle)];
        [lia|]. by rewrite (Hasc k this next Hk H1 H2) in Hle.
    + right. eexists. split; [reflexivity|]. split; [|split].
      * rewrite length_app, length_map, length_seq. simpl. lia.
      * intros i yi Hi Hyi. rewrite lookup_app_l
          by (rewrite length_map, length_seq; lia).
        rewrite list_lookup_fmap, lookup_seq_lt by lia. simpl.
        by rewrite Hyi.
      * rewrite lookup_app_r by (rewrite length_map, length_seq; lia).
        rewrite length_map, length_seq.
        by replace (Z.to_nat n - 1 - (Z.to_nat n - 1))%nat with 0%nat by lia.
  - assert (Hnone : setup x y n clamped = Returns None).
    { unfold set_1d_cubic_params. rewrite bool_decide_false by lia.
      by rewrite Hok. }
    split; [|by left]. split; [|done]. intros _. right.
    destruct (Hfalse eq_refl) as (k & this & next & Hk & Hrest).
    exists k, this, next. split; [lia | done].
Qed.

End CubicParamsProperties.


(** ** The spline in exact arithmetic *)

Section SplineQ.
Local Open Scope Q_scope.
Variables (x y : nat → Q) (n : nat) (clamped : bool).
Hypothesis points : (4 ≤ n)%nat.
Hypothesis rising : ∀ i, (i + 1 < n)%nat → x i < x (i + 1)%nat.

Local Abbreviation h := (cubic.h Qminus x).
Local Abbreviation A := (cubic.A Qminus Qmult Qdiv 0 3 x y n clamped).
Local Abbreviation l :=
  (cubic.l Qminus Qmult Qdiv 0 1 (1 # 2) 2 3 x y n clamped).
Local Abbreviation M :=
  (cubic.M Qminus Qmult Qdiv 0 1 (1 # 2) 2 3 x y n clamped).
Local Abbreviation z :=
  (cubic.z Qminus Qmult Qdiv 0 1 (1 # 2) 2 3 x y n clamped).
Local Abbreviation c :=
  (cubic.c Qminus Qmult Qdiv 0 1 (1 # 2) 2 3 x y n clamped).
Local Abbreviation b :=
  (cubic.b Qplus Qminus Qmult Qdiv 0 1 (1 # 2) 2 3 x y n clamped).
Local Abbreviation d :=
  (cubic.d Qminus Qmult Qdiv 0 1 (1 # 2) 2 3 x y n clamped).

Lemma h_pos i : (i + 1 < n)%nat → 0 < h i.
Proof.
  intros Hi. unfold cubic.h. pose proof (rising i Hi). lra.
Qed.

Lemma l_S i :
  l (S i) = 2 * (x (S i + 1)%nat - x (S i - 1)%nat) - h (S i - 1) * M i.
Proof.
  unfold cubic.l, cubic.M. cbn [cubic.lMz].
  by destruct (cubic.lMz _ _ _ _ _ _ _ _ _ _ _ _ i) as [[? ?] ?].
Qed.

Lemma M_S i : M (S i) = h (S i) / l (S i).
Proof.
  unfold cubic.l, cubic.M. cbn [cubic.lMz].
  by destruct (cubic.lMz _ _ _ _ _ _ _ _ _ _ _ _ i) as [[? ?] ?].
Qed.

Lemma z_S i : z (S i) = (A (S i) - h (S i - 1) * z i) / l (S i).
Proof.
  unfold cubic.l, cubic.z. cbn [cubic.lMz].
  by destruct (cubic.lMz _ _ _ _ _ _ _ _ _ _ _ _ i) as [[? ?] ?].
Qed.

Lemma sweep_bounds i :
  (i + 2 ≤ n)%nat → 0 < l i ∧ 0 <= M i ∧ M i <= 1 # 2.
Proof.
  induction i as [|i IH]; intros Hi.
  - unfold cubic.l, cubic.M. cbn [cubic.lMz].
    pose proof (h_pos 0 ltac:(lia)) as Hh.
    destruct clamped; simpl; repeat split; try lra.
  - destruct (IH ltac:(lia)) as (Hl & HM0 & HM1).
    pose proof (h_pos i ltac:(lia)) as Hh.
    pose proof (h_pos (S i) ltac:(lia)) as Hh'.
    assert (Hl' : 2 * h (S i) + (3 # 2) * h i <= l (S i)).
    { rewrite l_S. unfold cubic.h in *.
      replace (S i - 1)%nat with i by lia.
      replace (S i + 1)%nat with (S (S i)) in * by lia.
      replace (i + 1)%nat with (S i) in * by lia.
      assert ((x (S i) - x i) * M i <= (x (S i) - x i) * (1 # 2)).
      { apply Qmult_le_l; [lra | done]. }
      lra. }
    split; [lra|]. rewrite M_S. split.
    + apply Qle_shift_div_l; lra.
    + apply Qle_shift_div_r; lra.
Qed.

Lemma c_step j : (j + 2 ≤ n)%nat → c j = z j - M j * c (j + 1)%nat.
Proof.
  intros Hj. unfold cubic.c.
  replace (n - 1 - j)%nat with (S (n - 1 - (j + 1))) by lia.
  cbn [cubic.c_down].
  by replace (n - 1 - S (n - 1 - (j + 1)))%nat with j by lia.
Qed.

(** The equations that the sweep solves: those of the interior points. *)
Lemma tridiagonal i :
  (i + 3 ≤ n)%nat →
  h i * c i + 2 * (x (S (S i)) - x i) * c (S i) + h (S i) * c (S (S i))
  == A (S i).
Proof.
  intros Hi.
  pose proof (c_step i ltac:(lia)) as Hc0.
  pose proof (c_step (S i) ltac:(lia)) as Hc1.
  replace (i + 1)%nat with (S i) in Hc0 by lia.
  replace (S i + 1)%nat with (S (S i)) in Hc1 by lia.
  destruct (sweep_bounds (S i) ltac:(lia)) as (Hl & _).
  pose proof (l_S i) as HlS. pose proof (M_S i) as HMS.
  pose proof (z_S i) as HzS.
  replace (S i - 1)%nat with i in * by lia.
  replace (S i + 1)%nat with (S (S i)) in * by lia.
  rewrite Hc0, Hc1, HMS, HzS.
  set (lS := l (S i)) in *.
  assert (HD : 2 * (x (S (S i)) - x i) == lS + h i * M i).
  { rewrite HlS. ring. }
  rewrite HD. field. lra.
Qed.

Local Abbreviation piece i :=
  {| cubic_params.a := cubic.a y i; cubic_params.b := b i;
     cubic_params.c := c i; cubic_params.d := d i |}.

Lemma piece_values i :
  (i + 1 < n)%nat →
  csx Qplus Qmult 0 (piece i) == y i ∧
  csx Qplus Qmult (h i) (piece i) == y (i + 1)%nat.
Proof.
  intros Hi. pose proof (h_pos i Hi) as Hh.
  unfold csx, cubic.b, cubic.d, cubic.a, cubic.h in *. cbn.
  split; [ring|]. field. lra.
Qed.

Lemma piece_bend i :
  (i + 1 < n)%nat → bend (piece i) (h i) == 2 * c (i + 1)%nat.
Proof.
  intros Hi. pose proof (h_pos i Hi) as Hh.
  unfold bend, cubic.d, cubic.h in *. cbn. field. lra.
Qed.

Lemma piece_slope i :
  (i + 3 ≤ n)%nat → slope (piece i) (h i) == b (i + 1)%nat.
Proof.
  intros Hi. pose proof (h_pos i ltac:(lia)) as Hh.
  pose proof (h_pos (S i) ltac:(lia)) as Hh'.
  pose proof (tridiagonal i Hi) as Htri.
  unfold slope, cubic.b, cubic.d, cubic.a. cbn.
  replace (i + 1)%nat with (S i) by lia.
  replace (S i + 1)%nat with (S (S i)) by lia.
  assert (HA : A (S i)
               == 3 * (y (S (S i)) - y (S i)) / h (S i)
                  - 3 * (y (S i) - y i) / h i).
  { unfold cubic.A, cubic.a.
    replace (S i =? 0)%nat with false by done.
    replace (S i =? n - 1)%nat with false
      by (symmetry; apply Nat.eqb_neq; lia).
    replace (S i + 1)%nat with (S (S i)) by lia.
    replace (S i - 1)%nat with i by lia. reflexivity. }
  rewrite HA in Htri.
  set (c0 := c i) in *. set (c1 := c (S i)) in *. set (c2 := c (S (S i))) in *.
  assert (Hx : x (S (S i)) - x i == h (S i) + h i).
  { unfold cubic.h.
    replace (i + 1)%nat with (S i) by lia.
    replace (S i + 1)%nat with (S (S i)) by lia. ring. }
  rewrite Hx in Htri.
  set (h0 := h i) in *. set (h1 := h (S i)) in *.
  set (dy0 := y (S i) - y i) in *. set (dy1 := y (S (S i)) - y (S i)) in *.
  assert (Htri' : (h0 * c0 + 2 * (h1 + h0) * c1 + h1 * c2) * (h0 * h1)
                  == 3 * dy1 * h0 - 3 * dy0 * h1).
  { rewrite Htri. field. lra. }
  apply (Qmult_inj_r _ _ (3 * h0 * h1)).
  { intros H0. assert (0 < 3 * h0 * h1) by nra. lra. }
  assert (L : (dy0 / h0 - h0 * (c1 + 2 * c0) / 3 + 2 * c0 * h0 +
               3 * ((c1 - c0) / (3 * h0)) * h0 * h0) * (3 * h0 * h1)
              == 3 * dy0 * h1 + h0 * h0 * h1 * (2 * c1 + c0))
    by (field; lra).
  assert (R : (dy1 / h1 - h1 * (c2 + 2 * c1) / 3) * (3 * h0 * h1)
              == 3 * dy1 * h0 - h1 * h1 * h0 * (c2 + 2 * c1))
    by (field; lra).
  rewrite L, R. nra.
Qed.

(** The conditions at the two ends: no curvature for the natural spline,
    no slope for the clamped one. *)
Lemma piece_ends_natural :
  clamped = false → c 0%nat == 0 ∧ c (n - 1)%nat == 0.
Proof.
  intros Hcl.
  pose proof (c_step 0 ltac:(lia)) as Hc0.
  split.
  - rewrite Hc0. unfold cubic.z, cubic.M. cbn [cubic.lMz]. rewrite Hcl.
    cbn. ring.
  - unfold cubic.c. replace (n - 1 - (n - 1))%nat with 0%nat by lia.
    cbn [cubic.c_down]. by rewrite Hcl.
Qed.

Lemma piece_ends_clamped :
  clamped = true →
  b 0%nat == 0 ∧ slope (piece (n - 2)) (h (n - 2)) == 0.
Proof.
  intros Hcl.
  pose proof (h_pos 0 ltac:(lia)) as Hh0.
  pose proof (h_pos (n - 2) ltac:(lia)) as Hhn.
  pose proof (c_step 0 ltac:(lia)) as Hc0.
  pose proof (c_step (n - 2) ltac:(lia)) as Hcn.
  replace (n - 2 + 1)%nat with (n - 1)%nat in Hcn by lia.
  destruct (sweep_bounds (n - 2) ltac:(lia)) as (_ & HM0 & HM1).
  assert (Hlast : c (n - 1)%nat
                  = cubic.c_down Qminus Qmult Qdiv 0 1 (1 # 2) 2 3 x y n
                      clamped 0).
  { unfold cubic.c. by replace (n - 1 - (n - 1))%nat with 0%nat by lia. }
  rewrite Hcl in Hc0, Hcn, HM0, HM1, Hlast |- *.
  split.
  - unfold cubic.b. rewrite Hc0.
    unfold cubic.z, cubic.M. cbn [cubic.lMz]. cbn.
    unfold cubic.A. cbn.
    unfold cubic.deriv_left, cubic.a, cubic.h in *.
    field. lra.
  - unfold slope, cubic.b, cubic.d. cbn.
    replace (n - 2 + 1)%nat with (n - 1)%nat by lia.
    rewrite Hcn, Hlast. cbn [cubic.c_down]. rewrite ?Hcl.
    unfold cubic.A. rewrite ?Hcl.
    replace (n - 1 =? 0)%nat with false by (symmetry; apply Nat.eqb_neq; lia).
    rewrite Nat.eqb_refl.
    unfold cubic.deriv_right, cubic.a.
    set (Mn := M (n - 2)) in *. set (zn := z (n - 2)).
    set (hn := h (n - 2)) in *.
    set (dy := y (n - 1)%nat - y (n - 2)%nat).
    field. lra.
Qed.

End SplineQ.

Local Abbreviation Qsetup :=
  (set_1d_cubic_params Qle_bool Qplus Qminus Qmult Qdiv 0%Q 1%Q (1 # 2)%Q
     2%Q 3%Q).

Local Abbreviation Qpiece xs ys n clamped :=
  (λ i : nat,
     {| cubic_params.a := default 0%Q (ys !! i);
        cubic_params.b :=
          cubic.b Qplus Qminus Qmult Qdiv 0%Q 1%Q (1 # 2)%Q 2%Q 3%Q
            (λ k : nat, default 0%Q (xs !! k))
            (λ k : nat, default 0%Q (ys !! k))
            (Z.to_nat n) clamped i;
        cubic_params.c :=
          cubic.c Qminus Qmult Qdiv 0%Q 1%Q (1 # 2)%Q 2%Q 3%Q
            (λ k : nat, default 0%Q (xs !! k))
            (λ k : nat, default 0%Q (ys !! k))
            (Z.to_nat n) clamped i;
        cubic_params.d :=
          cubic.d Qminus Qmult Qdiv 0%Q 1%Q (1 # 2)%Q 2%Q 3%Q
            (λ k : nat, default 0%Q (xs !! k))
            (λ k : nat, default 0%Q (ys !! k))
            (Z.to_nat n) clamped i |}).

Section SplineTable.
Variables (xs ys : list Q) (n : Z) (clamped : bool).
Hypothesis xs_length : Z.of_nat (length xs) = n.
Hypothesis ys_length : Z.of_nat (length ys) = n.
Hypothesis points : 4 ≤ n.
Hypothesis rising : strictly_rising xs.

Lemma rising_function i :
  (i + 1 < Z.to_nat n)%nat →
  (default 0 (xs !! i) < default 0 (xs !! (i + 1)%nat))%Q.
Proof.
  intros Hi.
  destruct (lookup_lt_is_Some_2 xs i ltac:(lia)) as [this Hthis].
  destruct (lookup_lt_is_Some_2 xs (i + 1) ltac:(lia)) as [next Hnext].
  rewrite Hthis, Hnext. simpl. by apply (rising i).
Qed.

Lemma Qsetup_result :
  Qsetup xs ys n clamped
  = Returns (Some (map (Qpiece xs ys n clamped) (seq 0 (Z.to_nat n - 1))
                   ++ [ {| cubic_params.a := 0%Q; cubic_params.b := 0%Q;
                           cubic_params.c := 0%Q; cubic_params.d := 0%Q |} ])).
Proof.
  apply set_1d_cubic_params_result; [done..|].
  intros k this next Hk Hthis Hnext.
  replace (Z.to_nat (k + 1)) with (Z.to_nat k + 1)%nat in Hnext by lia.
  pose proof (rising _ _ _ Hthis Hnext) as Hlt.
  destruct (Qle_bool next this) eqn:Hle; [|done].
  apply Qle_bool_iff in Hle. exfalso. by apply (Qlt_not_le this next).
Qed.

Lemma Qsetup_piece cpv i p :
  Qsetup xs ys n clamped = Returns (Some cpv) →
  (i + 1 < Z.to_nat n)%nat → cpv !! i = Some p →
  p = Qpiece xs ys n clamped i.
Proof.
  rewrite Qsetup_result. intros [= <-] Hi Hp.
  rewrite lookup_app_l in Hp by (rewrite length_map, length_seq; lia).
  rewrite list_lookup_fmap, lookup_seq_lt in Hp by lia.
  by injection Hp as <-.
Qed.

Lemma points_nat : (4 ≤ Z.to_nat n)%nat.
Proof. lia. Qed.

Lemma step_width i xi xi1 :
  xs !! i = Some xi → xs !! (i + 1)%nat = Some xi1 →
  cubic.h Qminus (λ k : nat, default 0%Q (xs !! k)) i = (xi1 - xi)%Q.
Proof. intros Hi Hi1. unfold cubic.h. by rewrite Hi, Hi1. Qed.

(** The pieces take the table values. *)
Lemma Qsetup_interpolates :
  ∃ cpv,
    Qsetup xs ys n clamped = Returns (Some cpv) ∧
    ∀ (i : nat) p xi xi1 yi yi1,
      cpv !! i = Some p →
      xs !! i = Some xi → xs !! (i + 1)%nat = Some xi1 →
      ys !! i = Some yi → ys !! (i + 1)%nat = Some yi1 →
      (csx Qplus Qmult 0 p == yi)%Q ∧
      (csx Qplus Qmult (xi1 - xi) p == yi1)%Q.
Proof.
  eexists. split; [apply Qsetup_result|].
  intros i p xi xi1 yi yi1 Hp Hxi Hxi1 Hyi Hyi1.
  assert (Hi : (i + 1 < Z.to_nat n)%nat).
  { apply lookup_lt_Some in Hxi1. lia. }
  rewrite (Qsetup_piece _ i p Qsetup_result Hi Hp).
  destruct (piece_values (λ k : nat, default 0%Q (xs !! k))
              (λ k : nat, default 0%Q (ys !! k)) (Z.to_nat n) clamped
              rising_function i Hi) as [H0 H1].
  rewrite (step_width i xi xi1 Hxi Hxi1) in H1.
  rewrite Hyi1 in H1. rewrite Hyi in H0. simpl in H0, H1.
  unfold cubic.a in *. rewrite Hyi in *. simpl in *. done.
Qed.



End SplineTable.

Lemma demo_table_rising : strictly_rising demo_table.
Proof.
  intros i this next Hi Hj. unfold demo_table in *.
  repeat (destruct i as [|i]; [|cbn in Hi, Hj; try discriminate Hi]);
    try discriminate Hj; injection Hi as <-; injection Hj as <-; reflexivity.
Defined.

Lemma set_1d_cubic_params_valid_witness :
  Z.of_nat (length demo_table) = 5 ∧ Z.of_nat (length demo_values) = 5 ∧
  (Qsetup demo_table demo_values 5 false = Returns None ↔
   5 < 4 ∨ ∃ k this next, 0 ≤ k < 5 - 1 ∧
             demo_table !! Z.to_nat k = Some this ∧
             demo_table !! Z.to_nat (k + 1) = Some next ∧
             Qle_bool next this = true).
Proof.
  split; [reflexivity|]. split; [reflexivity|].
  exact (proj1 (set_1d_cubic_params_valid Qle_bool Qplus Qminus Qmult Qdiv
                  0%Q 1%Q (1 # 2)%Q 2%Q 3%Q demo_table demo_values 5 false
                  eq_refl eq_refl)).
Defined.




(** ** Setting up and evaluating the spline *)

Lemma strictly_rising_lt (xs : list Q) (i j : nat) a b :
  strictly_rising xs → (i < j)%nat →
  xs !! i = Some a → xs !! j = Some b → (a < b)%Q.
Proof.
  intros Hrise Hij Ha. revert b.
  induction j as [|j IH]; intros b Hb; [lia|].
  destruct (decide (i = j)) as [-> | Hne].
  - apply (Hrise j a b Ha). by replace (j + 1)%nat with (S j) by lia.
  - assert (is_Some (xs !! j)) as [m Hm].
    { apply lookup_lt_is_Some. apply lookup_lt_Some in Hb. lia. }
    apply Qlt_trans with m; [apply IH; [lia | done]|].
    apply (Hrise j m b Hm). by replace (j + 1)%nat with (S j) by lia.
Qed.

Lemma strictly_rising_ascending (xs : list Q) :
  strictly_rising xs → ascending Qle_bool xs.
Proof.
  intros Hrise i j a b Ha Hb Hij. apply Qle_bool_iff.
  destruct (decide (i = j)) as [-> | Hne].
  - assert (a = b) as -> by congruence. apply Qle_refl.
  - apply Qlt_le_weak. apply (strictly_rising_lt xs i j); [done | lia | done..].
Qed.

Section SplinePipeline.
Variable to_int : Q → option Z.
Variables (xs ys : list Q) (n : Z) (clamped clip : bool).
Hypothesis xs_length : Z.of_nat (length xs) = n.
Hypothesis ys_length : Z.of_nat (length ys) = n.
Hypothesis points : 4 ≤ n ≤ 2 ^ 29.
Hypothesis rising : strictly_rising xs.

Local Abbreviation Qsetup :=
  (set_1d_cubic_params Qle_bool Qplus Qminus Qmult Qdiv 0%Q 1%Q (1 # 2)%Q
     2%Q 3%Q).
Local Abbreviation Qspline :=
  (rpol_cspline Qltb Qle_bool Qeq_bool Qplus Qminus Qmult Qdiv 0%Q 1%Q
     (1 # 2)%Q to_int).


End SplinePipeline.

